(** * thrift-gen-rpc-swagger: the OpenAPI v3 document generator

    A shallow embedding of [generator/generator.go]: the IDL model the
    generator reads, the OpenAPI document it assembles, and the generator's
    operations as functions in a state-and-failure monad.

    Go pointers that may be nil are [option]s, a nil dereference is the
    failure [Panic], the unbounded recursion of
    [addSchemasForStructsToDocument] and the draining loop of [BuildDocument]
    take fuel and report [OutOfFuel] when it is exhausted. *)

From Stdlib Require Import String Ascii List Bool Arith Lia.
From Stdlib Require Import Sorting.Sorted Sorting.Permutation.
From stdpp Require Import base option list strings gmap.

Import ListNotations.
Local Open Scope string_scope.
Local Open Scope list_scope.

(** ** The annotation vocabulary (the constants that close generator.go) *)

Definition ApiGet := "api.get".
Definition ApiPost := "api.post".
Definition ApiPut := "api.put".
Definition ApiPatch := "api.patch".
Definition ApiDelete := "api.delete".
Definition ApiOptions := "api.options".
Definition ApiHEAD := "api.head".
Definition ApiAny := "api.any".
Definition ApiQuery := "api.query".
Definition ApiForm := "api.form".
Definition ApiPath := "api.path".
Definition ApiHeader := "api.header".
Definition ApiCookie := "api.cookie".
Definition ApiBody := "api.body".
Definition ApiRawBody := "api.raw_body".
Definition ApiBaseDomain := "api.base_domain".
Definition ApiBaseURL := "api.baseurl".
Definition OpenapiOperation := "openapi.operation".
Definition OpenapiProperty := "openapi.property".
Definition OpenapiSchema := "openapi.schema".
Definition OpenapiParameter := "openapi.parameter".
Definition OpenapiDocument := "openapi.document".

(** [HttpMethodAnnotations]: annotation key to HTTP verb. *)
Definition HttpMethodAnnotations : list (string * string) :=
  [ (ApiGet, "GET"); (ApiPost, "POST"); (ApiPut, "PUT"); (ApiPatch, "PATCH");
    (ApiDelete, "DELETE"); (ApiOptions, "OPTIONS"); (ApiHEAD, "HEAD");
    (ApiAny, "ANY") ].

(** ** The IDL model: the parser's syntax tree *)

(** [parser.Category], of which the generator only asks [IsStruct]. *)
Inductive Category :=
| Category_Basic | Category_Enum | Category_Struct | Category_Union
| Category_Exception | Category_Container | Category_Typedef.

Definition Category_IsStruct (c : Category) : bool :=
  match c with Category_Struct => true | _ => false end.

Record ParserType := { pt_Name : string; pt_Category : Category }.

(** [parser.Annotation]: a key and its values, kept in source order. *)
Record Annotation := { an_Key : string; an_Values : list string }.

Record ParserField := { pf_Name : string; pf_Type : ParserType }.

Record StructLike := {
  sl_Name : string;
  sl_Fields : list ParserField;
  sl_Annotations : list Annotation }.

Record Function_ := {
  fn_Name : string;
  fn_FunctionType : ParserType;
  fn_Arguments : list ParserField;
  fn_Annotations : list Annotation;
  fn_ReservedComments : string }.

Record Service := {
  sv_Name : string;
  sv_Functions : list Function_;
  sv_Annotations : list Annotation;
  sv_ReservedComments : string }.

(** [parser.Thrift]: [th_StructLikes] is what [GetStructLikes] returns,
    [th_Structs] the plain structs among them. *)
Record Thrift := {
  th_Services : list Service;
  th_Structs : list StructLike;
  th_StructLikes : list StructLike }.

(** ** The IDL model: the reflection descriptors *)

(** A field's declared type.  [TStruct n] is a type that reports
    [IsStruct]; whether it resolves to a descriptor is decided by the
    registry.  [TNamed n] is every other named type (the primitives, and
    enums, sets and the like, for which the generator has no schema). *)
Inductive TypeDescriptor :=
| TNamed (name : string)
| TStruct (name : string)
| TList (value : TypeDescriptor)
| TMap (key value : TypeDescriptor).

Definition td_IsMap (t : TypeDescriptor) : bool :=
  match t with TMap _ _ => true | _ => false end.
Definition td_IsList (t : TypeDescriptor) : bool :=
  match t with TList _ => true | _ => false end.
Definition td_GetName (t : TypeDescriptor) : string :=
  match t with
  | TNamed n | TStruct n => n
  | TList _ => "list"
  | TMap _ _ => "map"
  end.

Record FieldDescriptor := {
  fd_Name : string;
  fd_Type : TypeDescriptor;
  fd_Annotations : gmap string (list string);
  fd_Comments : string }.

Record StructDescriptor := {
  sd_Name : string;
  sd_Fields : list FieldDescriptor;
  sd_Comments : string }.

(** [thrift_reflection.FileDescriptor], as far as the generator uses it:
    the descriptors of the structs the file declares, which it looks up by
    name, and those of the files it includes, under the names by which the
    file's types refer to them; only the resolution of a type reaches the
    latter. *)
Record FileDescriptor := {
  fdesc_Structs : list StructDescriptor;
  fdesc_Included : list (string * StructDescriptor) }.

Definition GetStructDescriptor (fd : FileDescriptor) (name : string)
  : option StructDescriptor :=
  find (fun s => String.eqb (sd_Name s) name) (fdesc_Structs fd).

(** [fieldType.GetStructDescriptor()]: the type's name resolved among the
    structs of the file, and else among those of its includes; [None] is the
    error return. *)
Definition td_GetStructDescriptor (fd : FileDescriptor) (t : TypeDescriptor)
  : option StructDescriptor :=
  match t with
  | TStruct n =>
      match GetStructDescriptor fd n with
      | Some structDesc => Some structDesc
      | None =>
          option_map snd
            (find (fun p => String.eqb (fst p) n) (fdesc_Included fd))
      end
  | _ => None
  end.
Arguments td_GetStructDescriptor : simpl never.

(** ** The OpenAPI document

    The [...OrReference] wrappers the generator only ever fills on one side
    (parameters, request bodies, responses, headers) are flattened to the
    side it fills; [SchemaOrReference] keeps both sides, since a field's
    schema is an inline schema for a primitive and a reference for a
    struct.  [Paths.Path], [Components.Schemas.AdditionalProperties] and
    the other one-field wrappers are the lists they hold. *)

Inductive Schema := mkSchema {
  sc_Type : string;
  sc_Format : string;
  sc_Description : string;
  sc_Title : string;
  sc_Properties : list (string * SchemaOrReference);
  sc_Required : list string;
  sc_Items : option (list (option SchemaOrReference));
  sc_AdditionalProperties : option (option SchemaOrReference) }
with SchemaOrReference := mkSchemaOrReference {
  sor_Schema : option Schema;
  sor_Reference : option string }.

Definition NamedSchemaOrReference : Type := string * SchemaOrReference.

Definition emptySchema : Schema :=
  mkSchema "" "" "" "" [] [] None None.

Definition IsSetSchema (s : SchemaOrReference) : bool :=
  match sor_Schema s with Some _ => true | None => false end.

Record Server := { srv_URL : string }.

Record Parameter_ := {
  pa_Name : string;
  pa_In : string;
  pa_Description : string;
  pa_Required : bool;
  pa_Schema : option SchemaOrReference }.

Record MediaType := { mt_Schema : option SchemaOrReference }.
Definition NamedMediaType : Type := string * MediaType.

Record RequestBody := {
  rb_Description : string;
  rb_Content : list NamedMediaType }.

Record Header := {
  hd_Description : string;
  hd_Schema : option SchemaOrReference }.

Record Response := {
  rs_Description : string;
  rs_Headers : option (list (string * Header));
  rs_Content : option (list NamedMediaType) }.

Record Operation := {
  op_Tags : list string;
  op_Description : string;
  op_OperationID : string;
  op_Parameters : list Parameter_;
  op_Responses : option (list (string * Response));
  op_RequestBody : option RequestBody;
  op_Servers : list Server }.

Record PathItem := {
  pi_Get : option Operation;
  pi_Post : option Operation;
  pi_Put : option Operation;
  pi_Delete : option Operation;
  pi_Patch : option Operation;
  pi_Options : option Operation;
  pi_Head : option Operation;
  pi_Servers : list Server }.

Definition NamedPathItem : Type := string * PathItem.

Definition emptyPathItem : PathItem :=
  {| pi_Get := None; pi_Post := None; pi_Put := None; pi_Delete := None;
     pi_Patch := None; pi_Options := None; pi_Head := None;
     pi_Servers := [] |}.

Record Tag := { tg_Name : string; tg_Description : string }.

Record Info := {
  in_Title : string;
  in_Description : string;
  in_Version : string }.

Record Document := {
  d_Openapi : string;
  d_Info : Info;
  d_Servers : list Server;
  d_Paths : list NamedPathItem;
  d_Schemas : list NamedSchemaOrReference;
  d_Tags : list Tag }.

(** ** Package utils and the override interface

    The helper package [utils] is not among the sources; its functions are
    modelled from the specification's description of them. *)

(** Modelled from the spec: [utils.Contains], membership of a name in one of
    the two name sets ("referenced" and "emitted") of the generator. *)
Definition Contains (l : list string) (x : string) : bool :=
  existsb (String.eqb x) l.

(** Modelled from the spec: [utils.AppendUnique], used to collect servers
    "ordered, de-duplicated by URL". *)
Definition AppendUnique (l : list string) (x : string) : list string :=
  if Contains l x then l else l ++ [x].

(** Modelled from the spec: [utils.GetAnnotation], the annotation lookup
    "annotationsOn(element, key) -> ordered sequence of string values
    (empty if absent)". *)
Definition GetAnnotation (input : list Annotation) (key : string)
  : list string :=
  match find (fun a => String.eqb (an_Key a) key) input with
  | Some a => an_Values a
  | None => []
  end.

(** Modelled from the spec: [utils.GetAnnotations], the verb annotations
    present on a method, as a Go map from the verb to the annotation's
    values ("for each verb-annotation present on a method"). *)
Definition GetAnnotations (input : list Annotation)
    (targets : list (string * string)) : gmap string (list string) :=
  foldr (fun kt out =>
           match find (fun a => String.eqb (an_Key a) (fst kt)) input with
           | Some a => <[snd kt := an_Values a]> out
           | None => out
           end) ∅ targets.

(** Modelled from the spec: [utils.MergeStructs], "for each field set in the
    override, replace; otherwise keep base".  A field is set when it differs
    from Go's zero value: a non-empty string or list, [true], a non-nil
    pointer. *)
Definition mergeString (base ext : string) : string :=
  if String.eqb ext "" then base else ext.
Definition mergeBool (base ext : bool) : bool := if ext then true else base.
Definition mergeOption {A} (base ext : option A) : option A :=
  match ext with Some _ => ext | None => base end.
Definition mergeList {A} (base ext : list A) : list A :=
  match ext with [] => base | _ :: _ => ext end.

(** Modelled from the spec: [utils.MergeStructs] on two schemas. *)
Definition MergeStructs_Schema (dst src : Schema) : Schema :=
  {| sc_Type := mergeString (sc_Type dst) (sc_Type src);
     sc_Format := mergeString (sc_Format dst) (sc_Format src);
     sc_Description := mergeString (sc_Description dst) (sc_Description src);
     sc_Title := mergeString (sc_Title dst) (sc_Title src);
     sc_Properties := mergeList (sc_Properties dst) (sc_Properties src);
     sc_Required := mergeList (sc_Required dst) (sc_Required src);
     sc_Items := mergeOption (sc_Items dst) (sc_Items src);
     sc_AdditionalProperties :=
       mergeOption (sc_AdditionalProperties dst) (sc_AdditionalProperties src)
  |}.

(** Modelled from the spec: [utils.MergeStructs] on a parameter and its
    override, which is nil when the field has none. *)
Definition MergeStructs_Parameter (dst : Parameter_) (src : option Parameter_)
  : Parameter_ :=
  match src with
  | None => dst
  | Some src =>
      {| pa_Name := mergeString (pa_Name dst) (pa_Name src);
         pa_In := mergeString (pa_In dst) (pa_In src);
         pa_Description :=
           mergeString (pa_Description dst) (pa_Description src);
         pa_Required := mergeBool (pa_Required dst) (pa_Required src);
         pa_Schema := mergeOption (pa_Schema dst) (pa_Schema src) |}
  end.

(** Modelled from the spec: [utils.MergeStructs] on two operations. *)
Definition MergeStructs_Operation (dst src : Operation) : Operation :=
  {| op_Tags := mergeList (op_Tags dst) (op_Tags src);
     op_Description := mergeString (op_Description dst) (op_Description src);
     op_OperationID := mergeString (op_OperationID dst) (op_OperationID src);
     op_Parameters := mergeList (op_Parameters dst) (op_Parameters src);
     op_Responses := mergeOption (op_Responses dst) (op_Responses src);
     op_RequestBody := mergeOption (op_RequestBody dst) (op_RequestBody src);
     op_Servers := mergeList (op_Servers dst) (op_Servers src) |}.

(** Modelled from the spec: [utils.MergeStructs] on the document and its
    override, descending into [Info]. *)
Definition MergeStructs_Info (dst src : Info) : Info :=
  {| in_Title := mergeString (in_Title dst) (in_Title src);
     in_Description := mergeString (in_Description dst) (in_Description src);
     in_Version := mergeString (in_Version dst) (in_Version src) |}.

Definition MergeStructs_Document (dst src : Document) : Document :=
  {| d_Openapi := mergeString (d_Openapi dst) (d_Openapi src);
     d_Info := MergeStructs_Info (d_Info dst) (d_Info src);
     d_Servers := mergeList (d_Servers dst) (d_Servers src);
     d_Paths := mergeList (d_Paths dst) (d_Paths src);
     d_Schemas := mergeList (d_Schemas dst) (d_Schemas src);
     d_Tags := mergeList (d_Tags dst) (d_Tags src) |}.

(** The override-parsing interface, "parseOverride(element, annotationKey,
    targetShape) -> populated override struct | absent": what the
    [utils.Parse...Option] calls of the generator yield for each element.
    Where the generator hands in a freshly allocated target
    ([&openapi.Schema{}], [&openapi.Operation{}]) the result is that target,
    all fields unset when nothing was parsed.  [filterCommentString] is
    the generator's comment normaliser, two regular expressions over the
    comment text, of which only the result is used. *)
Record Overrides := {
  ParseFieldOption_Parameter : FieldDescriptor -> option Parameter_;
  ParseFieldOption_Property : FieldDescriptor -> Schema;
  ParseStructOption_Schema : StructDescriptor -> option Schema;
  ParseMethodOption_Operation : string -> string -> Operation;
  ParseServiceOption_Document : string -> option Document;
  ParseStructOption_Document : string -> option Document;
  filterCommentString : string -> string }.

(** The order in which the Go runtime walks the map of a method's verb
    annotations: some rearrangement of its entries, chosen per method. *)
Record MapRange := {
  range_order :
    string -> string -> list (string * list string)
    -> list (string * list string);
  range_perm : forall s f l, Permutation (range_order s f l) l }.

(** ** The generator monad: state, nil dereference, exhausted fuel *)

Inductive Result (A : Type) : Type :=
| Ok (a : A)
| Panic
| OutOfFuel.
Arguments Ok {A} a.
Arguments Panic {A}.
Arguments OutOfFuel {A}.

(** The mutable part of [OpenAPIv3Generator] and the document under
    construction, which every method reaches through a pointer. *)
Record GenState := {
  generatedSchemas : list string;
  requiredSchemas : list string;
  doc : Document }.

Definition Gen (A : Type) : Type := GenState -> Result (A * GenState).

Definition ret {A} (a : A) : Gen A := fun st => Ok (a, st).
Definition bind {A B} (c : Gen A) (k : A -> Gen B) : Gen B :=
  fun st =>
    match c st with
    | Ok (a, st') => k a st'
    | Panic => Panic
    | OutOfFuel => OutOfFuel
    end.
Definition panic {A} : Gen A := fun _ => Panic.
Definition outOfFuel {A} : Gen A := fun _ => OutOfFuel.
Definition get : Gen GenState := fun st => Ok (st, st).
Definition put (st : GenState) : Gen unit := fun _ => Ok (tt, st).

Notation "x <- c1 ;; c2" := (bind c1 (fun x => c2))
  (at level 62, c1 at next level, right associativity).

Fixpoint foldM {A B} (f : B -> A -> Gen B) (l : list A) (b : B) : Gen B :=
  match l with
  | [] => ret b
  | x :: l' => b' <- f b x ;; foldM f l' b'
  end.

(** [l[0]] on a Go slice: out of range on the empty slice. *)
Definition index0 {A} (l : list A) : Gen A :=
  match l with
  | x :: _ => ret x
  | [] => panic
  end.

(** ** The generator *)

Definition inlineSchema (s : Schema) : SchemaOrReference :=
  mkSchemaOrReference (Some s) None.
Definition referenceTo (xref : string) : SchemaOrReference :=
  mkSchemaOrReference None (Some xref).
Definition typedSchema (type format : string) : Schema :=
  mkSchema type format "" "" [] [] None None.

(** The nine name tests of [schemaOrReferenceForField], in source order; each
    overwrites [kindSchema] when the type's name matches. *)
Definition basicSchema (name : string) (kindSchema : option SchemaOrReference)
  : option SchemaOrReference :=
  let kindSchema :=
    if String.eqb name "string"
    then Some (inlineSchema (typedSchema "string" "")) else kindSchema in
  let kindSchema :=
    if String.eqb name "binary"
    then Some (inlineSchema (typedSchema "string" "binary")) else kindSchema in
  let kindSchema :=
    if String.eqb name "bool"
    then Some (inlineSchema (typedSchema "boolean" "")) else kindSchema in
  let kindSchema :=
    if String.eqb name "byte"
    then Some (inlineSchema (typedSchema "string" "byte")) else kindSchema in
  let kindSchema :=
    if String.eqb name "double"
    then Some (inlineSchema (typedSchema "number" "double")) else kindSchema in
  let kindSchema :=
    if String.eqb name "i8"
    then Some (inlineSchema (typedSchema "integer" "int8")) else kindSchema in
  let kindSchema :=
    if String.eqb name "i16"
    then Some (inlineSchema (typedSchema "integer" "int16")) else kindSchema in
  let kindSchema :=
    if String.eqb name "i32"
    then Some (inlineSchema (typedSchema "integer" "int32")) else kindSchema in
  let kindSchema :=
    if String.eqb name "i64"
    then Some (inlineSchema (typedSchema "integer" "int64")) else kindSchema in
  kindSchema.

Definition isWordChar (c : ascii) : bool :=
  (Ascii.leb "0" c && Ascii.leb c "9")
  || (Ascii.leb "A" c && Ascii.leb c "Z")
  || (Ascii.leb "a" c && Ascii.leb c "z")
  || Ascii.eqb c "_".

Definition startsWithWord (s : string) : bool :=
  match s with
  | String c _ => isWordChar c
  | EmptyString => false
  end.

(** [regexp.MustCompile(`:(\w+)`).ReplaceAllString(path, `{$1}`)]: every
    colon followed by a longest non-empty run of word characters becomes
    that run in braces.  [opened] tells that such a run is being copied. *)
Fixpoint replaceColon (opened : bool) (s : string) : string :=
  match s with
  | EmptyString => if opened then "}" else ""
  | String c rest =>
      if opened && isWordChar c then String c (replaceColon true rest)
      else
        ((if opened then "}" else "") ++
         (if Ascii.eqb c ":" && startsWithWord rest
          then String "{" (replaceColon true rest)
          else String c (replaceColon false rest)))%string
  end.

Definition annotationValues (f : FieldDescriptor) (key : string)
  : list string :=
  default [] (fd_Annotations f !! key).

(** The loop variables of the parameter loop of [buildOperation]. *)
Record ParamVars := {
  paramName : string;
  paramIn : string;
  paramDesc : string;
  fieldSchema : option SchemaOrReference;
  required : bool }.

Section Generator.

Context (ov : Overrides) (rt : MapRange).
Context (fileDesc : FileDescriptor) (ast : Thrift).

Definition schemaReferenceForMessage (message : StructDescriptor)
  : Gen string :=
  fun st =>
    let schemaName := sd_Name message in
    let st' :=
      if Contains (requiredSchemas st) schemaName then st
      else {| generatedSchemas := generatedSchemas st;
              requiredSchemas := requiredSchemas st ++ [schemaName];
              doc := doc st |} in
    Ok (("#/components/schemas/" ++ schemaName)%string, st').

(** A struct type that does not resolve returns nil at once; a resolved one
    yields a reference, which the name tests may still overwrite; maps and
    lists wrap the schema of their value type, nil included. *)
Fixpoint schemaOrReferenceForField (fieldType : TypeDescriptor)
  : Gen (option SchemaOrReference) :=
  match fieldType with
  | TStruct _ =>
      match td_GetStructDescriptor fileDesc fieldType with
      | None => ret None
      | Some structDesc =>
          ref <- schemaReferenceForMessage structDesc ;;
          ret (basicSchema (td_GetName fieldType) (Some (referenceTo ref)))
      end
  | TNamed _ => ret (basicSchema (td_GetName fieldType) None)
  | TMap _ value =>
      kindSchema <- schemaOrReferenceForField value ;;
      ret (Some (inlineSchema
                   (mkSchema "object" "" "" "" [] [] None (Some kindSchema))))
  | TList value =>
      kindSchema <- schemaOrReferenceForField value ;;
      ret (Some (inlineSchema
                   (mkSchema "array" "" "" "" [] [] (Some [kindSchema]) None)))
  end.

(** [fieldSchema.Schema.Description = description] followed by the merge of
    the field's property override, on a schema that is set. *)
Definition describeField (field : FieldDescriptor)
    (fs : SchemaOrReference) : SchemaOrReference :=
  match sor_Schema fs with
  | Some s =>
      let s := mkSchema (sc_Type s) (sc_Format s)
                 (filterCommentString ov (fd_Comments field)) (sc_Title s)
                 (sc_Properties s) (sc_Required s) (sc_Items s)
                 (sc_AdditionalProperties s) in
      mkSchemaOrReference
        (Some (MergeStructs_Schema s (ParseFieldOption_Property ov field)))
        (sor_Reference fs)
  | None => fs
  end.

(** One round of the field loop of [getSchemaByOption]; the accumulator is
    the property list and the required list. *)
Definition getSchemaByOption_field (option : string) (allRequired : list string)
    (acc : list NamedSchemaOrReference * list string) (field : FieldDescriptor)
  : Gen (list NamedSchemaOrReference * list string) :=
  match fd_Annotations field !! option with
  | None => ret acc
  | Some values =>
      v0 <- index0 values ;;
      let extName := if String.eqb v0 "" then fd_Name field else v0 in
      let required :=
        if Contains allRequired extName then snd acc ++ [extName]
        else snd acc in
      fieldSchema <- schemaOrReferenceForField (fd_Type field) ;;
      match fieldSchema with
      | None => ret (fst acc, required)
      | Some fs =>
          ret (fst acc ++ [(extName, describeField field fs)], required)
      end
  end.

Definition getSchemaByOption (inputDesc : StructDescriptor) (option : string)
  : Gen Schema :=
  let extSchema := ParseStructOption_Schema ov inputDesc in
  let allRequired :=
    match extSchema with Some e => sc_Required e | None => [] end in
  acc <- foldM (getSchemaByOption_field option allRequired)
               (sd_Fields inputDesc) ([], []) ;;
  let schema := mkSchema "object" "" "" "" (fst acc) [] None None in
  let schema :=
    match extSchema with
    | Some e => MergeStructs_Schema schema e
    | None => schema
    end in
  ret (mkSchema (sc_Type schema) (sc_Format schema) (sc_Description schema)
         (sc_Title schema) (sc_Properties schema) (snd acc) (sc_Items schema)
         (sc_AdditionalProperties schema)).

Definition addSchemaToDocument (schema : NamedSchemaOrReference) : Gen unit :=
  fun st =>
    if Contains (generatedSchemas st) (fst schema) then Ok (tt, st)
    else
      let d := doc st in
      Ok (tt,
          {| generatedSchemas := generatedSchemas st ++ [fst schema];
             requiredSchemas := requiredSchemas st;
             doc := {| d_Openapi := d_Openapi d; d_Info := d_Info d;
                       d_Servers := d_Servers d; d_Paths := d_Paths d;
                       d_Schemas := d_Schemas d ++ [schema];
                       d_Tags := d_Tags d |} |}).

(** One round of the header loop of [getResponseForStruct]. *)
Definition getResponseForStruct_header (headers : list (string * Header))
    (field : FieldDescriptor) : Gen (list (string * Header)) :=
  match annotationValues field ApiHeader with
  | [] => ret headers
  | ext :: _ =>
      if String.eqb ext "" then ret headers
      else
        schema <- schemaOrReferenceForField (fd_Type field) ;;
        ret (headers ++
               [(ext, {| hd_Description :=
                           filterCommentString ov (fd_Comments field);
                         hd_Schema := schema |})])
  end.

Definition hasProperties (s : Schema) : bool :=
  match sc_Properties s with [] => false | _ :: _ => true end.

(** [desc] is dereferenced on entry ([desc.Fields]). *)
Definition getResponseForStruct (desc : option StructDescriptor)
  : Gen (string * list (string * Header) * list NamedMediaType) :=
  match desc with
  | None => panic
  | Some desc =>
      headers <- foldM getResponseForStruct_header (sd_Fields desc) [] ;;
      bodySchema <- getSchemaByOption desc ApiBody ;;
      rawBodySchema <- getSchemaByOption desc ApiRawBody ;;
      let ref := ("#/components/schemas/" ++ sd_Name desc)%string in
      additionalProperties <-
        (if hasProperties bodySchema then
           _ <- addSchemaToDocument (sd_Name desc, inlineSchema bodySchema) ;;
           ret [("application/json",
                 {| mt_Schema := Some (referenceTo ref) |})]
         else ret []) ;;
      additionalProperties <-
        (if hasProperties rawBodySchema then
           _ <- addSchemaToDocument
                  (sd_Name desc, inlineSchema rawBodySchema) ;;
           ret (additionalProperties ++
                  [("application/octet-stream",
                    {| mt_Schema := Some (referenceTo ref) |})])
         else ret additionalProperties) ;;
      ret ("200", headers, additionalProperties)
  end.

(** One of the four location blocks of the parameter loop: the annotation
    [key], when present with a non-empty first value, sets the location, the
    name, the description and the schema, and merges the property override
    into [fieldSchema.Schema], which dereferences [fieldSchema].  Only the
    path block also sets [required]. *)
Definition locationBlock (key location : string) (setsRequired : bool)
    (v : FieldDescriptor) (vars : ParamVars) : Gen ParamVars :=
  match annotationValues v key with
  | [] => ret vars
  | ext :: _ =>
      if String.eqb ext "" then ret vars
      else
        fieldSchema <- schemaOrReferenceForField (fd_Type v) ;;
        fieldSchema <-
          (match annotationValues v OpenapiProperty with
           | [] => ret fieldSchema
           | _ :: _ =>
               match fieldSchema with
               | None => panic
               | Some fs =>
                   match sor_Schema fs with
                   | Some s =>
                       ret (Some (mkSchemaOrReference
                                    (Some (MergeStructs_Schema s
                                             (ParseFieldOption_Property ov v)))
                                    (sor_Reference fs)))
                   | None => ret (Some fs)
                   end
               end
           end) ;;
        ret {| paramName := ext;
               paramIn := location;
               paramDesc := filterCommentString ov (fd_Comments v);
               fieldSchema := fieldSchema;
               required := if setsRequired then true else required vars |}
  end.

(** The loop variables after the four blocks, in source order. *)
Definition fieldLocation (v : FieldDescriptor) : Gen ParamVars :=
  vars <- locationBlock ApiQuery "query" false v
            {| paramName := ""; paramIn := ""; paramDesc := "";
               fieldSchema := None; required := false |} ;;
  vars <- locationBlock ApiPath "path" true v vars ;;
  vars <- locationBlock ApiCookie "cookie" false v vars ;;
  locationBlock ApiHeader "header" false v vars.

(** The parameter built from the loop variables, before the override. *)
Definition generatedParameter (vars : ParamVars) : Parameter_ :=
  {| pa_Name := paramName vars;
     pa_In := paramIn vars;
     pa_Description := paramDesc vars;
     pa_Required := required vars;
     pa_Schema := fieldSchema vars |}.

(** One round of the parameter loop of [buildOperation]. *)
Definition buildOperation_field (parameters : list Parameter_)
    (v : FieldDescriptor) : Gen (list Parameter_) :=
  vars <- fieldLocation v ;;
  let parameter :=
    MergeStructs_Parameter (generatedParameter vars)
      (ParseFieldOption_Parameter ov v) in
  if negb (String.eqb (paramName vars) "")
     && negb (String.eqb (paramIn vars) "")
  then ret (parameters ++ [parameter])
  else ret parameters.

Definition mediaTypeOf (name : string) (s : Schema) : list NamedMediaType :=
  if hasProperties s
  then [(name, {| mt_Schema := Some (inlineSchema s) |})]
  else [].

(** The request body of [buildOperation]: nothing for GET, HEAD and DELETE,
    otherwise the three body buckets that have properties. *)
Definition buildRequestBody (methodName : string)
    (inputDesc : StructDescriptor) : Gen (option RequestBody) :=
  if negb (String.eqb methodName "GET")
     && negb (String.eqb methodName "HEAD")
     && negb (String.eqb methodName "DELETE")
  then
    bodySchema <- getSchemaByOption inputDesc ApiBody ;;
    formSchema <- getSchemaByOption inputDesc ApiForm ;;
    rawBodySchema <- getSchemaByOption inputDesc ApiRawBody ;;
    let additionalProperties :=
      mediaTypeOf "application/json" bodySchema
      ++ mediaTypeOf "multipart/form-data" formSchema
      ++ mediaTypeOf "application/octet-stream" rawBodySchema in
    match additionalProperties with
    | [] => ret None
    | _ :: _ =>
        ret (Some {| rb_Description :=
                       filterCommentString ov (sd_Comments inputDesc);
                     rb_Content := additionalProperties |})
    end
  else ret None.

Definition nonEmptyOrNil {A} (l : list A) : option (list A) :=
  match l with [] => None | _ :: _ => Some l end.

(** [buildOperation].  The thrift getter [inputDesc.GetFields()] is taken to
    dereference its receiver, as [desc.Fields] does for the output struct. *)
Definition buildOperation (methodName description operationID tagName
    path host : string) (inputDesc outputDesc : option StructDescriptor)
  : Gen (Operation * string) :=
  match inputDesc with
  | None => panic
  | Some inputDesc =>
      parameters <- foldM buildOperation_field (sd_Fields inputDesc) [] ;;
      RequestBody <- buildRequestBody methodName inputDesc ;;
      response <- getResponseForStruct outputDesc ;;
      let name := fst (fst response) in
      let header := snd (fst response) in
      let content := snd response in
      match outputDesc with
      | None => panic
      | Some outputDesc =>
          let desc := filterCommentString ov (sd_Comments outputDesc) in
          let desc :=
            if String.eqb desc "" then "Successful response" else desc in
          let headerOrEmpty := nonEmptyOrNil header in
          let contentOrEmpty := nonEmptyOrNil content in
          let responses :=
            match headerOrEmpty, contentOrEmpty with
            | None, None => None
            | _, _ =>
                Some [(name, {| rs_Description := desc;
                                rs_Headers := headerOrEmpty;
                                rs_Content := contentOrEmpty |})]
            end in
          let path := replaceColon false path in
          let servers :=
            if String.eqb host "" then []
            else
              let host :=
                if negb (String.prefix "http://" host)
                   && negb (String.prefix "https://" host)
                then ("http://" ++ host)%string else host in
              [{| srv_URL := host |}] in
          ret ({| op_Tags := [tagName];
                  op_Description := description;
                  op_OperationID := operationID;
                  op_Parameters := parameters;
                  op_Responses := responses;
                  op_RequestBody := RequestBody;
                  op_Servers := servers |}, path)
      end
  end.

(** The [switch] of [addOperationToDocument]: seven verbs have a slot, any
    other method name leaves the path item as it is. *)
Definition setOperation (methodName : string) (op : Operation)
    (item : PathItem) : PathItem :=
  let mk g po pu de pa o h :=
    {| pi_Get := g; pi_Post := po; pi_Put := pu; pi_Delete := de;
       pi_Patch := pa; pi_Options := o; pi_Head := h;
       pi_Servers := pi_Servers item |} in
  let g := pi_Get item in let po := pi_Post item in
  let pu := pi_Put item in let de := pi_Delete item in
  let pa := pi_Patch item in let o := pi_Options item in
  let h := pi_Head item in
  if String.eqb methodName "GET" then mk (Some op) po pu de pa o h
  else if String.eqb methodName "POST" then mk g (Some op) pu de pa o h
  else if String.eqb methodName "PUT" then mk g po (Some op) de pa o h
  else if String.eqb methodName "DELETE" then mk g po pu (Some op) pa o h
  else if String.eqb methodName "PATCH" then mk g po pu de (Some op) o h
  else if String.eqb methodName "OPTIONS" then mk g po pu de pa (Some op) h
  else if String.eqb methodName "HEAD" then mk g po pu de pa o (Some op)
  else item.

(** The first path item named [path], updated in place. *)
Fixpoint updatePathItem (path : string) (f : PathItem -> PathItem)
    (paths : list NamedPathItem) : list NamedPathItem :=
  match paths with
  | [] => []
  | p :: rest =>
      if String.eqb (fst p) path then (fst p, f (snd p)) :: rest
      else p :: updatePathItem path f rest
  end.

Definition hasPath (path : string) (paths : list NamedPathItem) : bool :=
  existsb (fun p => String.eqb (fst p) path) paths.

Definition withPaths (d : Document) (paths : list NamedPathItem) : Document :=
  {| d_Openapi := d_Openapi d; d_Info := d_Info d; d_Servers := d_Servers d;
     d_Paths := paths; d_Schemas := d_Schemas d; d_Tags := d_Tags d |}.

Definition withDoc (st : GenState) (d : Document) : GenState :=
  {| generatedSchemas := generatedSchemas st;
     requiredSchemas := requiredSchemas st;
     doc := d |}.

Definition addOperationToDocument (op : Operation) (path methodName : string)
  : Gen unit :=
  fun st =>
    let d := doc st in
    let paths :=
      if hasPath path (d_Paths d) then d_Paths d
      else d_Paths d ++ [(path, emptyPathItem)] in
    Ok (tt, withDoc st
              (withPaths d (updatePathItem path (setOperation methodName op)
                              paths))).

Definition getStructLikeByName (name : string) : option StructLike :=
  find (fun s => String.eqb (sl_Name s) name) (th_StructLikes ast).

(** The renaming loop of [addSchemasForStructsToDocument] over the options
    header, body, form and raw body: the last one present with a non-empty
    first value names the property. *)
Definition propertyName_option (field : FieldDescriptor) (extName : string)
    (option : string) : Gen string :=
  match fd_Annotations field !! option with
  | None => ret extName
  | Some values =>
      v0 <- index0 values ;;
      ret (if String.eqb v0 "" then extName else v0)
  end.

(** One round of the field loop that builds a component schema. *)
Definition addSchemas_field (properties : list NamedSchemaOrReference)
    (field : FieldDescriptor) : Gen (list NamedSchemaOrReference) :=
  fieldSchema <- schemaOrReferenceForField (fd_Type field) ;;
  match fieldSchema with
  | None => ret properties
  | Some fs =>
      extName <- foldM (propertyName_option field)
                   [ApiHeader; ApiBody; ApiForm; ApiRawBody] (fd_Name field) ;;
      ret (properties ++ [(extName, describeField field fs)])
  end.

(** The part of the loop body of [addSchemasForStructsToDocument] that
    follows the recursive call: emit the schema of [s] when its name is
    required and not yet generated. *)
Definition addSchemaForStruct (s : StructLike) : Gen unit :=
  st <- get ;;
  let schemaName := sl_Name s in
  if negb (Contains (requiredSchemas st) schemaName)
     || Contains (generatedSchemas st) schemaName
  then ret tt
  else
    match GetStructDescriptor fileDesc (sl_Name s) with
    | None => panic
    | Some structDesc =>
        properties <- foldM addSchemas_field (sd_Fields structDesc) [] ;;
        let schema :=
          mkSchema "object" ""
            (filterCommentString ov (sd_Comments structDesc)) ""
            properties [] None None in
        let schema :=
          match ParseStructOption_Schema ov structDesc with
          | Some e => MergeStructs_Schema schema e
          | None => schema
          end in
        addSchemaToDocument (schemaName, inlineSchema schema)
    end.

(** The struct-typed fields of [s], each looked up among the struct-likes
    of the file; a miss is a nil entry. *)
Definition nestedStructLikes (s : StructLike) : list (option StructLike) :=
  map (fun f => getStructLikeByName (pt_Name (pf_Type f)))
    (List.filter (fun f => Category_IsStruct (pt_Category (pf_Type f)))
       (sl_Fields s)).

(** [addSchemasForStructsToDocument]: for every struct, first the same walk
    over its struct-typed fields, then the struct itself.  Each level of the
    recursion that has a struct to visit takes one unit of fuel.  The thrift
    getter [s.GetFields()] is taken to dereference its receiver, so a nil
    entry panics. *)
Fixpoint addSchemasForStructsToDocument (fuel : nat)
    (structs : list (option StructLike)) : Gen unit :=
  match fuel with
  | O =>
      match structs with
      | [] => ret tt
      | _ :: _ => outOfFuel
      end
  | S fuel =>
      (fix loop (structs : list (option StructLike)) : Gen unit :=
         match structs with
         | [] => ret tt
         | None :: _ => panic
         | Some s :: rest =>
             _ <- addSchemasForStructsToDocument fuel (nestedStructLikes s) ;;
             _ <- addSchemaForStruct s ;;
             loop rest
         end) structs
  end.

(** The base URL of a method: its own [api.baseurl], else the service's
    [api.base_domain]. *)
Definition hostOf (s : Service) (f : Function_) : string :=
  let host :=
    match GetAnnotation (fn_Annotations f) ApiBaseURL with
    | h :: _ => h
    | [] => ""
    end in
  if String.eqb host "" then
    match GetAnnotation (sv_Annotations s) ApiBaseDomain with
    | h :: _ => h
    | [] => host
    end
  else host.

(** One round of the loop over a method's verb annotations. *)
Definition addPaths_verb (s : Service) (f : Function_)
    (inputDesc outputDesc : option StructDescriptor)
    (annotationsCount : nat) (entry : string * list string) : Gen nat :=
  let methodName := fst entry in
  let path := snd entry in
  if String.eqb methodName "" then ret annotationsCount
  else
    let comment := filterCommentString ov (fn_ReservedComments f) in
    let operationID := (sv_Name s ++ "_" ++ fn_Name f)%string in
    path0 <- index0 path ;;
    built <- buildOperation methodName comment operationID (sv_Name s)
               path0 (hostOf s f) inputDesc outputDesc ;;
    let op :=
      MergeStructs_Operation (fst built)
        (ParseMethodOption_Operation ov (sv_Name s) (fn_Name f)) in
    _ <- addOperationToDocument op (snd built) methodName ;;
    ret (S annotationsCount).

(** One round of the loop over a service's methods. *)
Definition addPaths_function (s : Service) (annotationsCount : nat)
    (f : Function_) : Gen nat :=
  let rs := GetAnnotations (fn_Annotations f) HttpMethodAnnotations in
  match map_to_list rs with
  | [] => ret annotationsCount
  | entries =>
      let inputDesc :=
        match fn_Arguments f with
        | a :: _ => GetStructDescriptor fileDesc (pt_Name (pf_Type a))
        | [] => None
        end in
      let outputDesc :=
        GetStructDescriptor fileDesc (pt_Name (fn_FunctionType f)) in
      foldM (addPaths_verb s f inputDesc outputDesc)
        (range_order rt (sv_Name s) (fn_Name f) entries) annotationsCount
  end.

Definition withTags (d : Document) (tags : list Tag) : Document :=
  {| d_Openapi := d_Openapi d; d_Info := d_Info d; d_Servers := d_Servers d;
     d_Paths := d_Paths d; d_Schemas := d_Schemas d; d_Tags := tags |}.

(** One round of the loop over the services. *)
Definition addPaths_service (s : Service) : Gen unit :=
  annotationsCount <- foldM (addPaths_function s) (sv_Functions s) 0 ;;
  if Nat.ltb 0 annotationsCount then
    st <- get ;;
    put (withDoc st
           (withTags (doc st)
              (d_Tags (doc st) ++
                 [{| tg_Name := sv_Name s;
                     tg_Description :=
                       filterCommentString ov (sv_ReservedComments s) |}])))
  else ret tt.

Definition addPathsToDocument (services : list Service) : Gen unit :=
  foldM (fun _ s => addPaths_service s) services tt.

(** The draining loop of [BuildDocument]: while names are required, walk all
    struct-likes of the file and then drop the names that were required when
    the pass began.  [fuel] bounds both the passes and the depth of the
    walk. *)
Fixpoint drainRequiredSchemas (fuel passes : nat) : Gen unit :=
  st <- get ;;
  match requiredSchemas st with
  | [] => ret tt
  | _ :: _ =>
      match passes with
      | O => outOfFuel
      | S passes =>
          let count := length (requiredSchemas st) in
          _ <- addSchemasForStructsToDocument fuel
                 (map Some (th_StructLikes ast)) ;;
          st' <- get ;;
          _ <- put {| generatedSchemas := generatedSchemas st';
                      requiredSchemas := drop count (requiredSchemas st');
                      doc := doc st' |} ;;
          drainRequiredSchemas fuel passes
      end
  end.

(** [getDocumentAnnotationInWhichServiceOrStruct] and [getDocumentOption]:
    the first service carrying the document annotation, else the first
    struct carrying it, supplies the document override. *)
Definition getDocumentOption : option Document :=
  match find (fun s => negb (Nat.eqb (length (GetAnnotation (sv_Annotations s)
                                                OpenapiDocument)) 0))
          (th_Services ast) with
  | Some s => ParseServiceOption_Document ov (sv_Name s)
  | None =>
      match find (fun s => negb (Nat.eqb (length (GetAnnotation
                                                    (sl_Annotations s)
                                                    OpenapiDocument)) 0))
              (th_Structs ast) with
      | Some s => ParseStructOption_Document ov (sl_Name s)
      | None => None
      end
  end.

(** "If there is only 1 service, then use it's title for the document, if
    the document is missing it." *)
Definition promoteSingleTag (d : Document) : Document :=
  match d_Tags d with
  | [t] =>
      let info := d_Info d in
      let title :=
        if String.eqb (in_Title info) "" && negb (String.eqb (tg_Name t) "")
        then (tg_Name t ++ " API")%string else in_Title info in
      let description :=
        if String.eqb (in_Description info) "" then tg_Description t
        else in_Description info in
      {| d_Openapi := d_Openapi d;
         d_Info := {| in_Title := title; in_Description := description;
                      in_Version := in_Version info |};
         d_Servers := d_Servers d; d_Paths := d_Paths d;
         d_Schemas := d_Schemas d;
         d_Tags := [{| tg_Name := tg_Name t; tg_Description := "" |}] |}
  | _ => d
  end.

(** The URL of an operation slot that is set and has exactly one server. *)
Definition singleServer (o : option Operation) : option string :=
  match o with
  | Some op =>
      match op_Servers op with
      | [s] => Some (srv_URL s)
      | _ => None
      end
  | None => None
  end.

Definition collectServer (o : option Operation)
    (acc : list string * list string) : list string * list string :=
  match singleServer o with
  | Some url => (AppendUnique (fst acc) url, AppendUnique (snd acc) url)
  | None => acc
  end.

Definition clearServers (o : option Operation) : option Operation :=
  match o with
  | Some op =>
      Some {| op_Tags := op_Tags op; op_Description := op_Description op;
              op_OperationID := op_OperationID op;
              op_Parameters := op_Parameters op;
              op_Responses := op_Responses op;
              op_RequestBody := op_RequestBody op;
              op_Servers := [] |}
  | None => None
  end.

(** One round of the server loop: the get, post, put, delete and patch
    slots are inspected, and cleared when the path has one server. *)
Definition hoistPath (allServers : list string) (p : NamedPathItem)
  : NamedPathItem * list string :=
  let item := snd p in
  let acc := collectServer (pi_Get item) ([], allServers) in
  let acc := collectServer (pi_Post item) acc in
  let acc := collectServer (pi_Put item) acc in
  let acc := collectServer (pi_Delete item) acc in
  let acc := collectServer (pi_Patch item) acc in
  match fst acc with
  | [url] =>
      ((fst p,
        {| pi_Get := clearServers (pi_Get item);
           pi_Post := clearServers (pi_Post item);
           pi_Put := clearServers (pi_Put item);
           pi_Delete := clearServers (pi_Delete item);
           pi_Patch := clearServers (pi_Patch item);
           pi_Options := pi_Options item;
           pi_Head := pi_Head item;
           pi_Servers := [{| srv_URL := url |}] |}), snd acc)
  | _ => (p, snd acc)
  end.

Fixpoint hoistServers (paths : list NamedPathItem) (allServers : list string)
  : list NamedPathItem * list string :=
  match paths with
  | [] => ([], allServers)
  | p :: rest =>
      let r := hoistPath allServers p in
      let r' := hoistServers rest (snd r) in
      (fst r :: fst r', snd r')
  end.

Definition clearPathServers (p : NamedPathItem) : NamedPathItem :=
  let item := snd p in
  (fst p,
   {| pi_Get := pi_Get item; pi_Post := pi_Post item; pi_Put := pi_Put item;
      pi_Delete := pi_Delete item; pi_Patch := pi_Patch item;
      pi_Options := pi_Options item; pi_Head := pi_Head item;
      pi_Servers := [] |}).

(** The server passes of [BuildDocument]: hoist per path, set the document's
    servers, and drop the path-level servers when there is one server. *)
Definition setServers (d : Document) : Document :=
  let r := hoistServers (d_Paths d) [] in
  let allServers := snd r in
  let servers :=
    match allServers with
    | [] => d_Servers d
    | _ :: _ => map (fun url => {| srv_URL := url |}) allServers
    end in
  let paths :=
    match allServers with
    | [_] => map clearPathServers (fst r)
    | _ => fst r
    end in
  {| d_Openapi := d_Openapi d; d_Info := d_Info d; d_Servers := servers;
     d_Paths := paths; d_Schemas := d_Schemas d; d_Tags := d_Tags d |}.

(** [sort.Slice]: the slice ordered by [less].  Go leaves the order of equal
    elements open; here they keep their order. *)
Fixpoint insertBy {A} (less : A -> A -> bool) (x : A) (l : list A) : list A :=
  match l with
  | [] => [x]
  | y :: l' => if less y x then y :: insertBy less x l' else x :: y :: l'
  end.

Definition sort_Slice {A} (less : A -> A -> bool) (l : list A) : list A :=
  foldr (insertBy less) [] l.

(** The comparison the three sorts of [BuildDocument] use:
    [pairs[i].Name < pairs[j].Name]. *)
Definition lessBy {A} (key : A -> string) (a b : A) : bool :=
  String.ltb (key a) (key b).

Definition sortDocument (d : Document) : Document :=
  {| d_Openapi := d_Openapi d; d_Info := d_Info d; d_Servers := d_Servers d;
     d_Paths := sort_Slice (lessBy fst) (d_Paths d);
     d_Schemas := sort_Slice (lessBy fst) (d_Schemas d);
     d_Tags := sort_Slice (lessBy tg_Name) (d_Tags d) |}.

Definition initialDocument : Document :=
  {| d_Openapi := "3.0.3";
     d_Info := {| in_Title := "API"; in_Description := "API description";
                  in_Version := "1.0.0" |};
     d_Servers := []; d_Paths := []; d_Schemas := []; d_Tags := [] |}.

(** [BuildDocument], up to the document that is handed to the YAML
    encoder. *)
Definition BuildDocument (fuel : nat) : Result Document :=
  let d :=
    match getDocumentOption with
    | Some extDocument => MergeStructs_Document initialDocument extDocument
    | None => initialDocument
    end in
  let run :=
    _ <- addPathsToDocument (th_Services ast) ;;
    drainRequiredSchemas fuel fuel in
  match run {| generatedSchemas := []; requiredSchemas := []; doc := d |} with
  | Ok (_, st) => Ok (sortDocument (setServers (promoteSingleTag (doc st))))
  | Panic => Panic
  | OutOfFuel => OutOfFuel
  end.

End Generator.

(** ** Notions used in the statements *)

(** [respects R c]: every successful run of [c] takes a state to one related
    to it by [R]. *)
Definition respects {A} (R : GenState -> GenState -> Prop) (c : Gen A)
  : Prop :=
  forall st a st', c st = Ok (a, st') -> R st st'.

(** The projections of the document that only the assembler writes. *)
Definition pathsAndTags (st : GenState)
  : list NamedPathItem * list Tag :=
  (d_Paths (doc st), d_Tags (doc st)).

(** Everything in the state but the names still required. *)
Definition emitted (st : GenState) : list string * Document :=
  (generatedSchemas st, doc st).

(** The two records of what has been emitted agree, and no name is in them
    twice: the component schemas of the document are, in order, the names in
    [generatedSchemas]. *)
Definition schemaNamesConsistent (st : GenState) : Prop :=
  map fst (d_Schemas (doc st)) = generatedSchemas st
  /\ NoDup (generatedSchemas st).

(** Steps that only add required names. *)
Definition onlyRequired (st st' : GenState) : Prop :=
  emitted st' = emitted st.

(** Steps that may also emit schemas, through [addSchemaToDocument]. *)
Definition onlySchemas (st st' : GenState) : Prop :=
  pathsAndTags st' = pathsAndTags st
  /\ (schemaNamesConsistent st -> schemaNamesConsistent st').

(** Steps that may also attach operations to paths. *)
Definition keepsTags (st st' : GenState) : Prop :=
  d_Tags (doc st') = d_Tags (doc st)
  /\ (schemaNamesConsistent st -> schemaNamesConsistent st').

(** Any step of the generator. *)
Definition keepsConsistent (st st' : GenState) : Prop :=
  schemaNamesConsistent st -> schemaNamesConsistent st'.

(** Ascending by key, element to element. *)
Definition leBy {A} (key : A -> string) (a b : A) : Prop :=
  String.leb (key a) (key b) = true.

(** The five slots the server loop of [BuildDocument] looks at, and all
    seven slots of a path item. *)
Definition hoistedSlots (item : PathItem) : list (option Operation) :=
  [pi_Get item; pi_Post item; pi_Put item; pi_Delete item; pi_Patch item].

Definition allSlots (item : PathItem) : list (option Operation) :=
  hoistedSlots item ++ [pi_Options item; pi_Head item].

(** A path item whose operations sit in the five slots of the server loop,
    at least one of them, each with the one server [url]. *)
Definition fiveVerbItem (url : string) (item : PathItem) : Prop :=
  pi_Options item = None /\ pi_Head item = None
  /\ (exists op, In (Some op) (hoistedSlots item))
  /\ (forall op, In (Some op) (hoistedSlots item) ->
      op_Servers op = [{| srv_URL := url |}]).

(** A path item without servers, on the path and on every operation. *)
Definition noServers (item : PathItem) : Prop :=
  pi_Servers item = []
  /\ (forall op, In (Some op) (allSlots item) -> op_Servers op = []).

(** The two lists of the server loop on one path ([servers] and
    [allServers]) before a slot with the server [url] was seen, and after. *)
Definition serversNotStarted (allServers : list string)
    (acc : list string * list string) : Prop :=
  acc = ([], allServers).
Definition serversStarted (url : string) (allServers : list string)
    (acc : list string * list string) : Prop :=
  acc = ([url], AppendUnique allServers url).

(** Names in lexicographic ascending order: each name is at most the
    next. *)
Definition ascending (names : list string) : Prop :=
  Sorted (fun a b => String.leb a b = true) names.

(** ** The parameter rules in the specification's words *)

(** A location annotation matches a field when it is present and its first
    value is not empty. *)
Definition locationPresent (v : FieldDescriptor) (key : string) : bool :=
  match annotationValues v key with
  | ext :: _ => negb (String.eqb ext "")
  | [] => false
  end.

(** The fixed evaluation order of the location annotations. *)
Definition locationOrder : list (string * string) :=
  [ (ApiQuery, "query"); (ApiPath, "path"); (ApiCookie, "cookie");
    (ApiHeader, "header") ].

(** "Evaluate location annotations in the fixed order (query, path, cookie,
    header); the last match wins": the location and the parameter name the
    last matching annotation gives, if any matches. *)
Definition lastLocation (v : FieldDescriptor) : option (string * string) :=
  fold_left
    (fun acc kl =>
       if locationPresent v (fst kl)
       then Some (snd kl, hd "" (annotationValues v (fst kl)))
       else acc)
    locationOrder None.

(** Whether a parameter override sets the location. *)
Definition overridesIn (ext : option Parameter_) : bool :=
  match ext with
  | Some e => negb (String.eqb (pa_In e) "")
  | None => false
  end.

(** The location a parameter override states, empty when it states none. *)
Definition overrideLocation (ext : option Parameter_) : string :=
  match ext with
  | Some e => pa_In e
  | None => ""
  end.

(** The rule with "present" read to the letter: a field carries a location
    annotation whatever its values are, and the last one carried gives the
    location. *)
Definition annotated (v : FieldDescriptor) (key : string) : bool :=
  match fd_Annotations v !! key with
  | Some _ => true
  | None => false
  end.

Definition lastAnnotated (v : FieldDescriptor) : option string :=
  fold_left
    (fun acc kl => if annotated v (fst kl) then Some (snd kl) else acc)
    locationOrder None.

(** Whether a parameter override sets the requiredness. *)
Definition overridesRequired (ext : option Parameter_) : bool :=
  match ext with
  | Some e => pa_Required e
  | None => false
  end.

(** ** Concrete inputs *)

(** No override annotation parses to anything; comments are kept as they
    are. *)
Definition noOverrides : Overrides :=
  {| ParseFieldOption_Parameter := fun _ => None;
     ParseFieldOption_Property := fun _ => emptySchema;
     ParseStructOption_Schema := fun _ => None;
     ParseMethodOption_Operation :=
       fun _ _ =>
         {| op_Tags := []; op_Description := ""; op_OperationID := "";
            op_Parameters := []; op_Responses := None;
            op_RequestBody := None; op_Servers := [] |};
     ParseServiceOption_Document := fun _ => None;
     ParseStructOption_Document := fun _ => None;
     filterCommentString := fun s => s |}.

(** The runtime walks every map in the order [map_to_list] lists it. *)
Definition listedOrder : MapRange :=
  {| range_order := fun _ _ l => l;
     range_perm := fun _ _ l => Permutation_refl l |}.

(** The runtime walks every map in the opposite order. *)
Definition reversedOrder : MapRange :=
  {| range_order := fun _ _ l => rev l;
     range_perm := fun _ _ l => Permutation_sym (Permutation_rev l) |}.

Definition annotations (l : list (string * list string))
  : gmap string (list string) := list_to_map l.

Definition structType (name : string) : ParserType :=
  {| pt_Name := name; pt_Category := Category_Struct |}.
Definition basicType (name : string) : ParserType :=
  {| pt_Name := name; pt_Category := Category_Basic |}.

(** The end-to-end scenario of the specification: [GET /hello/:name] with a
    query field, a path field and a response struct with one body field. *)
Module Hello.

Definition qField : FieldDescriptor :=
  {| fd_Name := "q"; fd_Type := TNamed "string";
     fd_Annotations := annotations [(ApiQuery, ["q"])];
     fd_Comments := "" |}.

Definition nameField : FieldDescriptor :=
  {| fd_Name := "name"; fd_Type := TNamed "string";
     fd_Annotations := annotations [(ApiPath, ["name"])];
     fd_Comments := "" |}.

Definition HelloReq : StructDescriptor :=
  {| sd_Name := "HelloReq";
     sd_Fields := [qField; nameField];
     sd_Comments := "" |}.

Definition HelloResp : StructDescriptor :=
  {| sd_Name := "HelloResp";
     sd_Fields :=
       [ {| fd_Name := "message"; fd_Type := TNamed "string";
            fd_Annotations := annotations [(ApiBody, ["message"])];
            fd_Comments := "" |} ];
     sd_Comments := "" |}.

Definition fileDesc : FileDescriptor :=
  {| fdesc_Structs := [HelloReq; HelloResp];
     fdesc_Included := [] |}.

Definition structLikes : list StructLike :=
  [ {| sl_Name := "HelloReq";
       sl_Fields := [ {| pf_Name := "q"; pf_Type := basicType "string" |};
                      {| pf_Name := "name"; pf_Type := basicType "string" |} ];
       sl_Annotations := [] |};
    {| sl_Name := "HelloResp";
       sl_Fields :=
         [ {| pf_Name := "message"; pf_Type := basicType "string" |} ];
       sl_Annotations := [] |} ].

Definition ast : Thrift :=
  {| th_Services :=
       [ {| sv_Name := "HelloService";
            sv_Functions :=
              [ {| fn_Name := "Hello";
                   fn_FunctionType := structType "HelloResp";
                   fn_Arguments :=
                     [ {| pf_Name := "req";
                          pf_Type := structType "HelloReq" |} ];
                   fn_Annotations :=
                     [ {| an_Key := ApiGet;
                          an_Values := ["/hello/:name"] |} ];
                   fn_ReservedComments := "" |} ];
            sv_Annotations := [];
            sv_ReservedComments := "" |} ];
     th_Structs := structLikes;
     th_StructLikes := structLikes |}.

End Hello.

(** A request struct whose fields sit in all three body buckets. *)
Definition BodyReq : StructDescriptor :=
  {| sd_Name := "BodyReq";
     sd_Fields :=
       [ {| fd_Name := "body"; fd_Type := TNamed "string";
            fd_Annotations := annotations [(ApiBody, ["body"])];
            fd_Comments := "" |};
         {| fd_Name := "form"; fd_Type := TNamed "string";
            fd_Annotations := annotations [(ApiForm, ["form"])];
            fd_Comments := "" |};
         {| fd_Name := "raw"; fd_Type := TNamed "binary";
            fd_Annotations := annotations [(ApiRawBody, ["raw"])];
            fd_Comments := "" |} ];
     sd_Comments := "" |}.

Definition emptyState : GenState :=
  {| generatedSchemas := []; requiredSchemas := [];
     doc := initialDocument |}.

(** A field that three location annotations match: query, path and
    header. *)
Definition tokenField : FieldDescriptor :=
  {| fd_Name := "token"; fd_Type := TNamed "string";
     fd_Annotations :=
       annotations [(ApiQuery, ["t"]); (ApiPath, ["tok"]);
                    (ApiHeader, ["X-Token"])];
     fd_Comments := "" |}.

(** A field in the path and in a header whose parameter override states
    the query as its location. *)
Definition movedField : FieldDescriptor :=
  {| fd_Name := "token"; fd_Type := TNamed "string";
     fd_Annotations :=
       annotations [(ApiPath, ["tok"]); (ApiHeader, ["X-Token"]);
                    (OpenapiParameter, ["in: query"])];
     fd_Comments := "" |}.

(** The override parser on the one parameter override of [movedField]. *)
Definition locationOverrides : Overrides :=
  {| ParseFieldOption_Parameter :=
       fun v =>
         match fd_Annotations v !! OpenapiParameter with
         | Some (text :: _) =>
             if String.eqb text "in: query"
             then Some {| pa_Name := ""; pa_In := "query";
                          pa_Description := ""; pa_Required := false;
                          pa_Schema := None |}
             else None
         | _ => None
         end;
     ParseFieldOption_Property := ParseFieldOption_Property noOverrides;
     ParseStructOption_Schema := ParseStructOption_Schema noOverrides;
     ParseMethodOption_Operation := ParseMethodOption_Operation noOverrides;
     ParseServiceOption_Document := ParseServiceOption_Document noOverrides;
     ParseStructOption_Document := ParseStructOption_Document noOverrides;
     filterCommentString := filterCommentString noOverrides |}.

(** A field in the query whose header annotation has an empty value. *)
Definition blankHeaderField : FieldDescriptor :=
  {| fd_Name := "q"; fd_Type := TNamed "string";
     fd_Annotations := annotations [(ApiQuery, ["q"]); (ApiHeader, [""])];
     fd_Comments := "" |}.

(** A field in a header whose path annotation has an empty value. *)
Definition blankPathField : FieldDescriptor :=
  {| fd_Name := "id"; fd_Type := TNamed "string";
     fd_Annotations := annotations [(ApiPath, [""]); (ApiHeader, ["X-Id"])];
     fd_Comments := "" |}.

(** A service whose one method carries the any-verb marker only. *)
Module AnyVerb.

Definition ping : Function_ :=
  {| fn_Name := "Ping";
     fn_FunctionType := structType "HelloResp";
     fn_Arguments :=
       [ {| pf_Name := "req"; pf_Type := structType "HelloReq" |} ];
     fn_Annotations := [ {| an_Key := ApiAny; an_Values := ["/ping"] |} ];
     fn_ReservedComments := "" |}.

Definition service : Service :=
  {| sv_Name := "PingService";
     sv_Functions := [ping];
     sv_Annotations := [];
     sv_ReservedComments := "" |}.

End AnyVerb.

Definition emptyStruct (name : string) : StructDescriptor :=
  {| sd_Name := name; sd_Fields := []; sd_Comments := "" |}.

Definition emptyStructLike (name : string) : StructLike :=
  {| sl_Name := name; sl_Fields := []; sl_Annotations := [] |}.

Definition method (name : string) (annotations : list Annotation)
  : Function_ :=
  {| fn_Name := name;
     fn_FunctionType := structType "Resp";
     fn_Arguments := [ {| pf_Name := "req"; pf_Type := structType "Req" |} ];
     fn_Annotations := annotations;
     fn_ReservedComments := "" |}.

(** Two methods with different base URLs; the first is exposed under two
    verbs on two paths, one of which it shares with the second. *)
Module TwoVerbs.

Definition fileDesc : FileDescriptor :=
  {| fdesc_Structs := [emptyStruct "Req"; emptyStruct "Resp"];
     fdesc_Included := [] |}.

Definition structLikes : list StructLike :=
  [emptyStructLike "Req"; emptyStructLike "Resp"].

Definition ast : Thrift :=
  {| th_Services :=
       [ {| sv_Name := "S";
            sv_Functions :=
              [ method "First"
                  [ {| an_Key := ApiGet; an_Values := ["/a"] |};
                    {| an_Key := ApiPost; an_Values := ["/b"] |};
                    {| an_Key := ApiBaseURL; an_Values := ["h1"] |} ];
                method "Second"
                  [ {| an_Key := ApiGet; an_Values := ["/b"] |};
                    {| an_Key := ApiBaseURL; an_Values := ["h2"] |} ] ];
            sv_Annotations := [];
            sv_ReservedComments := "" |} ];
     th_Structs := structLikes;
     th_StructLikes := structLikes |}.

End TwoVerbs.

(** Three operations on two paths, all with the service's base domain; one
    of them is a HEAD operation. *)
Module OneServer.

Definition fileDesc : FileDescriptor := TwoVerbs.fileDesc.

Definition ast : Thrift :=
  {| th_Services :=
       [ {| sv_Name := "S";
            sv_Functions :=
              [ method "List"
                  [ {| an_Key := ApiGet; an_Values := ["/a"] |} ];
                method "Probe"
                  [ {| an_Key := ApiHEAD; an_Values := ["/a"] |} ];
                method "Other"
                  [ {| an_Key := ApiGet; an_Values := ["/b"] |} ] ];
            sv_Annotations :=
              [ {| an_Key := ApiBaseDomain;
                   an_Values := ["api.example.com"] |} ];
            sv_ReservedComments := "" |} ];
     th_Structs := TwoVerbs.structLikes;
     th_StructLikes := TwoVerbs.structLikes |}.

End OneServer.

(** A field, annotated for the bucket or location [location], whose struct
    type the registry does not resolve. *)
Module Unresolved.

Definition filterField (location : string) : FieldDescriptor :=
  {| fd_Name := "filter"; fd_Type := TStruct "Missing";
     fd_Annotations :=
       annotations [(location, ["filter"]);
                    (OpenapiProperty, ["{title: 'Filter'}"])];
     fd_Comments := "" |}.

Definition Req (location : string) : StructDescriptor :=
  {| sd_Name := "Req"; sd_Fields := [filterField location];
     sd_Comments := "" |}.

Definition fileDesc (location : string) : FileDescriptor :=
  {| fdesc_Structs := [Req location; emptyStruct "Resp"];
     fdesc_Included := [] |}.

Definition structLikes : list StructLike :=
  [ {| sl_Name := "Req";
       sl_Fields :=
         [ {| pf_Name := "filter"; pf_Type := structType "Missing" |} ];
       sl_Annotations := [] |};
    emptyStructLike "Resp" ].

Definition ast (verb : string) : Thrift :=
  {| th_Services :=
       [ {| sv_Name := "S";
            sv_Functions :=
              [ method "Search"
                  [ {| an_Key := verb; an_Values := ["/search"] |} ] ];
            sv_Annotations := [];
            sv_ReservedComments := "" |} ];
     th_Structs := structLikes;
     th_StructLikes := structLikes |}.

End Unresolved.

(** A response that holds a struct which refers to itself. *)
Module SelfReference.

Definition Node : StructDescriptor :=
  {| sd_Name := "Node";
     sd_Fields :=
       [ {| fd_Name := "next"; fd_Type := TStruct "Node";
            fd_Annotations := ∅; fd_Comments := "" |} ];
     sd_Comments := "" |}.

Definition Resp : StructDescriptor :=
  {| sd_Name := "Resp";
     sd_Fields :=
       [ {| fd_Name := "node"; fd_Type := TStruct "Node";
            fd_Annotations := annotations [(ApiBody, ["node"])];
            fd_Comments := "" |} ];
     sd_Comments := "" |}.

Definition fileDesc : FileDescriptor :=
  {| fdesc_Structs := [emptyStruct "Req"; Resp; Node];
     fdesc_Included := [] |}.

Definition NodeLike : StructLike :=
  {| sl_Name := "Node";
     sl_Fields := [ {| pf_Name := "next"; pf_Type := structType "Node" |} ];
     sl_Annotations := [] |}.

Definition RespLike : StructLike :=
  {| sl_Name := "Resp";
     sl_Fields := [ {| pf_Name := "node"; pf_Type := structType "Node" |} ];
     sl_Annotations := [] |}.

Definition structLikes : list StructLike :=
  [emptyStructLike "Req"; RespLike; NodeLike].

Definition ast : Thrift :=
  {| th_Services :=
       [ {| sv_Name := "S";
            sv_Functions :=
              [ method "Head"
                  [ {| an_Key := ApiGet; an_Values := ["/head"] |} ] ];
            sv_Annotations := [];
            sv_ReservedComments := "" |} ];
     th_Structs := structLikes;
     th_StructLikes := structLikes |}.

End SelfReference.

(** ** Notions used for the path template *)

(** Whether a colon occurs in a string. *)
Fixpoint containsColon (s : string) : bool :=
  match s with
  | EmptyString => false
  | String c rest => Ascii.eqb c ":" || containsColon rest
  end.

(** Whether a string consists of word characters only. *)
Fixpoint allWordChars (s : string) : bool :=
  match s with
  | EmptyString => true
  | String c rest => isWordChar c && allWordChars rest
  end.

(** ** Notions used for path items *)

(** The path item registered under a path: the first one with that name,
    as the search loop of [addOperationToDocument] finds it. *)
Definition lookupPath (path : string) (paths : list NamedPathItem)
  : option PathItem :=
  option_map snd (find (fun p => String.eqb (fst p) path) paths).

(** The verbs that have a slot in a path item. *)
Definition slotVerbs : list string :=
  ["GET"; "POST"; "PUT"; "DELETE"; "PATCH"; "OPTIONS"; "HEAD"].

(** The slot of a path item a verb names. *)
Definition slotOf (methodName : string) (item : PathItem)
  : option Operation :=
  if String.eqb methodName "GET" then pi_Get item
  else if String.eqb methodName "POST" then pi_Post item
  else if String.eqb methodName "PUT" then pi_Put item
  else if String.eqb methodName "DELETE" then pi_Delete item
  else if String.eqb methodName "PATCH" then pi_Patch item
  else if String.eqb methodName "OPTIONS" then pi_Options item
  else if String.eqb methodName "HEAD" then pi_Head item
  else None.

(** ** Notions used for what a run keeps *)

(** The parts of the document no step of the generator writes before the
    final passes. *)
Definition headerOf (d : Document) : string * Info * list Server :=
  (d_Openapi d, d_Info d, d_Servers d).

(** The component schemas and the emitted names grow at the end, together. *)
Definition schemasAppended (st st' : GenState) : Prop :=
  exists extra,
    d_Schemas (doc st') = d_Schemas (doc st) ++ extra
    /\ generatedSchemas st' = generatedSchemas st ++ map fst extra.

(** Steps that leave the document alone but for component schemas added at
    the end. *)
Definition appendsSchemas (st st' : GenState) : Prop :=
  headerOf (doc st') = headerOf (doc st)
  /\ pathsAndTags st' = pathsAndTags st
  /\ schemasAppended st st'.

(** Steps of the assembler: they may also attach operations and add tags,
    and keep the path names distinct. *)
Definition assembles (st st' : GenState) : Prop :=
  headerOf (doc st') = headerOf (doc st)
  /\ schemasAppended st st'
  /\ (NoDup (map fst (d_Paths (doc st))) ->
      NoDup (map fst (d_Paths (doc st')))).

(** The state with its required names cut down to those after the first
    [count], as at the end of a pass of the draining loop. *)
Definition dropRequired (count : nat) (st : GenState) : GenState :=
  {| generatedSchemas := generatedSchemas st;
     requiredSchemas := drop count (requiredSchemas st);
     doc := doc st |}.

(** ** Notions used for annotations and overrides *)

(** The annotation keys that expose a method under a verb. *)
Definition verbKeys : list string := map fst HttpMethodAnnotations.

(** The properties a struct's schema override supplies, if any. *)
Definition overrideProperties (ov : Overrides) (desc : StructDescriptor)
  : list NamedSchemaOrReference :=
  match ParseStructOption_Schema ov desc with
  | Some e => sc_Properties e
  | None => []
  end.

(** The required names a struct's schema override lists, if any. *)
Definition overrideRequired (ov : Overrides) (desc : StructDescriptor)
  : list string :=
  match ParseStructOption_Schema ov desc with
  | Some e => sc_Required e
  | None => []
  end.

(** ** Notions used for termination *)

(** A computation that never reports exhausted fuel. *)
Definition fuelFree {A} (c : Gen A) : Prop :=
  forall st, c st <> OutOfFuel.

(** A rank for the struct-likes of a file that goes down along every
    struct-typed field: there is one exactly when no struct-like reaches
    itself through such fields. *)
Definition ranked (ast : Thrift) (rank : StructLike -> nat) : Prop :=
  forall s s',
    In s (th_StructLikes ast) ->
    In (Some s') (nestedStructLikes ast s) ->
    rank s' < rank s.

(** The number of struct-likes of the file whose name has not been
    emitted. *)
Definition pending (ast : Thrift) (st : GenState) : nat :=
  length (List.filter
            (fun s => negb (Contains (generatedSchemas st) (sl_Name s)))
            (th_StructLikes ast)).

(** A step that either changes nothing or emits the schema of one more
    struct-like. *)
Definition progresses (ast : Thrift) (st st' : GenState) : Prop :=
  st' = st \/ pending ast st' < pending ast st.

(** Structs nested two deep, for the walk over the struct-likes. *)
Module Nested.

Definition Inner : StructDescriptor :=
  {| sd_Name := "Inner";
     sd_Fields :=
       [ {| fd_Name := "x"; fd_Type := TNamed "string";
            fd_Annotations := ∅; fd_Comments := "" |} ];
     sd_Comments := "" |}.

Definition Outer : StructDescriptor :=
  {| sd_Name := "Outer";
     sd_Fields :=
       [ {| fd_Name := "inner"; fd_Type := TStruct "Inner";
            fd_Annotations := ∅; fd_Comments := "" |} ];
     sd_Comments := "" |}.

Definition Resp : StructDescriptor :=
  {| sd_Name := "Resp";
     sd_Fields :=
       [ {| fd_Name := "outer"; fd_Type := TList (TStruct "Outer");
            fd_Annotations := annotations [(ApiBody, ["outer"])];
            fd_Comments := "" |} ];
     sd_Comments := "" |}.

Definition fileDesc : FileDescriptor :=
  {| fdesc_Structs := [emptyStruct "Req"; Resp; Outer; Inner];
     fdesc_Included := [] |}.

Definition OuterLike : StructLike :=
  {| sl_Name := "Outer";
     sl_Fields := [ {| pf_Name := "inner"; pf_Type := structType "Inner" |} ];
     sl_Annotations := [] |}.

Definition InnerLike : StructLike :=
  {| sl_Name := "Inner";
     sl_Fields := [ {| pf_Name := "x"; pf_Type := basicType "string" |} ];
     sl_Annotations := [] |}.

Definition RespLike : StructLike :=
  {| sl_Name := "Resp";
     sl_Fields :=
       [ {| pf_Name := "outer";
            pf_Type := {| pt_Name := "list";
                          pt_Category := Category_Container |} |} ];
     sl_Annotations := [] |}.

Definition structLikes : list StructLike :=
  [emptyStructLike "Req"; RespLike; OuterLike; InnerLike].

Definition ast : Thrift :=
  {| th_Services :=
       [ {| sv_Name := "S";
            sv_Functions :=
              [ method "Get"
                  [ {| an_Key := ApiGet; an_Values := ["/outer"] |} ] ];
            sv_Annotations := [];
            sv_ReservedComments := "" |} ];
     th_Structs := structLikes;
     th_StructLikes := structLikes |}.

(** [Outer] above [Inner]; the others hold no struct-typed field. *)
Definition rank (s : StructLike) : nat :=
  if String.eqb (sl_Name s) "Outer" then 1 else 0.

End Nested.

(** ** Notions used for tags *)

(** A method that carries at least one verb annotation. *)
Definition exposedFunction (f : Function_) : bool :=
  existsb (fun a => Contains verbKeys (an_Key a)) (fn_Annotations f).

(** A service at least one of whose methods carries a verb annotation. *)
Definition exposed (s : Service) : bool :=
  existsb exposedFunction (sv_Functions s).

(** The tag the assembler makes for a service. *)
Definition tagOf (ov : Overrides) (s : Service) : Tag :=
  {| tg_Name := sv_Name s;
     tg_Description := filterCommentString ov (sv_ReservedComments s) |}.

(** What the title promotion leaves of the tags: a sole tag loses its
    description. *)
Definition clearSingle (tags : list Tag) : list Tag :=
  match tags with
  | [t] => [{| tg_Name := tg_Name t; tg_Description := "" |}]
  | _ => tags
  end.

(** ** Notions used for the origin of component schemas *)

(** A component schema as the generator makes them: written out in place
    under the name of a struct the registry knows. *)
Definition knownSchema (fileDesc : FileDescriptor)
    (p : NamedSchemaOrReference) : Prop :=
  (exists desc, GetStructDescriptor fileDesc (fst p) = Some desc)
  /\ exists s, snd p = inlineSchema s.

(** Steps that add such component schemas only. *)
Definition keepsKnown (fileDesc : FileDescriptor) (st st' : GenState)
  : Prop :=
  Forall (knownSchema fileDesc) (d_Schemas (doc st)) ->
  Forall (knownSchema fileDesc) (d_Schemas (doc st')).

(** A document with one path whose GET operation declares one server. *)
Module Served.

Definition url : string := "http://api.example.com".

Definition operation : Operation :=
  {| op_Tags := ["S"]; op_Description := ""; op_OperationID := "S_Get";
     op_Parameters := []; op_Responses := None; op_RequestBody := None;
     op_Servers := [{| srv_URL := url |}] |}.

Definition item : PathItem :=
  {| pi_Get := Some operation; pi_Post := None; pi_Put := None;
     pi_Delete := None; pi_Patch := None; pi_Options := None;
     pi_Head := None; pi_Servers := [] |}.

Definition document : Document :=
  {| d_Openapi := d_Openapi initialDocument;
     d_Info := d_Info initialDocument;
     d_Servers := []; d_Paths := [("/a", item)]; d_Schemas := [];
     d_Tags := [] |}.

End Served.

(** ** Notions used for references *)

(** The type at the bottom of lists and maps: the one whose schema they
    wrap. *)
Fixpoint valueType (t : TypeDescriptor) : TypeDescriptor :=
  match t with
  | TList value => valueType value
  | TMap _ value => valueType value
  | _ => t
  end.

(** ** Notions used for fields without a schema *)

(** Two outcomes of the field loop of a body bucket that differ at most in
    the required names: both are the same failure, or both return, with the
    same properties and in the same state. *)
Definition agreeOnProperties
    (r r' : Result ((list NamedSchemaOrReference * list string) * GenState))
  : Prop :=
  match r, r' with
  | Ok (acc, st), Ok (acc', st') => fst acc = fst acc' /\ st = st'
  | Panic, Panic => True
  | OutOfFuel, OutOfFuel => True
  | _, _ => False
  end.

(** ** Notions used for servers *)

(** A host that already states its scheme. *)
Definition hasScheme (host : string) : bool :=
  String.prefix "http://" host || String.prefix "https://" host.

(** ** Reasoning in the generator monad *)

Lemma bind_Ok {A B} (c : Gen A) (k : A -> Gen B) st r :
  bind c k st = Ok r ->
  exists a st1, c st = Ok (a, st1) /\ k a st1 = Ok r.
Proof.
  unfold bind. destruct (c st) as [[a st1]| |]; try discriminate.
  intros H. exists a, st1. split; [reflexivity | exact H].
Qed.

Lemma ret_Ok {A} (a : A) st r : ret a st = Ok r -> r = (a, st).
Proof. unfold ret. congruence. Qed.

Lemma bind_OutOfFuel {A B} (c : Gen A) (k : A -> Gen B) st :
  c st = OutOfFuel -> bind c k st = OutOfFuel.
Proof. unfold bind. intros ->. reflexivity. Qed.

Lemma bind_Panic {A B} (c : Gen A) (k : A -> Gen B) st :
  c st = Panic -> bind c k st = Panic.
Proof. unfold bind. intros ->. reflexivity. Qed.

(** Split a successful [bind] in hypothesis [H]. *)
Ltac bind_inv H :=
  let a := fresh "a" in
  let st := fresh "st" in
  let H1 := fresh H in
  apply bind_Ok in H; destruct H as (a & st & H1 & H).

Ltac ret_inv H := apply ret_Ok in H; inversion H; subst; clear H.

(** ** Request bodies *)

Lemma buildRequestBody_bodyless ov fileDesc methodName inputDesc st :
  methodName = "GET" \/ methodName = "HEAD" \/ methodName = "DELETE" ->
  buildRequestBody ov fileDesc methodName inputDesc st = Ok (None, st).
Proof.
  intros [-> | [-> | ->]]; reflexivity.
Qed.

(** C2. For a method exposed under GET, HEAD or DELETE, the operation that
    [buildOperation] generates has no request body, whatever annotations the
    fields of the input struct carry. *)
Theorem buildOperation_no_request_body
    ov fileDesc methodName description operationID tagName path host
    inputDesc outputDesc st op path' st' :
  methodName = "GET" \/ methodName = "HEAD" \/ methodName = "DELETE" ->
  buildOperation ov fileDesc methodName description operationID tagName path
    host inputDesc outputDesc st = Ok ((op, path'), st') ->
  op_RequestBody op = None.
Proof.
  intros Hverb H. unfold buildOperation in H.
  destruct inputDesc as [inputDesc|]; [|discriminate].
  bind_inv H. bind_inv H.
  rewrite (buildRequestBody_bodyless _ _ _ _ _ Hverb) in H1.
  inversion H1; subst; clear H1.
  bind_inv H.
  destruct outputDesc as [outputDesc|]; [|discriminate].
  ret_inv H. reflexivity.
Qed.

Lemma buildOperation_no_request_body_witness :
  exists op path' st',
    buildOperation noOverrides Hello.fileDesc "DELETE" "" "S_m" "S" "/body" ""
      (Some BodyReq) (Some Hello.HelloResp) emptyState
    = Ok ((op, path'), st')
    /\ op_RequestBody op = None.
Proof.
  eexists _, _, _. split.
  - vm_compute. reflexivity.
  - eapply (buildOperation_no_request_body noOverrides Hello.fileDesc
              "DELETE" "" "S_m" "S" "/body" "" (Some BodyReq)
              (Some Hello.HelloResp) emptyState).
    + right. right. reflexivity.
    + vm_compute. reflexivity.
Defined.

(** ** Parameters *)

Lemma locationPresent_hd v key :
  locationPresent v key = true -> hd "" (annotationValues v key) <> "".
Proof.
  unfold locationPresent. destruct (annotationValues v key) as [|ext rest].
  - discriminate.
  - simpl. intros H ->. discriminate.
Qed.

Lemma locationBlock_Ok ov fileDesc key loc sr v vars st vars' st' :
  locationBlock ov fileDesc key loc sr v vars st = Ok (vars', st') ->
  if locationPresent v key
  then paramIn vars' = loc
       /\ paramName vars' = hd "" (annotationValues v key)
       /\ required vars' = (if sr then true else required vars)
  else vars' = vars /\ st' = st.
Proof.
  unfold locationBlock, locationPresent.
  destruct (annotationValues v key) as [|ext rest]; simpl.
  - intros H. ret_inv H. split; reflexivity.
  - destruct (String.eqb ext ""); simpl; intros H.
    + ret_inv H. split; reflexivity.
    + bind_inv H. bind_inv H. ret_inv H. simpl. repeat split.
Qed.

(** The loop variables after the four blocks. *)
Lemma fieldLocation_Ok ov fileDesc v st vars st' :
  fieldLocation ov fileDesc v st = Ok (vars, st') ->
  match lastLocation v with
  | Some (loc, name) =>
      paramIn vars = loc /\ paramName vars = name
      /\ loc <> "" /\ name <> ""
  | None => paramIn vars = "" /\ paramName vars = ""
  end
  /\ required vars = locationPresent v ApiPath.
Proof.
  unfold fieldLocation. intros H.
  bind_inv H. bind_inv H. bind_inv H.
  apply locationBlock_Ok in H0, H1, H2, H.
  unfold lastLocation, locationOrder. simpl.
  pose proof (locationPresent_hd v ApiQuery) as Nq.
  pose proof (locationPresent_hd v ApiPath) as Np.
  pose proof (locationPresent_hd v ApiCookie) as Nc.
  pose proof (locationPresent_hd v ApiHeader) as Nh.
  destruct (locationPresent v ApiQuery), (locationPresent v ApiPath),
    (locationPresent v ApiCookie), (locationPresent v ApiHeader);
    repeat match goal with
      | H : _ /\ _ |- _ => destruct H
      end; subst; simpl in *;
    repeat split; try congruence; auto; try discriminate.
Qed.

Lemma buildOperation_field_Ok ov fileDesc params v st params' st' :
  buildOperation_field ov fileDesc params v st = Ok (params', st') ->
  exists vars,
    fieldLocation ov fileDesc v st = Ok (vars, st')
    /\ match lastLocation v with
       | None => params' = params
       | Some _ =>
           params' = params ++
             [MergeStructs_Parameter (generatedParameter vars)
                (ParseFieldOption_Parameter ov v)]
       end.
Proof.
  unfold buildOperation_field. intros H. bind_inv H.
  exists a. pose proof (fieldLocation_Ok _ _ _ _ _ _ H0) as [Hloc _].
  destruct (lastLocation v) as [[loc name]|].
  - destruct Hloc as (Hin & Hname & Hl & Hn).
    rewrite Hin, Hname in H.
    destruct (String.eqb_spec name ""); [contradiction|].
    destruct (String.eqb_spec loc ""); [contradiction|].
    simpl in H. ret_inv H. split; [exact H0 | reflexivity].
  - destruct Hloc as [Hin Hname]. rewrite Hin, Hname in H. simpl in H.
    ret_inv H. split; [exact H0 | reflexivity].
Qed.

(** The parameter loop fails only on a nil schema under a property
    override: without that annotation every round returns. *)
Lemma schemaOrReferenceForField_total fileDesc t :
  forall st, exists r st',
    schemaOrReferenceForField fileDesc t st = Ok (r, st').
Proof.
  induction t as [n|n|t IH|k _ t IH]; simpl; intros st.
  - eexists _, _. reflexivity.
  - destruct (td_GetStructDescriptor fileDesc (TStruct n));
      eexists _, _; reflexivity.
  - destruct (IH st) as (r & st' & E). unfold bind. rewrite E.
    eexists _, _. reflexivity.
  - destruct (IH st) as (r & st' & E). unfold bind. rewrite E.
    eexists _, _. reflexivity.
Qed.

Lemma locationBlock_total ov fileDesc key loc sr v vars st :
  annotationValues v OpenapiProperty = [] ->
  exists vars' st',
    locationBlock ov fileDesc key loc sr v vars st = Ok (vars', st').
Proof.
  intros Hp. unfold locationBlock. rewrite Hp.
  destruct (annotationValues v key) as [|ext rest];
    [eexists _, _; reflexivity|].
  destruct (String.eqb ext ""); [eexists _, _; reflexivity|].
  destruct (schemaOrReferenceForField_total fileDesc (fd_Type v) st)
    as (r & st' & E).
  unfold bind. rewrite E. eexists _, _. reflexivity.
Qed.

(** X21. A field without a property override never stops the parameter
    loop: whatever its type and its location annotations, the round of the
    loop for it returns. *)
Lemma buildOperation_field_total ov fileDesc params v st :
  annotationValues v OpenapiProperty = [] ->
  exists params' st',
    buildOperation_field ov fileDesc params v st = Ok (params', st').
Proof.
  intros Hp. unfold buildOperation_field, fieldLocation.
  destruct (locationBlock_total ov fileDesc ApiQuery "query" false v
              {| paramName := ""; paramIn := ""; paramDesc := "";
                 fieldSchema := None; required := false |} st Hp)
    as (v1 & st1 & E1).
  destruct (locationBlock_total ov fileDesc ApiPath "path" true v v1 st1 Hp)
    as (v2 & st2 & E2).
  destruct (locationBlock_total ov fileDesc ApiCookie "cookie" false v v2
              st2 Hp) as (v3 & st3 & E3).
  destruct (locationBlock_total ov fileDesc ApiHeader "header" false v v3
              st3 Hp) as (v4 & st4 & E4).
  unfold bind. rewrite E1, E2, E3, E4.
  destruct (_ && _); eexists _, _; reflexivity.
Qed.

Lemma MergeStructs_Parameter_location generated ext :
  pa_In (MergeStructs_Parameter generated ext)
  = (if overridesIn ext then overrideLocation ext else pa_In generated).
Proof.
  destruct ext as [e|]; simpl; [|reflexivity].
  unfold mergeString. destruct (String.eqb (pa_In e) ""); reflexivity.
Qed.

(** C3, as amended. An input field contributes at most one parameter.  The
    location annotations are evaluated in the order query, path, cookie,
    header; one whose first value is empty is passed over, and the last of
    the others wins: the parameter generated for the field has its location
    and its name.  The emitted parameter has that location too, unless the
    field's parameter override states a location, which then is the emitted
    one. *)
Theorem parameter_location_last_wins ov fileDesc params v st params' st' :
  buildOperation_field ov fileDesc params v st = Ok (params', st') ->
  length params' <= S (length params)
  /\ match lastLocation v with
     | None => params' = params
     | Some (loc, name) =>
         exists generated,
           params' = params ++
             [MergeStructs_Parameter generated
                (ParseFieldOption_Parameter ov v)]
           /\ pa_In generated = loc
           /\ pa_Name generated = name
           /\ pa_In (MergeStructs_Parameter generated
                       (ParseFieldOption_Parameter ov v))
              = (if overridesIn (ParseFieldOption_Parameter ov v)
                 then overrideLocation (ParseFieldOption_Parameter ov v)
                 else loc)
     end.
Proof.
  intros H. apply buildOperation_field_Ok in H.
  destruct H as (vars & Hfl & Hparams).
  apply fieldLocation_Ok in Hfl. destruct Hfl as [Hloc _].
  destruct (lastLocation v) as [[loc name]|].
  - destruct Hloc as (Hin & Hname & _ & _). subst params'. split.
    + rewrite length_app. simpl. lia.
    + exists (generatedParameter vars). repeat split; auto.
      rewrite <- Hin. apply MergeStructs_Parameter_location.
  - subst params'. split; [lia | reflexivity].
Qed.

(** [lastLocation], case by case: header before cookie before path before
    query. *)
Lemma lastLocation_cases v :
  lastLocation v =
    if locationPresent v ApiHeader
    then Some ("header", hd "" (annotationValues v ApiHeader))
    else if locationPresent v ApiCookie
    then Some ("cookie", hd "" (annotationValues v ApiCookie))
    else if locationPresent v ApiPath
    then Some ("path", hd "" (annotationValues v ApiPath))
    else if locationPresent v ApiQuery
    then Some ("query", hd "" (annotationValues v ApiQuery))
    else None.
Proof.
  unfold lastLocation, locationOrder. simpl.
  destruct (locationPresent v ApiQuery), (locationPresent v ApiPath),
    (locationPresent v ApiCookie), (locationPresent v ApiHeader);
    reflexivity.
Qed.

Lemma MergeStructs_Parameter_required generated ext :
  pa_Required (MergeStructs_Parameter generated ext)
  = pa_Required generated || overridesRequired ext.
Proof.
  destruct ext as [e|]; simpl.
  - unfold mergeBool. destruct (pa_Required e), (pa_Required generated);
      reflexivity.
  - rewrite orb_false_r. reflexivity.
Qed.






(** C10, as amended. A field whose path annotation and whose cookie or
    header annotation have a non-empty first value yields one parameter, and
    that parameter is required, generated and emitted: the flag the path
    block sets is not reset by the later blocks.  The parameter is generated
    in the later location (header if it matches, else cookie) and emitted
    there too, unless the field's parameter override states a location,
    which then is the emitted one. *)
Theorem path_flag_survives_later_location ov fileDesc params v st params' st' :
  locationPresent v ApiPath = true ->
  locationPresent v ApiCookie = true \/ locationPresent v ApiHeader = true ->
  buildOperation_field ov fileDesc params v st = Ok (params', st') ->
  exists generated,
    params' = params ++
      [MergeStructs_Parameter generated (ParseFieldOption_Parameter ov v)]
    /\ pa_In generated
       = (if locationPresent v ApiHeader then "header" else "cookie")
    /\ pa_Required generated = true
    /\ pa_Required (MergeStructs_Parameter generated
                      (ParseFieldOption_Parameter ov v)) = true
    /\ pa_In (MergeStructs_Parameter generated
                (ParseFieldOption_Parameter ov v))
       = (if overridesIn (ParseFieldOption_Parameter ov v)
          then overrideLocation (ParseFieldOption_Parameter ov v)
          else if locationPresent v ApiHeader then "header" else "cookie").
Proof.
  intros Hpath Hlater H.
  apply buildOperation_field_Ok in H. destruct H as (vars & Hfl & Hps).
  apply fieldLocation_Ok in Hfl. destruct Hfl as [Hloc Hreq].
  rewrite lastLocation_cases in Hloc, Hps.
  assert (Hin : paramIn vars
                = (if locationPresent v ApiHeader then "header" else "cookie")).
  { destruct (locationPresent v ApiHeader).
    - apply Hloc.
    - destruct Hlater as [Hc | Hh]; [|discriminate].
      rewrite Hc in Hloc. apply Hloc. }
  assert (Hps' : params' = params ++
            [MergeStructs_Parameter (generatedParameter vars)
               (ParseFieldOption_Parameter ov v)]).
  { destruct (locationPresent v ApiHeader); [exact Hps|].
    destruct Hlater as [Hc | Hh]; [|discriminate].
    rewrite Hc in Hps. exact Hps. }
  exists (generatedParameter vars).
  rewrite MergeStructs_Parameter_required. simpl. rewrite Hreq, Hpath.
  repeat split; auto.
  rewrite MergeStructs_Parameter_location. simpl. rewrite Hin. reflexivity.
Qed.

Lemma parameter_location_last_wins_witness :
  exists params' st',
    buildOperation_field noOverrides Hello.fileDesc [] tokenField emptyState
    = Ok (params', st')
    /\ map pa_In params' = ["header"]
    /\ length params' <= 1.
Proof.
  eexists _, _. split; [vm_compute; reflexivity|].
  split; [reflexivity|].
  eapply (parameter_location_last_wins noOverrides Hello.fileDesc []
            tokenField emptyState).
  vm_compute. reflexivity.
Defined.


Lemma path_flag_survives_later_location_witness :
  locationPresent tokenField ApiPath = true
  /\ locationPresent tokenField ApiHeader = true
  /\ exists params' st' generated,
       buildOperation_field noOverrides Hello.fileDesc [] tokenField
         emptyState = Ok (params', st')
       /\ params' = [MergeStructs_Parameter generated None]
       /\ pa_In generated = "header"
       /\ pa_Required generated = true.
Proof.
  split; [vm_compute; reflexivity|]. split; [vm_compute; reflexivity|].
  eexists _, _.
  destruct (path_flag_survives_later_location noOverrides Hello.fileDesc []
              tokenField emptyState _ _
              ltac:(vm_compute; reflexivity)
              ltac:(right; vm_compute; reflexivity)
              ltac:(vm_compute; reflexivity))
    as (g & Hps & Hin & Hreq & _).
  exists g. split; [vm_compute; reflexivity|].
  split; [exact Hps|]. split; [exact Hin | exact Hreq].
Defined.

(** Against C3 as stated.  The last location annotation a field carries
    does not always give the emitted location: on [movedField] the last one
    is the header annotation and the parameter is emitted in the query,
    where its override puts it; on [blankHeaderField] the last one is the
    header annotation too, its value is empty, and the parameter is emitted
    in the query, by the annotation before it. *)
Lemma last_annotation_does_not_always_win :
  (lastAnnotated movedField = Some "header"
   /\ exists params' st',
        buildOperation_field locationOverrides Hello.fileDesc [] movedField
          emptyState = Ok (params', st')
        /\ map pa_In params' = ["query"])
  /\ (lastAnnotated blankHeaderField = Some "header"
      /\ exists params' st',
           buildOperation_field noOverrides Hello.fileDesc []
             blankHeaderField emptyState = Ok (params', st')
           /\ map pa_In params' = ["query"]).
Proof.
  split; (split; [vm_compute; reflexivity|]);
    eexists _, _; (split; [vm_compute; reflexivity | reflexivity]).
Qed.

(** Against C10 as stated.  A field that carries a path annotation and a
    header annotation need not be emitted in the header, nor as required:
    [movedField] is emitted in the query, where its override puts it (and
    required all the same); [blankPathField], whose path annotation has an
    empty value, is emitted in the header and not required. *)
Lemma later_location_is_not_always_emitted :
  (annotated movedField ApiPath = true
   /\ annotated movedField ApiHeader = true
   /\ exists params' st',
        buildOperation_field locationOverrides Hello.fileDesc [] movedField
          emptyState = Ok (params', st')
        /\ map pa_In params' = ["query"]
        /\ map pa_Required params' = [true])
  /\ (annotated blankPathField ApiPath = true
      /\ annotated blankPathField ApiHeader = true
      /\ exists params' st',
           buildOperation_field noOverrides Hello.fileDesc [] blankPathField
             emptyState = Ok (params', st')
           /\ map pa_In params' = ["header"]
           /\ map pa_Required params' = [false]).
Proof.
  split; (split; [vm_compute; reflexivity|]);
    (split; [vm_compute; reflexivity|]);
    eexists _, _; (split; [vm_compute; reflexivity|]);
    split; reflexivity.
Qed.

(** ** Frame properties: what a computation leaves untouched *)

Lemma respects_ret {A} R `{!Reflexive R} (a : A) : respects R (ret a).
Proof. intros st b st' H. ret_inv H. reflexivity. Qed.

Lemma respects_panic {A} R : respects R (@panic A).
Proof. intros st b st' H. discriminate. Qed.

Lemma respects_bind {A B} R `{!Transitive R} (c : Gen A) (k : A -> Gen B) :
  respects R c -> (forall a, respects R (k a)) -> respects R (bind c k).
Proof.
  intros Hc Hk st b st' H. bind_inv H.
  apply Hc in H0. apply Hk in H. etransitivity; eassumption.
Qed.

Lemma respects_foldM {A B} R `{!PreOrder R} (f : B -> A -> Gen B) l :
  (forall b x, respects R (f b x)) -> forall b, respects R (foldM f l b).
Proof.
  intros Hf. induction l as [|x l IH]; simpl; intros b.
  - apply respects_ret; apply _.
  - apply respects_bind; [apply _ | apply Hf | intros; apply IH].
Qed.

Lemma respects_index0 {A} R `{!Reflexive R} (l : list A) :
  respects R (index0 l).
Proof. destruct l; [apply respects_panic | apply respects_ret; assumption]. Qed.

Lemma respects_weaken {A} (R R' : GenState -> GenState -> Prop) (c : Gen A) :
  (forall st st', R st st' -> R' st st') -> respects R c -> respects R' c.
Proof. intros HR Hc st a st' H. apply HR, (Hc _ _ _ H). Qed.

Lemma respects_get_bind {A} R (k : GenState -> Gen A) :
  (forall st, respects R (k st)) -> respects R (bind get k).
Proof. intros Hk st a st' H. exact (Hk st st a st' H). Qed.

Lemma respects_modify R (f : GenState -> GenState) :
  (forall st, R st (f st)) ->
  respects R (st <- get ;; put (f st)).
Proof.
  intros Hf st a st' H. unfold bind, get, put in H.
  inversion H; subst. apply Hf.
Qed.

Lemma respects_modify_bind {A} R `{!Transitive R} (f : GenState -> GenState)
    (k : Gen A) :
  (forall st, R st (f st)) -> respects R k ->
  respects R (st <- get ;; _ <- put (f st) ;; k).
Proof.
  intros Hf Hk st a st' H. unfold bind at 1 2, get, put in H.
  apply Hk in H. etransitivity; [apply Hf | exact H].
Qed.

#[local] Instance onlyRequired_PreOrder : PreOrder onlyRequired.
Proof.
  split.
  - intros st. reflexivity.
  - intros x y z Hxy Hyz. unfold onlyRequired in *. congruence.
Qed.

#[local] Instance onlySchemas_PreOrder : PreOrder onlySchemas.
Proof.
  split.
  - intros st. split; [reflexivity | auto].
  - intros x y z [Hxy Ixy] [Hyz Iyz]. split; [congruence | auto].
Qed.

#[local] Instance keepsTags_PreOrder : PreOrder keepsTags.
Proof.
  split.
  - intros st. split; [reflexivity | auto].
  - intros x y z [Hxy Ixy] [Hyz Iyz]. split; [congruence | auto].
Qed.

#[local] Instance keepsConsistent_PreOrder : PreOrder keepsConsistent.
Proof.
  split.
  - intros st H. exact H.
  - intros x y z Hxy Hyz H. auto.
Qed.

Lemma onlyRequired_onlySchemas st st' :
  onlyRequired st st' -> onlySchemas st st'.
Proof.
  unfold onlyRequired, emitted, onlySchemas, pathsAndTags,
    schemaNamesConsistent.
  intros H. inversion H as [[Hg Hd]]. rewrite Hg, Hd. split; auto.
Qed.

Lemma onlySchemas_keepsTags st st' : onlySchemas st st' -> keepsTags st st'.
Proof.
  unfold onlySchemas, keepsTags, pathsAndTags.
  intros [H HI]. inversion H. split; auto.
Qed.

Lemma keepsTags_keepsConsistent st st' :
  keepsTags st st' -> keepsConsistent st st'.
Proof. intros [_ H]. exact H. Qed.

Lemma onlyRequired_keepsTags st st' : onlyRequired st st' -> keepsTags st st'.
Proof. intros H. apply onlySchemas_keepsTags, onlyRequired_onlySchemas, H. Qed.

Lemma onlyRequired_keepsConsistent st st' :
  onlyRequired st st' -> keepsConsistent st st'.
Proof.
  intros H. apply keepsTags_keepsConsistent, onlyRequired_keepsTags, H.
Qed.

Lemma onlySchemas_keepsConsistent st st' :
  onlySchemas st st' -> keepsConsistent st st'.
Proof. intros H. apply keepsTags_keepsConsistent, onlySchemas_keepsTags, H. Qed.

Lemma Contains_In l x : Contains l x = true <-> In x l.
Proof.
  unfold Contains. rewrite existsb_exists. split.
  - intros (y & Hy & E). apply String.eqb_eq in E. subst. exact Hy.
  - intros H. exists x. split; [exact H | apply String.eqb_refl].
Qed.

(** The frame lemmas of the generator's functions, for [frame]. *)
Create HintDb frame.

(** Close a [respects] goal: by a frame lemma, directly or for a stronger
    relation, else by descending through binds, loops, returns and
    failures. *)
Ltac frame_weaken incl :=
  eapply respects_weaken; [apply incl | solve [auto with frame]].

Ltac frame :=
  repeat first
    [ solve [auto with frame]
    | frame_weaken onlyRequired_onlySchemas
    | frame_weaken onlySchemas_keepsTags
    | frame_weaken keepsTags_keepsConsistent
    | frame_weaken onlyRequired_keepsTags
    | frame_weaken onlySchemas_keepsConsistent
    | frame_weaken onlyRequired_keepsConsistent
    | apply respects_ret; apply _
    | apply respects_panic
    | apply respects_index0; apply _
    | apply respects_bind; [apply _ | | intros ?]
    | apply respects_foldM; [apply _ | intros ? ?] ].

Lemma respects_schemaOrReferenceForField fileDesc t :
  respects onlyRequired (schemaOrReferenceForField fileDesc t).
Proof.
  induction t as [n|n|t IH|k _ t IH]; simpl.
  - frame.
  - destruct (td_GetStructDescriptor fileDesc (TStruct n)); frame.
    intros st a st' H. unfold schemaReferenceForMessage in H.
    inversion H; subst; clear H.
    destruct (Contains _ _); reflexivity.
  - apply respects_bind; [apply _ | exact IH | intros; frame].
  - apply respects_bind; [apply _ | exact IH | intros; frame].
Qed.
#[local] Hint Resolve respects_schemaOrReferenceForField : frame.

Lemma respects_getSchemaByOption ov fileDesc desc option :
  respects onlyRequired (getSchemaByOption ov fileDesc desc option).
Proof.
  unfold getSchemaByOption. frame. unfold getSchemaByOption_field.
  destruct (fd_Annotations _ !! option); frame.
  destruct a0; frame.
Qed.
#[local] Hint Resolve respects_getSchemaByOption : frame.

Lemma respects_locationBlock ov fileDesc key loc sr v vars :
  respects onlyRequired (locationBlock ov fileDesc key loc sr v vars).
Proof.
  unfold locationBlock.
  destruct (annotationValues v key) as [|ext ?]; frame.
  destruct (String.eqb ext ""); frame.
  destruct (annotationValues v OpenapiProperty); frame.
  destruct a as [fs|]; frame. destruct (sor_Schema fs); frame.
Qed.
#[local] Hint Resolve respects_locationBlock : frame.

Lemma respects_buildOperation_field ov fileDesc params v :
  respects onlyRequired (buildOperation_field ov fileDesc params v).
Proof.
  unfold buildOperation_field, fieldLocation. frame.
  destruct (_ && _); frame.
Qed.
#[local] Hint Resolve respects_buildOperation_field : frame.

Lemma respects_buildRequestBody ov fileDesc methodName inputDesc :
  respects onlyRequired (buildRequestBody ov fileDesc methodName inputDesc).
Proof.
  unfold buildRequestBody. destruct (_ && _); frame.
  destruct (_ ++ _); frame.
Qed.
#[local] Hint Resolve respects_buildRequestBody : frame.

Lemma respects_addSchemaToDocument schema :
  respects onlySchemas (addSchemaToDocument schema).
Proof.
  intros st a st' H. unfold addSchemaToDocument in H.
  destruct (Contains (generatedSchemas st) (fst schema)) eqn:E;
    inversion H; subst; clear H.
  - reflexivity.
  - split; [reflexivity|]. intros [Hnames Hnodup].
    unfold schemaNamesConsistent. simpl. split.
    + rewrite map_app. f_equal. exact Hnames.
    + apply NoDup_app. split; [exact Hnodup|]. split.
      * intros x Hx Hx'. apply list_elem_of_In in Hx, Hx'.
        destruct Hx' as [<- | []].
        apply Contains_In in Hx. congruence.
      * apply NoDup_singleton.
Qed.
#[local] Hint Resolve respects_addSchemaToDocument : frame.

Lemma respects_getResponseForStruct ov fileDesc desc :
  respects onlySchemas (getResponseForStruct ov fileDesc desc).
Proof.
  unfold getResponseForStruct. destruct desc as [desc|]; frame.
  - unfold getResponseForStruct_header.
    destruct (annotationValues _ ApiHeader) as [|ext ?]; frame.
    destruct (String.eqb ext ""); frame.
  - destruct (hasProperties a0); frame.
  - destruct (hasProperties a1); frame.
Qed.
#[local] Hint Resolve respects_getResponseForStruct : frame.

Lemma respects_buildOperation ov fileDesc methodName description operationID
    tagName path host inputDesc outputDesc :
  respects onlySchemas
    (buildOperation ov fileDesc methodName description operationID tagName
       path host inputDesc outputDesc).
Proof.
  unfold buildOperation. destruct inputDesc as [i|]; frame.
  destruct outputDesc; frame.
Qed.
#[local] Hint Resolve respects_buildOperation : frame.

Lemma respects_addOperationToDocument op path methodName :
  respects keepsTags (addOperationToDocument op path methodName).
Proof.
  intros st a st' H. unfold addOperationToDocument in H.
  inversion H; subst; clear H. split; [reflexivity|]. auto.
Qed.
#[local] Hint Resolve respects_addOperationToDocument : frame.

Lemma respects_addPaths_function ov rt fileDesc s count f :
  respects keepsTags (addPaths_function ov rt fileDesc s count f).
Proof.
  unfold addPaths_function.
  destruct (map_to_list _) as [|e es]; frame.
  unfold addPaths_verb. destruct (String.eqb (fst _) ""); frame.
Qed.
#[local] Hint Resolve respects_addPaths_function : frame.

(** ** The any-verb marker *)

Lemma setOperation_ANY op item : setOperation "ANY" op item = item.
Proof. reflexivity. Qed.

Lemma updatePathItem_id path f paths :
  (forall item, f item = item) -> updatePathItem path f paths = paths.
Proof.
  intros Hf. induction paths as [|[name item] rest IH]; simpl.
  - reflexivity.
  - destruct (String.eqb name path).
    + rewrite Hf. reflexivity.
    + rewrite IH. reflexivity.
Qed.

Lemma addOperationToDocument_ANY op path st :
  addOperationToDocument op path "ANY" st
  = Ok (tt, withDoc st
              (withPaths (doc st)
                 (if hasPath path (d_Paths (doc st)) then d_Paths (doc st)
                  else d_Paths (doc st) ++ [(path, emptyPathItem)]))).
Proof.
  unfold addOperationToDocument.
  rewrite updatePathItem_id by apply setOperation_ANY. reflexivity.
Qed.

Lemma addPaths_verb_count ov fileDesc s f i o count entry st n st' :
  addPaths_verb ov fileDesc s f i o count entry st = Ok (n, st') ->
  count <= n.
Proof.
  unfold addPaths_verb. destruct (String.eqb (fst entry) ""); intros H.
  - ret_inv H. lia.
  - bind_inv H. bind_inv H. bind_inv H. ret_inv H. lia.
Qed.

Lemma foldM_count {A} (step : nat -> A -> Gen nat) (l : list A) :
  (forall c x st n st', step c x st = Ok (n, st') -> c <= n) ->
  forall c st n st', foldM step l c st = Ok (n, st') -> c <= n.
Proof.
  intros Hstep. induction l as [|x l IH]; simpl; intros c st n st' H.
  - ret_inv H. lia.
  - bind_inv H. apply Hstep in H0. apply IH in H. lia.
Qed.

Lemma addPaths_function_count ov rt fileDesc s count f st n st' :
  addPaths_function ov rt fileDesc s count f st = Ok (n, st') -> count <= n.
Proof.
  unfold addPaths_function.
  destruct (map_to_list _) as [|e es]; intros H.
  - ret_inv H. lia.
  - eapply foldM_count; [|exact H].
    intros c x st0 n0 st0'. apply addPaths_verb_count.
Qed.

(** What the method step does for a method whose verb annotations are the
    any-verb marker alone. *)
Lemma addPaths_function_ANY ov rt fileDesc s count f st n st' vals :
  GetAnnotations (fn_Annotations f) HttpMethodAnnotations
  = {[ "ANY" := vals ]} ->
  addPaths_function ov rt fileDesc s count f st = Ok (n, st') ->
  n = S count
  /\ exists path0 inputDesc outputDesc op path2 st1,
       head vals = Some path0
       /\ buildOperation ov fileDesc "ANY"
            (filterCommentString ov (fn_ReservedComments f))
            (sv_Name s ++ "_" ++ fn_Name f)%string (sv_Name s) path0
            (hostOf s f) inputDesc outputDesc st = Ok ((op, path2), st1)
       /\ d_Paths (doc st')
          = (if hasPath path2 (d_Paths (doc st)) then d_Paths (doc st)
             else d_Paths (doc st) ++ [(path2, emptyPathItem)]).
Proof.
  intros Hany. unfold addPaths_function. rewrite Hany.
  rewrite map_to_list_singleton.
  pose proof (range_perm rt (sv_Name s) (fn_Name f) [("ANY", vals)]) as Hp.
  apply Permutation_sym, Permutation_length_1_inv in Hp. rewrite Hp.
  simpl. intros H. bind_inv H. ret_inv H.
  unfold addPaths_verb in H0. simpl in H0.
  apply bind_Ok in H0. destruct H0 as (path0 & st1 & Hidx & H0).
  apply bind_Ok in H0. destruct H0 as ([op path2] & st2 & Hbuild & H0).
  apply bind_Ok in H0. destruct H0 as (u & st3 & Hadd & H0).
  ret_inv H0.
  rewrite addOperationToDocument_ANY in Hadd.
  inversion Hadd; subst; clear Hadd.
  split; [reflexivity|].
  destruct vals as [|v0 rest]; [discriminate|].
  ret_inv Hidx.
  eexists v0, _, _, op, path2, st2.
  split; [reflexivity|]. split; [exact Hbuild|].
  apply respects_buildOperation in Hbuild. destruct Hbuild as [Hbuild _].
  unfold pathsAndTags in Hbuild.
  inversion Hbuild as [[Hpaths Htags]]. simpl. rewrite Hpaths. reflexivity.
Qed.

Lemma foldM_addPaths_function_positive ov rt fileDesc s f vals :
  GetAnnotations (fn_Annotations f) HttpMethodAnnotations
  = {[ "ANY" := vals ]} ->
  forall fs, In f fs ->
  forall c st n st',
    foldM (addPaths_function ov rt fileDesc s) fs c st = Ok (n, st') ->
    0 < n.
Proof.
  intros Hany fs. induction fs as [|g fs IH]; simpl; intros Hin c st n st' H.
  - contradiction.
  - bind_inv H. destruct Hin as [-> | Hin].
    + apply (addPaths_function_ANY _ _ _ _ _ _ _ _ _ _ Hany) in H0.
      destruct H0 as [-> _].
      apply (foldM_count (addPaths_function ov rt fileDesc s)) in H;
        [lia|].
      intros c0 x st1 n0 st1'. apply addPaths_function_count.
    + eapply IH; eauto.
Qed.

(** C9. For a method whose only verb annotation is the any-verb marker, an
    operation is built and a path item for its path exists afterwards (a
    fresh, empty one unless the path had one), but no slot of any path item
    changes: the operation is attached nowhere.  The annotation is counted
    all the same, so the enclosing service contributes its tag. *)
Theorem any_verb_operation_is_not_attached ov rt fileDesc s f vals :
  GetAnnotations (fn_Annotations f) HttpMethodAnnotations
  = {[ "ANY" := vals ]} ->
  (forall count st n st',
      addPaths_function ov rt fileDesc s count f st = Ok (n, st') ->
      n = S count
      /\ exists path0 inputDesc outputDesc op path2 st1,
           head vals = Some path0
           /\ buildOperation ov fileDesc "ANY"
                (filterCommentString ov (fn_ReservedComments f))
                (sv_Name s ++ "_" ++ fn_Name f)%string (sv_Name s) path0
                (hostOf s f) inputDesc outputDesc st = Ok ((op, path2), st1)
           /\ d_Paths (doc st')
              = (if hasPath path2 (d_Paths (doc st)) then d_Paths (doc st)
                 else d_Paths (doc st) ++ [(path2, emptyPathItem)])
           /\ hasPath path2 (d_Paths (doc st')) = true)
  /\ (In f (sv_Functions s) ->
      forall st st',
        addPaths_service ov rt fileDesc s st = Ok (tt, st') ->
        d_Tags (doc st')
        = d_Tags (doc st) ++
            [{| tg_Name := sv_Name s;
                tg_Description :=
                  filterCommentString ov (sv_ReservedComments s) |}]).
Proof.
  intros Hany. split.
  - intros count st n st' H.
    destruct (addPaths_function_ANY _ _ _ _ _ _ _ _ _ _ Hany H)
      as (Hn & path0 & i & o & op & path2 & st1 & Hhd & Hb & Hp).
    split; [exact Hn|].
    exists path0, i, o, op, path2, st1. repeat split; auto.
    rewrite Hp. destruct (hasPath path2 (d_Paths (doc st))) eqn:E.
    + exact E.
    + unfold hasPath. rewrite existsb_app. simpl.
      rewrite String.eqb_refl. rewrite orb_true_r. reflexivity.
  - intros Hin st st' H. unfold addPaths_service in H. bind_inv H.
    pose proof H0 as Hcount.
    apply (foldM_addPaths_function_positive _ _ _ _ _ _ Hany _ Hin) in Hcount.
    apply (respects_foldM keepsTags) in H0;
      [|intros; apply respects_addPaths_function].
    destruct H0 as [H0 _].
    destruct a as [|k]; [lia|]. simpl in H.
    unfold bind, get, put in H. inversion H; subst; clear H.
    simpl. rewrite H0. reflexivity.
Qed.

Lemma any_verb_operation_is_not_attached_witness :
  GetAnnotations (fn_Annotations AnyVerb.ping) HttpMethodAnnotations
  = {[ "ANY" := ["/ping"] ]}
  /\ exists st',
       addPaths_service noOverrides listedOrder Hello.fileDesc
         AnyVerb.service emptyState = Ok (tt, st')
       /\ d_Paths (doc st') = [("/ping", emptyPathItem)]
       /\ d_Tags (doc st')
          = [{| tg_Name := "PingService"; tg_Description := "" |}].
Proof.
  assert (Hany : GetAnnotations (fn_Annotations AnyVerb.ping)
                   HttpMethodAnnotations = {[ "ANY" := ["/ping"] ]})
    by (vm_compute; reflexivity).
  split; [exact Hany|].
  eexists. split; [vm_compute; reflexivity|].
  split; [reflexivity|].
  apply (proj2 (any_verb_operation_is_not_attached noOverrides listedOrder
                  Hello.fileDesc AnyVerb.service AnyVerb.ping ["/ping"]
                  Hany)
           ltac:(left; reflexivity) emptyState).
  vm_compute. reflexivity.
Defined.

(** ** Output ordering *)

Section Sorting.

Context {A : Type} (key : A -> string).

Lemma ltb_false_leb (x y : string) :
  String.ltb y x = false -> String.leb x y = true.
Proof.
  unfold String.ltb, String.leb. rewrite (String.compare_antisym x y).
  destruct (String.compare y x); simpl; congruence.
Qed.

Lemma ltb_true_leb (x y : string) :
  String.ltb x y = true -> String.leb x y = true.
Proof.
  unfold String.ltb, String.leb. destruct (String.compare x y); congruence.
Qed.

Lemma insertBy_HdRel x y l :
  leBy key y x ->
  HdRel (leBy key) y l ->
  HdRel (leBy key) y (insertBy (lessBy key) x l).
Proof.
  intros Hyx Hl. destruct l as [|z l]; simpl.
  - constructor. exact Hyx.
  - destruct (lessBy key z x).
    + constructor. inversion Hl; assumption.
    + constructor. exact Hyx.
Qed.

Lemma insertBy_Sorted x l :
  Sorted (leBy key) l -> Sorted (leBy key) (insertBy (lessBy key) x l).
Proof.
  induction l as [|y l IH]; simpl; intros Hs.
  - repeat constructor.
  - inversion Hs as [|? ? Hs' Hhd]; subst.
    destruct (lessBy key y x) eqn:E.
    + constructor; [apply IH; exact Hs'|].
      apply insertBy_HdRel; [|exact Hhd].
      apply ltb_true_leb. exact E.
    + constructor; [exact Hs|]. constructor.
      apply ltb_false_leb. exact E.
Qed.

Lemma sort_Slice_Sorted l : Sorted (leBy key) (sort_Slice (lessBy key) l).
Proof.
  induction l as [|x l IH]; simpl.
  - constructor.
  - apply insertBy_Sorted. exact IH.
Qed.

Lemma sort_Slice_ascending l :
  ascending (map key (sort_Slice (lessBy key) l)).
Proof.
  unfold ascending. pose proof (sort_Slice_Sorted l) as Hs.
  induction Hs as [|x l' Hs IH Hhd]; simpl.
  - constructor.
  - constructor; [exact IH|].
    destruct Hhd; simpl; constructor. assumption.
Qed.

Lemma insertBy_Permutation x l :
  Permutation (insertBy (lessBy key) x l) (x :: l).
Proof.
  induction l as [|y l IH]; simpl; [reflexivity|].
  destruct (lessBy key y x); [|reflexivity].
  rewrite IH. apply perm_swap.
Qed.

Lemma sort_Slice_Permutation l : Permutation (sort_Slice (lessBy key) l) l.
Proof.
  induction l as [|x l IH]; simpl; [constructor|].
  rewrite insertBy_Permutation. constructor. exact IH.
Qed.

End Sorting.

(** C5. In every document [BuildDocument] returns, the tags, the paths and
    the component schemas are each in lexicographic ascending order of
    their names. *)
Theorem BuildDocument_output_sorted ov rt fileDesc ast fuel d :
  BuildDocument ov rt fileDesc ast fuel = Ok d ->
  ascending (map tg_Name (d_Tags d))
  /\ ascending (map fst (d_Paths d))
  /\ ascending (map fst (d_Schemas d)).
Proof.
  unfold BuildDocument. intros H.
  destruct (bind _ _ _) as [[u st]| |]; try discriminate.
  inversion H; subst; clear H. simpl.
  split; [|split].
  - apply (sort_Slice_ascending tg_Name).
  - apply (sort_Slice_ascending (@fst string PathItem)).
  - apply (sort_Slice_ascending (@fst string SchemaOrReference)).
Qed.

Lemma BuildDocument_output_sorted_witness :
  exists d,
    BuildDocument noOverrides reversedOrder TwoVerbs.fileDesc TwoVerbs.ast 3
    = Ok d
    /\ map fst (d_Paths d) = ["/a"; "/b"]
    /\ ascending (map fst (d_Paths d)).
Proof.
  eexists. split; [vm_compute; reflexivity|].
  split; [reflexivity|].
  apply (BuildDocument_output_sorted noOverrides reversedOrder
           TwoVerbs.fileDesc TwoVerbs.ast 3).
  vm_compute. reflexivity.
Defined.

(** ** Component schema names *)

Lemma respects_addPaths_service ov rt fileDesc s :
  respects keepsConsistent (addPaths_service ov rt fileDesc s).
Proof.
  unfold addPaths_service. frame.
  destruct (Nat.ltb 0 a); [|frame].
  apply respects_modify with
    (f := fun st => withDoc st (withTags (doc st) _)).
  intros st HI. exact HI.
Qed.
#[local] Hint Resolve respects_addPaths_service : frame.

Lemma respects_addPathsToDocument ov rt fileDesc services :
  respects keepsConsistent (addPathsToDocument ov rt fileDesc services).
Proof. unfold addPathsToDocument. frame. Qed.
#[local] Hint Resolve respects_addPathsToDocument : frame.

Lemma respects_propertyName_option field extName option :
  respects onlyRequired (propertyName_option field extName option).
Proof.
  unfold propertyName_option. destruct (fd_Annotations _ !! _); frame.
Qed.
#[local] Hint Resolve respects_propertyName_option : frame.

Lemma respects_addSchemaForStruct ov fileDesc s :
  respects keepsConsistent (addSchemaForStruct ov fileDesc s).
Proof.
  unfold addSchemaForStruct. apply respects_get_bind. intros st.
  destruct (_ || _); frame.
  destruct (GetStructDescriptor fileDesc (sl_Name s)); frame.
  unfold addSchemas_field. frame.
  destruct a; frame.
Qed.
#[local] Hint Resolve respects_addSchemaForStruct : frame.

Lemma respects_addSchemasForStructsToDocument ov fileDesc ast fuel :
  forall structs,
    respects keepsConsistent
      (addSchemasForStructsToDocument ov fileDesc ast fuel structs).
Proof.
  induction fuel as [|fuel IH]; intros structs.
  - destruct structs; simpl; [frame|]. intros st a st' H. discriminate.
  - induction structs as [|[s|] rest IHrest].
    + simpl. frame.
    + change (respects keepsConsistent
                (_ <- addSchemasForStructsToDocument ov fileDesc ast fuel
                        (nestedStructLikes ast s) ;;
                 _ <- addSchemaForStruct ov fileDesc s ;;
                 addSchemasForStructsToDocument ov fileDesc ast (S fuel)
                   rest)).
      apply respects_bind; [apply _ | apply IH | intros _].
      apply respects_bind; [apply _ | frame | intros _]. exact IHrest.
    + simpl. frame.
Qed.

Lemma respects_drainRequiredSchemas ov fileDesc ast fuel passes :
  respects keepsConsistent (drainRequiredSchemas ov fileDesc ast fuel passes).
Proof.
  induction passes as [|passes IH]; simpl;
    apply respects_get_bind; intros st;
    (destruct (requiredSchemas st); [frame|]).
  - intros st0 a st' H. discriminate.
  - apply respects_bind;
      [apply _ | apply respects_addSchemasForStructsToDocument | intros _].
    apply (respects_modify_bind keepsConsistent
             (fun st' => {| generatedSchemas := generatedSchemas st';
                            requiredSchemas := _;
                            doc := doc st' |})); [|exact IH].
    intros st' HI. exact HI.
Qed.

(** X19. Without a document override (so that the document starts without
    component schemas), no name occurs twice among the component schemas of
    a document [BuildDocument] returns. *)
Lemma BuildDocument_schema_names_distinct ov rt fileDesc ast fuel d :
  getDocumentOption ov ast = None ->
  BuildDocument ov rt fileDesc ast fuel = Ok d ->
  NoDup (map fst (d_Schemas d)).
Proof.
  unfold BuildDocument. intros -> H.
  destruct (bind _ _ _) as [[u st]| |] eqn:Hrun; try discriminate.
  inversion H; subst; clear H.
  assert (HI : schemaNamesConsistent st).
  { assert (Hr : respects keepsConsistent
                   (_ <- addPathsToDocument ov rt fileDesc (th_Services ast) ;;
                    drainRequiredSchemas ov fileDesc ast fuel fuel)).
    { apply respects_bind; [apply _ | frame | intros _].
      apply respects_drainRequiredSchemas. }
    apply (Hr _ _ _ Hrun). split; [reflexivity | constructor]. }
  destruct HI as [Hnames Hnodup].
  assert (Hs : d_Schemas (setServers (promoteSingleTag (doc st)))
               = d_Schemas (doc st)).
  { unfold setServers, promoteSingleTag. simpl.
    destruct (d_Tags (doc st)) as [|t [|t' ts]]; reflexivity. }
  change (d_Schemas (sortDocument (setServers (promoteSingleTag (doc st)))))
    with (sort_Slice (lessBy fst)
            (d_Schemas (setServers (promoteSingleTag (doc st))))).
  rewrite Hs. rewrite <- Hnames in Hnodup.
  rewrite (Permutation_map fst (sort_Slice_Permutation fst _)).
  exact Hnodup.
Qed.

(** ** The server passes *)

Lemma AppendUnique_same l u :
  AppendUnique (AppendUnique l u) u = AppendUnique l u.
Proof.
  unfold AppendUnique. destruct (Contains l u) eqn:E.
  - rewrite E. reflexivity.
  - assert (H : Contains (l ++ [u]) u = true).
    { apply Contains_In, in_or_app. right. left. reflexivity. }
    rewrite H. reflexivity.
Qed.

Lemma AppendUnique_nil u : AppendUnique [] u = [u].
Proof. reflexivity. Qed.

Lemma AppendUnique_singleton u : AppendUnique [u] u = [u].
Proof. rewrite <- (AppendUnique_nil u) at 1. apply AppendUnique_same. Qed.

Section ServerPass.

Context (url : string) (allServers : list string).

Lemma collectServer_None acc : collectServer None acc = acc.
Proof. reflexivity. Qed.

Lemma collectServer_start op acc :
  op_Servers op = [{| srv_URL := url |}] ->
  serversNotStarted allServers acc \/ serversStarted url allServers acc ->
  serversStarted url allServers (collectServer (Some op) acc).
Proof.
  unfold collectServer, singleServer, serversNotStarted, serversStarted.
  intros -> [-> | ->]; simpl.
  - reflexivity.
  - rewrite AppendUnique_singleton, AppendUnique_same. reflexivity.
Qed.

Lemma collectServer_keep o acc :
  (forall op, o = Some op -> op_Servers op = [{| srv_URL := url |}]) ->
  (serversNotStarted allServers acc \/ serversStarted url allServers acc ->
   serversNotStarted allServers (collectServer o acc)
   \/ serversStarted url allServers (collectServer o acc))
  /\ (serversStarted url allServers acc ->
      serversStarted url allServers (collectServer o acc)).
Proof.
  intros Ho. destruct o as [op|].
  - split; intros H; [right|];
      apply collectServer_start; auto.
  - rewrite collectServer_None. auto.
Qed.

Lemma hoistPath_fiveVerbItem name item :
  fiveVerbItem url item ->
  hoistPath allServers (name, item)
  = ((name,
      {| pi_Get := clearServers (pi_Get item);
         pi_Post := clearServers (pi_Post item);
         pi_Put := clearServers (pi_Put item);
         pi_Delete := clearServers (pi_Delete item);
         pi_Patch := clearServers (pi_Patch item);
         pi_Options := pi_Options item;
         pi_Head := pi_Head item;
         pi_Servers := [{| srv_URL := url |}] |}),
     AppendUnique allServers url).
Proof.
  intros (_ & _ & [op0 Hin] & Hs). unfold hoistPath. simpl snd. simpl fst.
  assert (Hstarted :
            serversStarted url allServers
              (collectServer (pi_Patch item)
                 (collectServer (pi_Delete item)
                    (collectServer (pi_Put item)
                       (collectServer (pi_Post item)
                          (collectServer (pi_Get item)
                             ([], allServers))))))).
  { assert (Hslot : forall o, In o (hoistedSlots item) ->
              forall op, o = Some op ->
                         op_Servers op = [{| srv_URL := url |}]).
    { intros o Ho op ->. apply Hs, Ho. }
    unfold hoistedSlots in Hin, Hslot. simpl in Hin, Hslot.
    pose proof (collectServer_keep (pi_Get item) ([], allServers)
                  (Hslot _ (or_introl eq_refl))) as [K1 S1].
    pose proof (fun acc => collectServer_keep (pi_Post item) acc
                  (Hslot _ (or_intror (or_introl eq_refl)))) as K2.
    pose proof (fun acc => collectServer_keep (pi_Put item) acc
                  (Hslot _ (or_intror (or_intror (or_introl eq_refl)))))
      as K3.
    pose proof (fun acc => collectServer_keep (pi_Delete item) acc
                  (Hslot _ (or_intror (or_intror (or_intror
                                                    (or_introl eq_refl))))))
      as K4.
    pose proof (fun acc => collectServer_keep (pi_Patch item) acc
                  (Hslot _ (or_intror (or_intror (or_intror
                              (or_intror (or_introl eq_refl)))))))
      as K5.
    assert (N0 : serversNotStarted allServers ([], allServers)
                 \/ serversStarted url allServers ([], allServers))
      by (left; reflexivity).
    destruct Hin as [E | [E | [E | [E | [E | []]]]]].
    - apply K5, K4, K3, K2. rewrite E.
      apply collectServer_start; [apply Hs; left; exact E | exact N0].
    - apply K5, K4, K3. rewrite E.
      apply collectServer_start;
        [apply Hs; right; left; exact E | apply K1, N0].
    - apply K5, K4. rewrite E.
      apply collectServer_start;
        [apply Hs; do 2 right; left; exact E | apply K2, K1, N0].
    - apply K5. rewrite E.
      apply collectServer_start;
        [apply Hs; do 3 right; left; exact E | apply K3, K2, K1, N0].
    - rewrite E.
      apply collectServer_start;
        [apply Hs; do 4 right; left; exact E | apply K4, K3, K2, K1, N0]. }
  unfold serversStarted in Hstarted. rewrite Hstarted. reflexivity.
Qed.

End ServerPass.

Lemma clearServers_Some o op : clearServers o = Some op -> op_Servers op = [].
Proof.
  destruct o as [op'|]; simpl; [|discriminate].
  intros H. inversion H; subst. reflexivity.
Qed.

Lemma hoistServers_fiveVerbItems url paths :
  Forall (fun p => fiveVerbItem url (snd p)) paths ->
  paths <> [] ->
  forall allServers,
    allServers = [] \/ allServers = [url] ->
    snd (hoistServers paths allServers) = [url]
    /\ Forall (fun p => noServers (snd (clearPathServers p)))
         (fst (hoistServers paths allServers)).
Proof.
  induction 1 as [|[name item] paths Hitem Hrest IH]; intros Hne all Hall;
    [contradiction|].
  simpl. rewrite (hoistPath_fiveVerbItem url all name item Hitem). simpl.
  assert (Hall' : AppendUnique all url = [url]).
  { destruct Hall as [-> | ->];
      [apply AppendUnique_nil | apply AppendUnique_singleton]. }
  rewrite Hall'.
  assert (Hhead : noServers
            (snd (clearPathServers
                    (name,
                     {| pi_Get := clearServers (pi_Get item);
                        pi_Post := clearServers (pi_Post item);
                        pi_Put := clearServers (pi_Put item);
                        pi_Delete := clearServers (pi_Delete item);
                        pi_Patch := clearServers (pi_Patch item);
                        pi_Options := pi_Options item;
                        pi_Head := pi_Head item;
                        pi_Servers := [{| srv_URL := url |}] |})))).
  { destruct Hitem as (Ho & Hh & _ & _). simpl in Ho, Hh.
    split; [reflexivity|]. unfold allSlots, hoistedSlots. simpl.
    rewrite Ho, Hh.
    intros op [E | [E | [E | [E | [E | [E | [E | []]]]]]]];
      try discriminate; eapply clearServers_Some; exact E. }
  destruct paths as [|p paths].
  - simpl. split; [reflexivity|]. constructor; [exact Hhead | constructor].
  - destruct (IH ltac:(discriminate) [url] ltac:(right; reflexivity))
      as [Hsnd Hfst].
    split; [exact Hsnd|]. constructor; [exact Hhead | exact Hfst].
Qed.

(** X20. What the server passes do when every operation sits in one of the
    five slots they look at and all declare the one server [url]: the
    document gets that server alone, and no path and no operation keeps
    one. *)
Lemma setServers_single_server url d :
  d_Paths d <> [] ->
  Forall (fun p => fiveVerbItem url (snd p)) (d_Paths d) ->
  d_Servers (setServers d) = [{| srv_URL := url |}]
  /\ Forall (fun p => noServers (snd p)) (d_Paths (setServers d)).
Proof.
  intros Hne Hitems.
  destruct (hoistServers_fiveVerbItems url _ Hitems Hne []
              ltac:(left; reflexivity)) as [Hsnd Hfst].
  unfold setServers. simpl. rewrite Hsnd. simpl. split; [reflexivity|].
  apply Forall_map. exact Hfst.
Qed.

(** ** Where the generator departs from the specification *)

(** C6. The document depends on the order in which the runtime walks the map
    of a method's verb annotations: on [TwoVerbs], walking the verbs of
    [First] in one order or the other yields the document's servers in
    opposite orders, so two runs need not produce the same document. *)
Theorem BuildDocument_depends_on_map_order fuel :
  exists d1 d2,
    BuildDocument noOverrides listedOrder TwoVerbs.fileDesc TwoVerbs.ast fuel
    = Ok d1
    /\ BuildDocument noOverrides reversedOrder TwoVerbs.fileDesc TwoVerbs.ast
         fuel = Ok d2
    /\ map srv_URL (d_Servers d1) = ["http://h1"; "http://h2"]
    /\ map srv_URL (d_Servers d2) = ["http://h2"; "http://h1"]
    /\ d1 <> d2.
Proof.
  destruct fuel; eexists _, _;
    (split; [vm_compute; reflexivity|]);
    (split; [vm_compute; reflexivity|]);
    (split; [reflexivity|]); (split; [reflexivity|]);
    intros H; apply (f_equal d_Servers) in H; discriminate H.
Qed.

(** C7. On [OneServer], three operations on two paths that all declare the
    same server, the document gets that one server and no path keeps a
    server, but the HEAD operation keeps its own: the server loop looks at
    the get, post, put, delete and patch slots only. *)
Theorem head_operation_keeps_its_server fuel :
  exists d a b head,
    BuildDocument noOverrides listedOrder OneServer.fileDesc OneServer.ast
      fuel = Ok d
    /\ d_Servers d = [{| srv_URL := "http://api.example.com" |}]
    /\ d_Paths d = [("/a", a); ("/b", b)]
    /\ pi_Servers a = [] /\ pi_Servers b = []
    /\ pi_Head a = Some head
    /\ op_Servers head = [{| srv_URL := "http://api.example.com" |}].
Proof.
  destruct fuel; eexists _, _, _, _;
    (split; [vm_compute; reflexivity|]);
    repeat split; reflexivity.
Qed.



Lemma agreeOnProperties_refl r : agreeOnProperties r r.
Proof. destruct r as [[acc st]| |]; simpl; auto. Qed.







Lemma addSchemasForStructsToDocument_nil ov fileDesc ast fuel st :
  addSchemasForStructsToDocument ov fileDesc ast fuel [] st = Ok (tt, st).
Proof. destruct fuel; reflexivity. Qed.

Lemma addSchemasForStructsToDocument_cons ov fileDesc ast fuel s rest :
  addSchemasForStructsToDocument ov fileDesc ast (S fuel) (Some s :: rest)
  = (_ <- addSchemasForStructsToDocument ov fileDesc ast fuel
            (nestedStructLikes ast s) ;;
     _ <- addSchemaForStruct ov fileDesc s ;;
     addSchemasForStructsToDocument ov fileDesc ast (S fuel) rest).
Proof. reflexivity. Qed.

Lemma addSchemasForStructsToDocument_self_reference ov fuel :
  forall rest st,
    addSchemasForStructsToDocument ov SelfReference.fileDesc
      SelfReference.ast fuel (Some SelfReference.NodeLike :: rest) st
    = OutOfFuel.
Proof.
  induction fuel as [|fuel IH]; intros rest st.
  - reflexivity.
  - simpl. apply bind_OutOfFuel.
    change (nestedStructLikes SelfReference.ast SelfReference.NodeLike)
      with [Some SelfReference.NodeLike].
    apply IH.
Qed.

(** C1. On [SelfReference], where the response holds a struct that has a
    field of its own type, the walk over the struct-likes descends from
    [Node] into [Node] without end: whatever the fuel, no document is
    returned, so the reachable struct [Node] gets no schema. *)
Theorem self_reference_is_never_emitted fuel :
  BuildDocument noOverrides listedOrder SelfReference.fileDesc
    SelfReference.ast fuel = OutOfFuel.
Proof.
  unfold BuildDocument.
  change (getDocumentOption noOverrides SelfReference.ast)
    with (@None Document).
  cbv beta iota zeta.
  unfold bind at 1.
  assert (Hpaths : exists st1,
             addPathsToDocument noOverrides listedOrder
               SelfReference.fileDesc (th_Services SelfReference.ast)
               {| generatedSchemas := []; requiredSchemas := [];
                  doc := initialDocument |} = Ok (tt, st1)
             /\ requiredSchemas st1 = ["Node"]).
  { eexists. split; [vm_compute; reflexivity | reflexivity]. }
  destruct Hpaths as (st1 & -> & Hreq).
  assert (Hdrain : drainRequiredSchemas noOverrides SelfReference.fileDesc
                     SelfReference.ast fuel fuel st1 = OutOfFuel).
  { destruct fuel as [|fuel]; simpl; unfold bind at 1; unfold get;
      rewrite Hreq; [reflexivity|].
    apply bind_OutOfFuel.
    change (nestedStructLikes SelfReference.ast (emptyStructLike "Req"))
      with (@nil (option StructLike)).
    unfold bind at 1. rewrite addSchemasForStructsToDocument_nil.
    unfold bind at 1.
    replace (addSchemaForStruct noOverrides SelfReference.fileDesc
               (emptyStructLike "Req") st1) with (Ok (tt, st1)).
    2:{ unfold addSchemaForStruct, bind, get. rewrite Hreq. reflexivity. }
    apply bind_OutOfFuel.
    exact (addSchemasForStructsToDocument_self_reference noOverrides
             fuel [] st1). }
  rewrite Hdrain. reflexivity.
Qed.

(** ** The path template *)

Lemma replaceColon_false_cons c rest :
  Ascii.eqb c ":" && startsWithWord rest = false ->
  replaceColon false (String c rest) = String c (replaceColon false rest).
Proof. simpl. intros ->. reflexivity. Qed.

Lemma replaceColon_true_stop t :
  startsWithWord t = false ->
  replaceColon true t = String "}" (replaceColon false t).
Proof.
  destruct t as [|c r]; simpl; [reflexivity|].
  intros ->. reflexivity.
Qed.

Lemma replaceColon_true_word w t :
  allWordChars w = true ->
  startsWithWord t = false ->
  replaceColon true (w ++ t)
  = (w ++ String "}" (replaceColon false t))%string.
Proof.
  intros Hw Ht. induction w as [|c w IH]; simpl.
  - apply replaceColon_true_stop, Ht.
  - simpl in Hw. apply andb_true_iff in Hw. destruct Hw as [Hc Hw].
    rewrite Hc. rewrite (IH Hw). reflexivity.
Qed.

(** X1. A path without a colon is returned as it is. *)
Theorem replaceColon_without_colon s :
  containsColon s = false -> replaceColon false s = s.
Proof.
  induction s as [|c s IH]; simpl; [reflexivity|].
  intros H. apply orb_false_iff in H. destruct H as [Hc Hs].
  rewrite Hc. simpl. rewrite (IH Hs). reflexivity.
Qed.

Lemma replaceColon_without_colon_witness :
  containsColon "/hello/world" = false
  /\ replaceColon false "/hello/world" = "/hello/world".
Proof.
  split; [reflexivity|].
  apply (replaceColon_without_colon "/hello/world"). reflexivity.
Defined.

(** X2. A colon followed by a non-empty run of word characters, up to the
    first character that is not one, becomes that run in braces; the text
    before it, when it has no colon, is copied, and the rewriting goes on
    after the run. *)
Theorem replaceColon_placeholder pre w t :
  containsColon pre = false ->
  w <> "" ->
  allWordChars w = true ->
  startsWithWord t = false ->
  replaceColon false (pre ++ String ":" (w ++ t))
  = (pre ++ String "{" (w ++ String "}" (replaceColon false t)))%string.
Proof.
  intros Hpre Hne Hw Ht. induction pre as [|c pre IH]; simpl.
  - assert (Hs : startsWithWord (w ++ t) = true).
    { destruct w as [|c w]; [contradiction|]. simpl in *.
      apply andb_true_iff in Hw. apply Hw. }
    rewrite Hs. simpl. rewrite (replaceColon_true_word w t Hw Ht).
    reflexivity.
  - simpl in Hpre. apply orb_false_iff in Hpre. destruct Hpre as [Hc Hpre].
    rewrite Hc. simpl. rewrite (IH Hpre). reflexivity.
Qed.

Lemma replaceColon_placeholder_witness :
  replaceColon false ("/users/" ++ String ":" ("id" ++ "/:action"))
  = ("/users/" ++ String "{" ("id" ++ String "}"
                                (replaceColon false "/:action")))%string
  /\ replaceColon false "/users/:id/:action" = "/users/{id}/{action}".
Proof.
  split; [|reflexivity].
  apply (replaceColon_placeholder "/users/" "id" "/:action");
    [reflexivity | discriminate | reflexivity | reflexivity].
Defined.

Lemma isWordChar_colon c : isWordChar c = true -> Ascii.eqb c ":" = false.
Proof.
  destruct (Ascii.eqb_spec c ":") as [->|]; [discriminate | reflexivity].
Qed.

Lemma startsWithWord_replaceColon s :
  startsWithWord s = false -> startsWithWord (replaceColon false s) = false.
Proof.
  destruct s as [|c r]; simpl; [reflexivity|]. intros Hc.
  destruct (Ascii.eqb c ":" && startsWithWord r); simpl;
    [reflexivity | exact Hc].
Qed.

Lemma replaceColon_settled s :
  forall opened,
    replaceColon false (replaceColon opened s) = replaceColon opened s.
Proof.
  induction s as [|c s IH]; intros opened.
  - destruct opened; reflexivity.
  - simpl. destruct (opened && isWordChar c) eqn:Hw.
    + apply andb_true_iff in Hw. destruct Hw as [_ Hw].
      rewrite replaceColon_false_cons
        by (rewrite (isWordChar_colon c Hw); reflexivity).
      rewrite IH. reflexivity.
    + assert (Hinner :
                replaceColon false
                  (if Ascii.eqb c ":" && startsWithWord s
                   then String "{" (replaceColon true s)
                   else String c (replaceColon false s))
                = (if Ascii.eqb c ":" && startsWithWord s
                   then String "{" (replaceColon true s)
                   else String c (replaceColon false s))).
      { destruct (Ascii.eqb c ":" && startsWithWord s) eqn:Hp.
        - rewrite replaceColon_false_cons by reflexivity.
          rewrite IH. reflexivity.
        - rewrite replaceColon_false_cons.
          + rewrite IH. reflexivity.
          + apply andb_false_iff in Hp. destruct Hp as [Hp | Hp].
            * rewrite Hp. reflexivity.
            * rewrite (startsWithWord_replaceColon s Hp).
              apply andb_false_r. }
      revert Hinner.
      generalize (if Ascii.eqb c ":" && startsWithWord s
                  then String "{" (replaceColon true s)
                  else String c (replaceColon false s)).
      intros x Hx. destruct opened.
      * change (replaceColon false (String "}" x) = String "}" x).
        rewrite replaceColon_false_cons by reflexivity.
        rewrite Hx. reflexivity.
      * exact Hx.
Qed.

(** X3. Rewriting a path that was already rewritten changes nothing: no
    colon that is left is followed by a word character. *)
Theorem replaceColon_idempotent s :
  replaceColon false (replaceColon false s) = replaceColon false s.
Proof. apply replaceColon_settled. Qed.

(** ** Path items *)

Lemma hasPath_lookupPath path paths :
  hasPath path paths = false <-> lookupPath path paths = None.
Proof.
  unfold hasPath, lookupPath.
  induction paths as [|[n i] paths IH]; simpl; [tauto|].
  destruct (String.eqb n path); simpl; [split; discriminate | exact IH].
Qed.

Lemma lookupPath_update_same path f paths :
  lookupPath path (updatePathItem path f paths)
  = option_map f (lookupPath path paths).
Proof.
  unfold lookupPath.
  induction paths as [|[n i] paths IH]; simpl; [reflexivity|].
  destruct (String.eqb n path) eqn:E; simpl; rewrite E; simpl;
    [reflexivity | exact IH].
Qed.

Lemma lookupPath_update_other path path' f paths :
  path' <> path ->
  lookupPath path' (updatePathItem path f paths) = lookupPath path' paths.
Proof.
  intros Hne. unfold lookupPath.
  induction paths as [|[n i] paths IH]; simpl; [reflexivity|].
  destruct (String.eqb n path) eqn:E; simpl.
  - apply String.eqb_eq in E. subst n.
    destruct (String.eqb_spec path path'); [congruence | reflexivity].
  - destruct (String.eqb n path'); [reflexivity | exact IH].
Qed.

Lemma lookupPath_app path paths name item :
  lookupPath path (paths ++ [(name, item)])
  = match lookupPath path paths with
    | Some i => Some i
    | None => if String.eqb name path then Some item else None
    end.
Proof.
  unfold lookupPath.
  induction paths as [|[n i] paths IH]; simpl.
  - destruct (String.eqb name path); reflexivity.
  - destruct (String.eqb n path); [reflexivity | exact IH].
Qed.

Lemma slotVerbs_cases m :
  In m slotVerbs ->
  m = "GET" \/ m = "POST" \/ m = "PUT" \/ m = "DELETE" \/ m = "PATCH"
  \/ m = "OPTIONS" \/ m = "HEAD".
Proof.
  unfold slotVerbs. simpl. intros H.
  repeat (destruct H as [H | H]; [subst; tauto|]). contradiction.
Qed.

Lemma slotOf_setOperation_same m op item :
  In m slotVerbs -> slotOf m (setOperation m op item) = Some op.
Proof.
  intros H. apply slotVerbs_cases in H.
  repeat (destruct H as [H | H]; [subst; reflexivity|]).
  subst. reflexivity.
Qed.

Lemma slotOf_setOperation_other m m' op item :
  In m slotVerbs -> In m' slotVerbs -> m' <> m ->
  slotOf m' (setOperation m op item) = slotOf m' item.
Proof.
  intros H H' Hne. apply slotVerbs_cases in H, H'.
  repeat (destruct H as [H | H]); subst;
    repeat (destruct H' as [H' | H']); subst;
    solve [reflexivity | congruence].
Qed.

(** X4. After an operation is attached under one of the seven slot verbs,
    the path item found under its path holds the operation in that verb's
    slot; the item's other slots and its servers are what the path had
    before, or empty when the path is new. *)
Theorem addOperationToDocument_lookup op path m st :
  In m slotVerbs ->
  exists st' item,
    addOperationToDocument op path m st = Ok (tt, st')
    /\ lookupPath path (d_Paths (doc st')) = Some item
    /\ slotOf m item = Some op
    /\ (forall m', In m' slotVerbs -> m' <> m ->
        slotOf m' item
        = slotOf m' (default emptyPathItem
                       (lookupPath path (d_Paths (doc st)))))
    /\ pi_Servers item
       = pi_Servers (default emptyPathItem
                       (lookupPath path (d_Paths (doc st)))).
Proof.
  intros Hm. unfold addOperationToDocument.
  eexists _, (setOperation m op
                (default emptyPathItem (lookupPath path (d_Paths (doc st))))).
  split; [reflexivity|]. simpl.
  split; [|split; [|split]].
  - rewrite lookupPath_update_same.
    destruct (hasPath path (d_Paths (doc st))) eqn:E.
    + destruct (lookupPath path (d_Paths (doc st))) eqn:L; [reflexivity|].
      apply hasPath_lookupPath in L. congruence.
    + rewrite lookupPath_app. apply hasPath_lookupPath in E. rewrite E.
      rewrite String.eqb_refl. reflexivity.
  - apply slotOf_setOperation_same, Hm.
  - intros m' Hm' Hne. apply slotOf_setOperation_other; assumption.
  - apply slotVerbs_cases in Hm.
    repeat (destruct Hm as [Hm | Hm]; [subst; reflexivity|]).
    subst. reflexivity.
Qed.

Lemma addOperationToDocument_lookup_witness :
  In "POST" slotVerbs
  /\ exists st' item,
       addOperationToDocument
         (ParseMethodOption_Operation noOverrides "S" "m") "/a" "POST"
         emptyState = Ok (tt, st')
       /\ lookupPath "/a" (d_Paths (doc st')) = Some item
       /\ slotOf "POST" item
          = Some (ParseMethodOption_Operation noOverrides "S" "m").
Proof.
  split; [right; left; reflexivity|].
  destruct (addOperationToDocument_lookup
              (ParseMethodOption_Operation noOverrides "S" "m") "/a" "POST"
              emptyState ltac:(right; left; reflexivity))
    as (st' & item & H1 & H2 & H3 & _).
  exists st', item. repeat split; assumption.
Defined.

(** X5. Attaching an operation under one path leaves the item of every
    other path, the component schemas, the tags and the two name lists of
    the generator as they were. *)
Theorem addOperationToDocument_other_paths op path m st st' path' :
  addOperationToDocument op path m st = Ok (tt, st') ->
  path' <> path ->
  lookupPath path' (d_Paths (doc st')) = lookupPath path' (d_Paths (doc st))
  /\ d_Schemas (doc st') = d_Schemas (doc st)
  /\ d_Tags (doc st') = d_Tags (doc st)
  /\ generatedSchemas st' = generatedSchemas st
  /\ requiredSchemas st' = requiredSchemas st.
Proof.
  unfold addOperationToDocument. intros H Hne.
  inversion H; subst; clear H. simpl. repeat split.
  rewrite lookupPath_update_other by exact Hne.
  destruct (hasPath path (d_Paths (doc st))); [reflexivity|].
  rewrite lookupPath_app.
  destruct (lookupPath path' (d_Paths (doc st))); [reflexivity|].
  destruct (String.eqb_spec path path'); [congruence | reflexivity].
Qed.

Lemma addOperationToDocument_other_paths_witness :
  exists st1 st2,
    addOperationToDocument
      (ParseMethodOption_Operation noOverrides "S" "a") "/a" "GET"
      emptyState = Ok (tt, st1)
    /\ addOperationToDocument
         (ParseMethodOption_Operation noOverrides "S" "b") "/b" "GET" st1
       = Ok (tt, st2)
    /\ "/a" <> "/b"
    /\ lookupPath "/a" (d_Paths (doc st2))
       = lookupPath "/a" (d_Paths (doc st1)).
Proof.
  eexists _, _. split; [reflexivity|]. split; [reflexivity|].
  split; [discriminate|].
  apply (addOperationToDocument_other_paths
           (ParseMethodOption_Operation noOverrides "S" "b") "/b" "GET"
           _ _ "/a" eq_refl).
  discriminate.
Defined.

(** ** What a run keeps *)

Lemma schemasAppended_refl st : schemasAppended st st.
Proof. exists []. rewrite !app_nil_r. split; reflexivity. Qed.

Lemma schemasAppended_same st st' :
  d_Schemas (doc st') = d_Schemas (doc st) ->
  generatedSchemas st' = generatedSchemas st ->
  schemasAppended st st'.
Proof.
  intros Hs Hg. exists []. rewrite Hs, Hg, !app_nil_r. split; reflexivity.
Qed.

Lemma schemasAppended_trans x y z :
  schemasAppended x y -> schemasAppended y z -> schemasAppended x z.
Proof.
  intros (e1 & H1 & G1) (e2 & H2 & G2). exists (e1 ++ e2).
  rewrite H2, H1, G2, G1, map_app, !app_assoc. split; reflexivity.
Qed.

#[local] Instance appendsSchemas_PreOrder : PreOrder appendsSchemas.
Proof.
  split.
  - intros st. repeat split; try reflexivity. apply schemasAppended_refl.
  - intros x y z (H1 & P1 & S1) (H2 & P2 & S2).
    split; [congruence|]. split; [congruence|].
    eapply schemasAppended_trans; eassumption.
Qed.

#[local] Instance assembles_PreOrder : PreOrder assembles.
Proof.
  split.
  - intros st. split; [reflexivity|].
    split; [apply schemasAppended_refl | auto].
  - intros x y z (H1 & S1 & N1) (H2 & S2 & N2).
    split; [congruence|].
    split; [eapply schemasAppended_trans; eassumption | auto].
Qed.

Lemma onlyRequired_appendsSchemas st st' :
  onlyRequired st st' -> appendsSchemas st st'.
Proof.
  unfold onlyRequired, emitted. intros H. inversion H as [[Hg Hd]].
  unfold appendsSchemas, pathsAndTags, schemasAppended. rewrite Hd, Hg.
  repeat split. exists []. rewrite !app_nil_r. split; reflexivity.
Qed.

Lemma appendsSchemas_assembles st st' :
  appendsSchemas st st' -> assembles st st'.
Proof.
  intros (H & P & S). split; [exact H|]. split; [exact S|].
  unfold pathsAndTags in P. inversion P as [[Hp Ht]]. rewrite Hp. auto.
Qed.

Lemma onlyRequired_assembles st st' :
  onlyRequired st st' -> assembles st st'.
Proof.
  intros H. apply appendsSchemas_assembles, onlyRequired_appendsSchemas, H.
Qed.

(** Inclusions between step relations, and the frame lemmas for the
    relations of this part. *)
Create HintDb incl.
Create HintDb frame2.
#[local] Hint Resolve onlyRequired_appendsSchemas appendsSchemas_assembles
  onlyRequired_assembles : incl.

Ltac frames_from R :=
  apply (respects_weaken R);
  [solve [auto with incl] | solve [auto with frame frame2]].

Ltac frames :=
  repeat first
    [ solve [auto with frame frame2]
    | frames_from onlyRequired
    | frames_from appendsSchemas
    | apply respects_ret; apply _
    | apply respects_panic
    | apply respects_index0; apply _
    | apply respects_bind; [apply _ | | intros ?]
    | apply respects_foldM; [apply _ | intros ? ?] ].

Lemma respects_appendsSchemas_addSchemaToDocument schema :
  respects appendsSchemas (addSchemaToDocument schema).
Proof.
  intros st a st' H. unfold addSchemaToDocument in H.
  destruct (Contains (generatedSchemas st) (fst schema));
    inversion H; subst; clear H.
  - reflexivity.
  - repeat split. exists [schema]. split; reflexivity.
Qed.
#[local] Hint Resolve respects_appendsSchemas_addSchemaToDocument : frame2.

Lemma respects_appendsSchemas_getResponseForStruct ov fileDesc desc :
  respects appendsSchemas (getResponseForStruct ov fileDesc desc).
Proof.
  unfold getResponseForStruct. destruct desc as [desc|]; frames.
  - unfold getResponseForStruct_header.
    destruct (annotationValues _ ApiHeader) as [|ext ?]; frames.
    destruct (String.eqb ext ""); frames.
  - destruct (hasProperties a0); frames.
  - destruct (hasProperties a1); frames.
Qed.
#[local] Hint Resolve respects_appendsSchemas_getResponseForStruct : frame2.

Lemma respects_appendsSchemas_buildOperation ov fileDesc methodName
    description operationID tagName path host inputDesc outputDesc :
  respects appendsSchemas
    (buildOperation ov fileDesc methodName description operationID tagName
       path host inputDesc outputDesc).
Proof.
  unfold buildOperation. destruct inputDesc as [i|]; frames.
  destruct outputDesc; frames.
Qed.
#[local] Hint Resolve respects_appendsSchemas_buildOperation : frame2.

Lemma respects_appendsSchemas_addSchemaForStruct ov fileDesc s :
  respects appendsSchemas (addSchemaForStruct ov fileDesc s).
Proof.
  unfold addSchemaForStruct. apply respects_get_bind. intros st.
  destruct (_ || _); frames.
  destruct (GetStructDescriptor fileDesc (sl_Name s)); frames.
  unfold addSchemas_field. frames.
  destruct a; frames.
Qed.
#[local] Hint Resolve respects_appendsSchemas_addSchemaForStruct : frame2.

(** The walk and the draining loop respect every preorder that the emission
    of one struct and the cut of the required names respect. *)
Lemma respects_walk ov fileDesc ast R `{!PreOrder R} :
  (forall s, respects R (addSchemaForStruct ov fileDesc s)) ->
  forall fuel structs,
    respects R (addSchemasForStructsToDocument ov fileDesc ast fuel structs).
Proof.
  intros Hs. induction fuel as [|fuel IH]; intros structs.
  - destruct structs; simpl; [apply respects_ret; apply _|].
    intros st a st' H. discriminate.
  - induction structs as [|[s|] rest IHrest].
    + simpl. apply respects_ret; apply _.
    + change (respects R
                (_ <- addSchemasForStructsToDocument ov fileDesc ast fuel
                        (nestedStructLikes ast s) ;;
                 _ <- addSchemaForStruct ov fileDesc s ;;
                 addSchemasForStructsToDocument ov fileDesc ast (S fuel)
                   rest)).
      apply respects_bind; [apply _ | apply IH | intros _].
      apply respects_bind; [apply _ | apply Hs | intros _]. exact IHrest.
    + simpl. apply respects_panic.
Qed.

Lemma respects_drain ov fileDesc ast R `{!PreOrder R} :
  (forall s, respects R (addSchemaForStruct ov fileDesc s)) ->
  (forall count st, R st (dropRequired count st)) ->
  forall fuel passes,
    respects R (drainRequiredSchemas ov fileDesc ast fuel passes).
Proof.
  intros Hs Hdrop fuel. induction passes as [|passes IH]; simpl;
    apply respects_get_bind; intros st;
    (destruct (requiredSchemas st); [apply respects_ret; apply _|]).
  - intros st0 a st' H. discriminate.
  - apply respects_bind;
      [apply _ | apply respects_walk; [apply _ | exact Hs] | intros _].
    apply (respects_modify_bind R (dropRequired _)); [|exact IH].
    intros st'. apply Hdrop.
Qed.

Lemma appendsSchemas_dropRequired count st :
  appendsSchemas st (dropRequired count st).
Proof.
  repeat split. exists []. simpl. rewrite !app_nil_r. split; reflexivity.
Qed.

Lemma hasPath_In path paths :
  hasPath path paths = false -> ~ In path (map fst paths).
Proof.
  unfold hasPath. intros H Hin. apply in_map_iff in Hin.
  destruct Hin as ([n i] & E & Hin). simpl in E. subst n.
  assert (Ht : existsb (fun p => String.eqb (fst p) path) paths = true).
  { apply existsb_exists. exists (path, i). split; [exact Hin|].
    apply String.eqb_refl. }
  congruence.
Qed.

Lemma updatePathItem_names path f paths :
  map fst (updatePathItem path f paths) = map fst paths.
Proof.
  induction paths as [|[n i] paths IH]; simpl; [reflexivity|].
  destruct (String.eqb n path); simpl; [reflexivity|].
  rewrite IH. reflexivity.
Qed.

Lemma respects_assembles_addOperationToDocument op path methodName :
  respects assembles (addOperationToDocument op path methodName).
Proof.
  intros st a st' H. unfold addOperationToDocument in H.
  inversion H; subst; clear H.
  split; [reflexivity|].
  split; [apply schemasAppended_same; reflexivity|].
  simpl. rewrite updatePathItem_names. intros Hnd.
  destruct (hasPath path (d_Paths (doc st))) eqn:E; [exact Hnd|].
  rewrite map_app. simpl. apply NoDup_app. split; [exact Hnd|]. split.
  - intros x Hx Hx'. apply list_elem_of_In in Hx, Hx'.
    destruct Hx' as [<- | []]. exact (hasPath_In _ _ E Hx).
  - apply NoDup_singleton.
Qed.
#[local] Hint Resolve respects_assembles_addOperationToDocument : frame2.

Ltac assembling :=
  repeat first
    [ solve [auto with frame2]
    | apply (respects_weaken onlyRequired);
      [apply onlyRequired_assembles | solve [auto with frame]]
    | apply (respects_weaken appendsSchemas);
      [apply appendsSchemas_assembles | solve [auto with frame2]]
    | apply respects_ret; apply _
    | apply respects_panic
    | apply respects_index0; apply _
    | apply respects_bind; [apply _ | | intros ?]
    | apply respects_foldM; [apply _ | intros ? ?] ].

Lemma respects_assembles_addPaths_function ov rt fileDesc s count f :
  respects assembles (addPaths_function ov rt fileDesc s count f).
Proof.
  unfold addPaths_function.
  destruct (map_to_list _) as [|e es]; assembling.
  unfold addPaths_verb. destruct (String.eqb (fst _) ""); assembling.
Qed.
#[local] Hint Resolve respects_assembles_addPaths_function : frame2.

Lemma respects_assembles_addPaths_service ov rt fileDesc s :
  respects assembles (addPaths_service ov rt fileDesc s).
Proof.
  unfold addPaths_service. assembling.
  destruct (Nat.ltb 0 a); [|assembling].
  apply respects_modify with
    (f := fun st => withDoc st (withTags (doc st) _)).
  intros st. split; [reflexivity|].
  split; [apply schemasAppended_same; reflexivity | auto].
Qed.
#[local] Hint Resolve respects_assembles_addPaths_service : frame2.

Lemma respects_assembles_addPathsToDocument ov rt fileDesc services :
  respects assembles (addPathsToDocument ov rt fileDesc services).
Proof. unfold addPathsToDocument. assembling. Qed.

(** The two phases of [BuildDocument] before the final passes. *)
Lemma respects_assembles_run ov rt fileDesc ast fuel :
  respects assembles
    (_ <- addPathsToDocument ov rt fileDesc (th_Services ast) ;;
     drainRequiredSchemas ov fileDesc ast fuel fuel).
Proof.
  apply respects_bind;
    [apply _ | apply respects_assembles_addPathsToDocument | intros _].
  apply (respects_weaken appendsSchemas);
    [apply appendsSchemas_assembles|].
  apply respects_drain; [apply _ | | apply appendsSchemas_dropRequired].
  intros s. apply respects_appendsSchemas_addSchemaForStruct.
Qed.

Lemma promoteSingleTag_paths d : d_Paths (promoteSingleTag d) = d_Paths d.
Proof.
  unfold promoteSingleTag. destruct (d_Tags d) as [|t [|t' ts]]; reflexivity.
Qed.

Lemma hoistPath_name allServers p :
  fst (fst (hoistPath allServers p)) = fst p.
Proof.
  unfold hoistPath.
  destruct (fst (collectServer _ _)) as [|u [|u' us]]; reflexivity.
Qed.

Lemma hoistServers_names paths :
  forall allServers,
    map fst (fst (hoistServers paths allServers)) = map fst paths.
Proof.
  induction paths as [|p paths IH]; intros allServers; simpl;
    [reflexivity|].
  rewrite hoistPath_name, IH. reflexivity.
Qed.

Lemma setServers_names d :
  map fst (d_Paths (setServers d)) = map fst (d_Paths d).
Proof.
  unfold setServers. simpl.
  destruct (snd (hoistServers (d_Paths d) [])) as [|u [|u' us]];
    try apply hoistServers_names.
  rewrite map_map. simpl. apply hoistServers_names.
Qed.

(** The state [BuildDocument] starts from when there is no document
    override, and what the run before the final passes keeps of it. *)
Lemma BuildDocument_run ov rt fileDesc ast fuel d :
  getDocumentOption ov ast = None ->
  BuildDocument ov rt fileDesc ast fuel = Ok d ->
  exists st,
    d = sortDocument (setServers (promoteSingleTag (doc st)))
    /\ assembles
         {| generatedSchemas := []; requiredSchemas := [];
            doc := initialDocument |} st.
Proof.
  unfold BuildDocument. intros -> H.
  destruct (bind _ _ _) as [[u st]| |] eqn:Hrun; try discriminate.
  inversion H; subst; clear H. exists st. split; [reflexivity|].
  exact (respects_assembles_run ov rt fileDesc ast fuel _ _ _ Hrun).
Qed.

(** X6. Without a document override, no two path items of a document
    [BuildDocument] returns have the same path: operations on one path share
    one item. *)
Theorem BuildDocument_path_names_distinct ov rt fileDesc ast fuel d :
  getDocumentOption ov ast = None ->
  BuildDocument ov rt fileDesc ast fuel = Ok d ->
  NoDup (map fst (d_Paths d)).
Proof.
  intros Hno H. destruct (BuildDocument_run _ _ _ _ _ _ Hno H)
    as (st & -> & _ & _ & Hnd).
  change (d_Paths (sortDocument (setServers (promoteSingleTag (doc st)))))
    with (sort_Slice (lessBy fst)
            (d_Paths (setServers (promoteSingleTag (doc st))))).
  rewrite (Permutation_map fst (sort_Slice_Permutation fst _)).
  rewrite setServers_names, promoteSingleTag_paths.
  apply Hnd. constructor.
Qed.

Lemma BuildDocument_path_names_distinct_witness :
  exists d,
    getDocumentOption noOverrides TwoVerbs.ast = None
    /\ BuildDocument noOverrides listedOrder TwoVerbs.fileDesc TwoVerbs.ast 3
       = Ok d
    /\ map fst (d_Paths d) = ["/a"; "/b"]
    /\ NoDup (map fst (d_Paths d)).
Proof.
  eexists. split; [reflexivity|]. split; [vm_compute; reflexivity|].
  split; [reflexivity|].
  apply (BuildDocument_path_names_distinct noOverrides listedOrder
           TwoVerbs.fileDesc TwoVerbs.ast 3);
    [reflexivity | vm_compute; reflexivity].
Defined.

(** X7. Component schemas are only ever added at the end of the list: every
    schema the document holds before the assembly of the paths, or before
    the draining loop, is still there afterwards, unchanged and in the same
    place, and the emitted names grow by the names of the added schemas. *)
Theorem component_schemas_only_grow ov rt fileDesc ast :
  (forall services st st',
      addPathsToDocument ov rt fileDesc services st = Ok (tt, st') ->
      schemasAppended st st')
  /\ (forall fuel passes st st',
         drainRequiredSchemas ov fileDesc ast fuel passes st = Ok (tt, st') ->
         schemasAppended st st').
Proof.
  split.
  - intros services st st' H.
    apply respects_assembles_addPathsToDocument in H. apply H.
  - intros fuel passes st st' H.
    assert (Hr : respects appendsSchemas
                   (drainRequiredSchemas ov fileDesc ast fuel passes)).
    { apply respects_drain; [apply _ | | apply appendsSchemas_dropRequired].
      intros s. apply respects_appendsSchemas_addSchemaForStruct. }
    apply Hr in H. apply H.
Qed.

Lemma component_schemas_only_grow_witness :
  exists st',
    addPathsToDocument noOverrides listedOrder Hello.fileDesc
      (th_Services Hello.ast) emptyState = Ok (tt, st')
    /\ map fst (d_Schemas (doc st')) = ["HelloResp"]
    /\ schemasAppended emptyState st'.
Proof.
  eexists. split; [vm_compute; reflexivity|]. split; [reflexivity|].
  apply (proj1 (component_schemas_only_grow noOverrides listedOrder
                  Hello.fileDesc Hello.ast) (th_Services Hello.ast)).
  vm_compute. reflexivity.
Defined.

Lemma sort_Slice_singleton_inv {A} (less : A -> A -> bool) l x :
  sort_Slice less l = [x] -> l = [x].
Proof.
  destruct l as [|y [|z l]]; simpl.
  - discriminate.
  - intros H. exact H.
  - intros H. exfalso.
    assert (Hlen : length (insertBy less y (insertBy less z
                                             (sort_Slice less l))) = 1)
      by (rewrite H; reflexivity).
    assert (Hins : forall a m, length (insertBy less a m) = S (length m)).
    { intros a m. induction m as [|b m IHm]; simpl; [reflexivity|].
      destruct (less b a); simpl; [rewrite IHm|]; reflexivity. }
    rewrite !Hins in Hlen. discriminate.
Qed.

(** X8. Without a document override, the document's version and info are
    the built-in ones, whatever the services say; when the document has
    exactly one tag, that tag's description is empty.  (The description of a
    single service is moved to the info only if the info has none, which the
    built-in info always has.) *)
Theorem BuildDocument_default_info ov rt fileDesc ast fuel d :
  getDocumentOption ov ast = None ->
  BuildDocument ov rt fileDesc ast fuel = Ok d ->
  d_Openapi d = "3.0.3"
  /\ d_Info d = {| in_Title := "API"; in_Description := "API description";
                  in_Version := "1.0.0" |}
  /\ (forall t, d_Tags d = [t] -> tg_Description t = "").
Proof.
  intros Hno H. destruct (BuildDocument_run _ _ _ _ _ _ Hno H)
    as (st & -> & Hh & _ & _).
  unfold headerOf in Hh. simpl in Hh. injection Hh as Ho Hi Hs.
  assert (Hinfo : d_Info (promoteSingleTag (doc st)) = d_Info (doc st)
                  /\ d_Openapi (promoteSingleTag (doc st))
                     = d_Openapi (doc st)).
  { unfold promoteSingleTag.
    destruct (d_Tags (doc st)) as [|t [|t' ts]]; try (split; reflexivity).
    simpl. rewrite Hi. split; reflexivity. }
  destruct Hinfo as [Hinfo Hopen].
  split; [|split].
  - change (d_Openapi (promoteSingleTag (doc st)) = "3.0.3").
    rewrite Hopen. exact Ho.
  - change (d_Info (sortDocument (setServers (promoteSingleTag (doc st)))))
      with (d_Info (promoteSingleTag (doc st))).
    rewrite Hinfo. exact Hi.
  - intros t Ht.
    change (sort_Slice (lessBy tg_Name) (d_Tags (promoteSingleTag (doc st)))
            = [t]) in Ht.
    apply sort_Slice_singleton_inv in Ht. unfold promoteSingleTag in Ht.
    destruct (d_Tags (doc st)) as [|t0 [|t1 ts]] eqn:E; simpl in Ht.
    + rewrite E in Ht. discriminate.
    + inversion Ht. reflexivity.
    + rewrite E in Ht. discriminate.
Qed.

Lemma BuildDocument_default_info_witness :
  exists d,
    getDocumentOption noOverrides Hello.ast = None
    /\ BuildDocument noOverrides listedOrder Hello.fileDesc Hello.ast 3
       = Ok d
    /\ in_Title (d_Info d) = "API"
    /\ d_Tags d = [{| tg_Name := "HelloService"; tg_Description := "" |}].
Proof.
  eexists. split; [reflexivity|]. split; [vm_compute; reflexivity|].
  split; [|reflexivity].
  destruct (BuildDocument_default_info noOverrides listedOrder
              Hello.fileDesc Hello.ast 3 _ eq_refl
              ltac:(vm_compute; reflexivity)) as (_ & Hi & _).
  rewrite Hi. reflexivity.
Defined.

(** ** Servers *)

Lemma AppendUnique_NoDup l u : NoDup l -> NoDup (AppendUnique l u).
Proof.
  intros Hl. unfold AppendUnique. destruct (Contains l u) eqn:E; [exact Hl|].
  apply NoDup_app. split; [exact Hl|]. split; [|apply NoDup_singleton].
  intros x Hx Hx'. apply list_elem_of_In in Hx, Hx'.
  destruct Hx' as [<- | []]. apply Contains_In in Hx. congruence.
Qed.

Lemma collectServer_NoDup o acc :
  NoDup (snd acc) -> NoDup (snd (collectServer o acc)).
Proof.
  intros H. unfold collectServer. destruct (singleServer o); [|exact H].
  simpl. apply AppendUnique_NoDup, H.
Qed.

Lemma hoistPath_NoDup allServers p :
  NoDup allServers -> NoDup (snd (hoistPath allServers p)).
Proof.
  intros H. unfold hoistPath.
  assert (Hacc : NoDup (snd (collectServer (pi_Patch (snd p))
                   (collectServer (pi_Delete (snd p))
                      (collectServer (pi_Put (snd p))
                         (collectServer (pi_Post (snd p))
                            (collectServer (pi_Get (snd p))
                               ([], allServers)))))))).
  { repeat apply collectServer_NoDup. exact H. }
  destruct (fst (collectServer _ _)) as [|u [|u' us]]; exact Hacc.
Qed.

Lemma hoistServers_NoDup paths :
  forall allServers,
    NoDup allServers -> NoDup (snd (hoistServers paths allServers)).
Proof.
  induction paths as [|p paths IH]; intros allServers H; simpl; [exact H|].
  apply IH, hoistPath_NoDup, H.
Qed.

(** X9. Without a document override, no URL occurs twice among the
    document-level servers of a document [BuildDocument] returns. *)
Theorem BuildDocument_servers_distinct ov rt fileDesc ast fuel d :
  getDocumentOption ov ast = None ->
  BuildDocument ov rt fileDesc ast fuel = Ok d ->
  NoDup (map srv_URL (d_Servers d)).
Proof.
  intros Hno H. destruct (BuildDocument_run _ _ _ _ _ _ Hno H)
    as (st & -> & Hh & _ & _).
  unfold headerOf in Hh. simpl in Hh. injection Hh as _ _ Hs.
  change (d_Servers (sortDocument (setServers (promoteSingleTag (doc st)))))
    with (d_Servers (setServers (promoteSingleTag (doc st)))).
  unfold setServers. simpl.
  pose proof (hoistServers_NoDup (d_Paths (promoteSingleTag (doc st))) []
                ltac:(constructor)) as Hnd.
  destruct (snd (hoistServers (d_Paths (promoteSingleTag (doc st))) []))
    as [|u us] eqn:E.
  - assert (Hp : d_Servers (promoteSingleTag (doc st)) = d_Servers (doc st)).
    { unfold promoteSingleTag.
      destruct (d_Tags (doc st)) as [|t [|t' ts]]; reflexivity. }
    rewrite Hp, Hs. constructor.
  - rewrite map_map. simpl. rewrite map_id. exact Hnd.
Qed.

Lemma BuildDocument_servers_distinct_witness :
  exists d,
    getDocumentOption noOverrides OneServer.ast = None
    /\ BuildDocument noOverrides listedOrder OneServer.fileDesc
         OneServer.ast 3 = Ok d
    /\ map srv_URL (d_Servers d) = ["http://api.example.com"]
    /\ NoDup (map srv_URL (d_Servers d)).
Proof.
  eexists. split; [reflexivity|]. split; [vm_compute; reflexivity|].
  split; [reflexivity|].
  apply (BuildDocument_servers_distinct noOverrides listedOrder
           OneServer.fileDesc OneServer.ast 3);
    [reflexivity | vm_compute; reflexivity].
Defined.

Lemma prefix_http host :
  String.prefix "http://" ("http://" ++ host)%string = true.
Proof. destruct host; reflexivity. Qed.

(** X10. The operation [buildOperation] returns has no server when the
    host is empty, and otherwise exactly one, whose URL is the host itself
    when that begins with [http://] or [https://] and the host behind
    [http://] when it does not; either way the URL has a scheme. *)
Theorem buildOperation_servers ov fileDesc methodName description operationID
    tagName path host inputDesc outputDesc st op path' st' :
  buildOperation ov fileDesc methodName description operationID tagName path
    host inputDesc outputDesc st = Ok ((op, path'), st') ->
  (host = "" /\ op_Servers op = [])
  \/ (host <> ""
      /\ exists url,
           op_Servers op = [{| srv_URL := url |}]
           /\ hasScheme url = true
           /\ url = (if hasScheme host then host
                     else ("http://" ++ host)%string)).
Proof.
  unfold buildOperation. intros H.
  destruct inputDesc as [i|]; [|discriminate].
  bind_inv H. bind_inv H. bind_inv H.
  destruct outputDesc as [o|]; [|discriminate].
  ret_inv H. simpl.
  destruct (String.eqb_spec host ""); [left; split; [assumption|reflexivity]|].
  right. split; [assumption|]. unfold hasScheme.
  destruct (String.prefix "http://" host) eqn:E1; simpl.
  - eexists. split; [reflexivity|]. rewrite E1. split; reflexivity.
  - destruct (String.prefix "https://" host) eqn:E2; simpl.
    + eexists. split; [reflexivity|]. rewrite E2, orb_true_r.
      split; reflexivity.
    + eexists. split; [reflexivity|]. rewrite prefix_http.
      split; reflexivity.
Qed.

Lemma buildOperation_servers_witness :
  (exists op path' st',
      buildOperation noOverrides Hello.fileDesc "GET" "" "S_m" "S" "/x"
        "127.0.0.1:8080" (Some Hello.HelloReq) (Some Hello.HelloResp)
        emptyState = Ok ((op, path'), st')
      /\ op_Servers op = [{| srv_URL := "http://127.0.0.1:8080" |}])
  /\ (exists op path' st',
        buildOperation noOverrides Hello.fileDesc "GET" "" "S_m" "S" "/x"
          "https://api.example.com" (Some Hello.HelloReq)
          (Some Hello.HelloResp) emptyState = Ok ((op, path'), st')
        /\ op_Servers op = [{| srv_URL := "https://api.example.com" |}]).
Proof.
  split.
  - eexists _, _, _. split; [vm_compute; reflexivity|].
    destruct (buildOperation_servers noOverrides Hello.fileDesc "GET" ""
                "S_m" "S" "/x" "127.0.0.1:8080" (Some Hello.HelloReq)
                (Some Hello.HelloResp) emptyState _ _ _
                ltac:(vm_compute; reflexivity))
      as [[Hh _] | (_ & url & Hs & _ & Hu)]; [discriminate Hh|].
    rewrite Hs, Hu. reflexivity.
  - eexists _, _, _. split; [vm_compute; reflexivity|].
    destruct (buildOperation_servers noOverrides Hello.fileDesc "GET" ""
                "S_m" "S" "/x" "https://api.example.com"
                (Some Hello.HelloReq) (Some Hello.HelloResp) emptyState
                _ _ _ ltac:(vm_compute; reflexivity))
      as [[Hh _] | (_ & url & Hs & _ & Hu)]; [discriminate Hh|].
    rewrite Hs, Hu. reflexivity.
Defined.

(** ** Emission of schemas *)

(** X11. The first schema emitted under a name wins: once a schema has been
    added under a name, adding another one under that name changes
    nothing. *)
Theorem addSchemaToDocument_first_wins name s1 s2 st st1 :
  addSchemaToDocument (name, s1) st = Ok (tt, st1) ->
  addSchemaToDocument (name, s2) st1 = Ok (tt, st1).
Proof.
  unfold addSchemaToDocument. simpl. intros H.
  destruct (Contains (generatedSchemas st) name) eqn:E;
    inversion H; subst; clear H.
  - rewrite E. reflexivity.
  - simpl.
    assert (Hc : Contains (generatedSchemas st ++ [name]) name = true).
    { apply Contains_In, in_or_app. right. left. reflexivity. }
    rewrite Hc. reflexivity.
Qed.

Lemma addSchemaToDocument_first_wins_witness :
  exists st1,
    addSchemaToDocument ("R", inlineSchema (typedSchema "object" ""))
      emptyState = Ok (tt, st1)
    /\ addSchemaToDocument ("R", inlineSchema (typedSchema "string" "")) st1
       = Ok (tt, st1).
Proof.
  eexists. split; [reflexivity|].
  apply (addSchemaToDocument_first_wins "R"
           (inlineSchema (typedSchema "object" ""))
           (inlineSchema (typedSchema "string" "")) emptyState).
  reflexivity.
Defined.

(** ** Methods without verb annotations *)

Lemma find_none_intro {A} (f : A -> bool) l :
  (forall x, In x l -> f x = false) -> find f l = None.
Proof.
  induction l as [|y l IH]; simpl; intros H; [reflexivity|].
  rewrite (H y (or_introl eq_refl)). apply IH.
  intros x Hx. apply H. right. exact Hx.
Qed.

Lemma GetAnnotations_no_key input targets :
  (forall a, In a input -> ~ In (an_Key a) (map fst targets)) ->
  GetAnnotations input targets = ∅.
Proof.
  intros Hno. unfold GetAnnotations.
  induction targets as [|[k t] targets IH]; simpl; [reflexivity|].
  assert (Hfind : find (fun a => String.eqb (an_Key a) k) input = None).
  { apply find_none_intro. intros a Ha.
    destruct (String.eqb_spec (an_Key a) k) as [E|]; [|reflexivity].
    exfalso. apply (Hno a Ha). left. symmetry. exact E. }
  rewrite Hfind. apply IH.
  intros a Ha Hin. apply (Hno a Ha). right. exact Hin.
Qed.

(** X12. A service none of whose methods carries a verb annotation adds
    nothing: no operation, no path, no tag, no required name. *)
Theorem addPaths_service_without_verbs ov rt fileDesc s st :
  (forall f a, In f (sv_Functions s) -> In a (fn_Annotations f) ->
               ~ In (an_Key a) verbKeys) ->
  addPaths_service ov rt fileDesc s st = Ok (tt, st).
Proof.
  intros Hno. unfold addPaths_service.
  assert (Hfold : forall fs, (forall f, In f fs -> In f (sv_Functions s)) ->
            foldM (addPaths_function ov rt fileDesc s) fs 0 st
            = Ok (0, st)).
  { induction fs as [|f fs IH]; intros Hsub; simpl; [reflexivity|].
    unfold bind at 1. unfold addPaths_function at 1.
    rewrite (GetAnnotations_no_key (fn_Annotations f) HttpMethodAnnotations)
      by (intros a Ha; apply (Hno f a); [apply Hsub; left; reflexivity
                                        | exact Ha]).
    rewrite map_to_list_empty. simpl.
    apply IH. intros g Hg. apply Hsub. right. exact Hg. }
  unfold bind. rewrite (Hfold (sv_Functions s) (fun f H => H)). reflexivity.
Qed.

Lemma addPaths_service_without_verbs_witness :
  addPaths_service noOverrides listedOrder Hello.fileDesc
    {| sv_Name := "Plain";
       sv_Functions :=
         [ method "Call" [ {| an_Key := "api.category";
                              an_Values := ["demo"] |} ] ];
       sv_Annotations := []; sv_ReservedComments := "plain" |} emptyState
  = Ok (tt, emptyState).
Proof.
  apply addPaths_service_without_verbs.
  intros f a [<- | []] [<- | []]. vm_compute.
  intros H. repeat (destruct H as [H | H]; [discriminate H|]). exact H.
Defined.

(** ** Body buckets *)

Lemma getSchemaByOption_result ov fileDesc desc option st schema st' :
  getSchemaByOption ov fileDesc desc option st = Ok (schema, st') ->
  exists props required,
    foldM (getSchemaByOption_field ov fileDesc option
             (overrideRequired ov desc)) (sd_Fields desc) ([], []) st
    = Ok ((props, required), st')
    /\ sc_Required schema = required
    /\ sc_Properties schema = mergeList props (overrideProperties ov desc)
    /\ (ParseStructOption_Schema ov desc = None ->
        schema = mkSchema "object" "" "" "" props required None None).
Proof.
  unfold getSchemaByOption, overrideRequired, overrideProperties.
  intros H. apply bind_Ok in H.
  destruct H as ([props required] & st0 & Hfold & H).
  apply ret_Ok in H. injection H as Hs Hst. subst st0.
  exists props, required. split; [exact Hfold|]. subst schema.
  destruct (ParseStructOption_Schema ov desc) as [e|]; simpl;
    repeat split; try reflexivity; discriminate.
Qed.

Lemma getSchemaByOption_field_required ov fileDesc option allRequired acc
    field st acc' st' :
  getSchemaByOption_field ov fileDesc option allRequired acc field st
  = Ok (acc', st') ->
  forall x, In x (snd acc') -> In x (snd acc) \/ In x allRequired.
Proof.
  unfold getSchemaByOption_field. intros H x.
  destruct (fd_Annotations field !! option) as [values|];
    [|ret_inv H; auto].
  bind_inv H. bind_inv H.
  assert (Hreq : In x (if Contains allRequired
                            (if String.eqb a "" then fd_Name field else a)
                       then snd acc ++
                              [if String.eqb a "" then fd_Name field else a]
                       else snd acc) ->
                 In x (snd acc) \/ In x allRequired).
  { destruct (Contains allRequired _) eqn:E; [|auto].
    intros Hin. apply in_app_or in Hin. destruct Hin as [Hin | [<- | []]];
      [auto|]. right. apply Contains_In, E. }
  destruct a0 as [fs|]; ret_inv H; simpl; exact Hreq.
Qed.

(** X13. The required list of a body-bucket schema comes from the struct's
    schema override alone: every name in it is listed as required by the
    override, so without an override it is empty, and then the schema is a
    plain object holding the collected properties. *)
Theorem getSchemaByOption_required ov fileDesc desc option st schema st' :
  getSchemaByOption ov fileDesc desc option st = Ok (schema, st') ->
  (forall x, In x (sc_Required schema) -> In x (overrideRequired ov desc))
  /\ (ParseStructOption_Schema ov desc = None ->
      sc_Required schema = []
      /\ schema = mkSchema "object" "" "" "" (sc_Properties schema) []
                    None None).
Proof.
  intros H. apply getSchemaByOption_result in H.
  destruct H as (props & required & Hfold & Hr & Hp & Hnone).
  assert (Hin : forall x, In x required -> In x (overrideRequired ov desc)).
  { assert (Hgen : forall fields acc st1 acc' st2,
              foldM (getSchemaByOption_field ov fileDesc option
                       (overrideRequired ov desc)) fields acc st1
              = Ok (acc', st2) ->
              forall x, In x (snd acc') ->
                        In x (snd acc) \/ In x (overrideRequired ov desc)).
    { induction fields as [|f fields IH]; simpl; intros acc st1 acc' st2 Hf x.
      - ret_inv Hf. auto.
      - bind_inv Hf. intros Hx. destruct (IH _ _ _ _ Hf x Hx) as [Hx' | Hx'];
          [|auto].
        eapply getSchemaByOption_field_required; eassumption. }
    intros x Hx. destruct (Hgen _ _ _ _ _ Hfold x Hx) as [[] | Hx'].
    exact Hx'. }
  split.
  - intros x Hx. rewrite Hr in Hx. apply Hin, Hx.
  - intros Hno. specialize (Hnone Hno).
    assert (Hreq : required = []).
    { destruct required as [|x r]; [reflexivity|]. exfalso.
      specialize (Hin x (or_introl eq_refl)).
      unfold overrideRequired in Hin. rewrite Hno in Hin. exact Hin. }
    split; [rewrite Hr; exact Hreq|].
    rewrite Hnone. simpl. rewrite Hreq. reflexivity.
Qed.

Lemma getSchemaByOption_required_witness :
  exists schema st',
    getSchemaByOption noOverrides Hello.fileDesc BodyReq ApiBody emptyState
    = Ok (schema, st')
    /\ map fst (sc_Properties schema) = ["body"]
    /\ sc_Required schema = [].
Proof.
  eexists _, _. split; [vm_compute; reflexivity|]. split; [reflexivity|].
  apply (proj2 (getSchemaByOption_required noOverrides Hello.fileDesc
                  BodyReq ApiBody emptyState _ _
                  ltac:(vm_compute; reflexivity)) eq_refl).
Defined.

Lemma getSchemaByOption_unannotated ov fileDesc desc option st :
  (forall f, In f (sd_Fields desc) -> fd_Annotations f !! option = None) ->
  overrideProperties ov desc = [] ->
  exists schema,
    getSchemaByOption ov fileDesc desc option st = Ok (schema, st)
    /\ hasProperties schema = false.
Proof.
  intros Hno Hov. unfold getSchemaByOption.
  assert (Hfold : forall fields,
            (forall f, In f fields -> fd_Annotations f !! option = None) ->
            forall allRequired acc,
              foldM (getSchemaByOption_field ov fileDesc option allRequired)
                fields acc st = Ok (acc, st)).
  { induction fields as [|f fields IH]; intros Hf allRequired acc; simpl;
      [reflexivity|].
    unfold bind at 1. unfold getSchemaByOption_field at 1.
    rewrite (Hf f (or_introl eq_refl)). simpl.
    apply IH. intros g Hg. apply Hf. right. exact Hg. }
  unfold bind. rewrite (Hfold _ Hno). simpl.
  eexists. split; [reflexivity|].
  unfold hasProperties, overrideProperties in *. simpl.
  destruct (ParseStructOption_Schema ov desc) as [e|]; simpl;
    [rewrite Hov|]; reflexivity.
Qed.

(** X14. When no field of the input struct sits in a body bucket (and the
    struct's schema override supplies no properties), the operation gets no
    request body under any verb, and building it changes nothing. *)
Theorem buildRequestBody_without_body_fields ov fileDesc methodName
    inputDesc st :
  (forall f option, In f (sd_Fields inputDesc) ->
                    In option [ApiBody; ApiForm; ApiRawBody] ->
                    fd_Annotations f !! option = None) ->
  overrideProperties ov inputDesc = [] ->
  buildRequestBody ov fileDesc methodName inputDesc st = Ok (None, st).
Proof.
  intros Hno Hov. unfold buildRequestBody.
  destruct (_ && _); [|reflexivity].
  destruct (getSchemaByOption_unannotated ov fileDesc inputDesc ApiBody st)
    as (b & Eb & Hb); [intros f Hf; apply Hno; simpl; auto | exact Hov|].
  destruct (getSchemaByOption_unannotated ov fileDesc inputDesc ApiForm st)
    as (fo & Ef & Hf); [intros f Hf; apply Hno; simpl; auto | exact Hov|].
  destruct (getSchemaByOption_unannotated ov fileDesc inputDesc ApiRawBody st)
    as (r & Er & Hr); [intros f Hf'; apply Hno; simpl; auto | exact Hov|].
  unfold bind. rewrite Eb, Ef, Er. unfold mediaTypeOf.
  rewrite Hb, Hf, Hr. reflexivity.
Qed.

Lemma buildRequestBody_without_body_fields_witness :
  buildRequestBody noOverrides Hello.fileDesc "POST" Hello.HelloReq
    emptyState = Ok (None, emptyState).
Proof.
  apply buildRequestBody_without_body_fields; [|reflexivity].
  intros f option [<- | [<- | []]] [<- | [<- | [<- | []]]];
    vm_compute; reflexivity.
Defined.

(** ** Termination *)

Lemma fuelFree_ret {A} (a : A) : fuelFree (ret a).
Proof. intros st. discriminate. Qed.

Lemma fuelFree_panic {A} : fuelFree (@panic A).
Proof. intros st. discriminate. Qed.

Lemma fuelFree_bind {A B} (c : Gen A) (k : A -> Gen B) :
  fuelFree c -> (forall a, fuelFree (k a)) -> fuelFree (bind c k).
Proof.
  intros Hc Hk st. unfold bind. specialize (Hc st).
  destruct (c st) as [[a st']| |]; [apply Hk | discriminate | congruence].
Qed.

Lemma fuelFree_foldM {A B} (f : B -> A -> Gen B) l :
  (forall b x, fuelFree (f b x)) -> forall b, fuelFree (foldM f l b).
Proof.
  intros Hf. induction l as [|x l IH]; simpl; intros b.
  - apply fuelFree_ret.
  - apply fuelFree_bind; [apply Hf | intros; apply IH].
Qed.

Lemma fuelFree_index0 {A} (l : list A) : fuelFree (index0 l).
Proof. destruct l; [apply fuelFree_panic | apply fuelFree_ret]. Qed.

Lemma fuelFree_get_bind {A} (k : GenState -> Gen A) :
  (forall st, fuelFree (k st)) -> fuelFree (bind get k).
Proof. intros Hk st. exact (Hk st st). Qed.

Lemma fuelFree_state {A} (f : GenState -> A * GenState) :
  fuelFree (fun st => Ok (f st)).
Proof. intros st. discriminate. Qed.

Create HintDb fuel.

Ltac fuelfree :=
  repeat first
    [ solve [auto with fuel]
    | apply fuelFree_ret
    | apply fuelFree_panic
    | apply fuelFree_index0
    | apply fuelFree_bind; [| intros ?]
    | apply fuelFree_foldM; intros ? ?
    | solve [intros ?; discriminate] ].

Lemma fuelFree_schemaOrReferenceForField fileDesc t :
  fuelFree (schemaOrReferenceForField fileDesc t).
Proof.
  intros st.
  destruct (schemaOrReferenceForField_total fileDesc t st) as (r & st' & E).
  rewrite E. discriminate.
Qed.
#[local] Hint Resolve fuelFree_schemaOrReferenceForField : fuel.

Lemma fuelFree_getSchemaByOption ov fileDesc desc option :
  fuelFree (getSchemaByOption ov fileDesc desc option).
Proof.
  unfold getSchemaByOption. fuelfree. unfold getSchemaByOption_field.
  destruct (fd_Annotations _ !! option); fuelfree.
  destruct a0; fuelfree.
Qed.
#[local] Hint Resolve fuelFree_getSchemaByOption : fuel.

Lemma fuelFree_addSchemaToDocument schema :
  fuelFree (addSchemaToDocument schema).
Proof.
  intros st. unfold addSchemaToDocument.
  destruct (Contains _ _); discriminate.
Qed.
#[local] Hint Resolve fuelFree_addSchemaToDocument : fuel.

Lemma fuelFree_getResponseForStruct ov fileDesc desc :
  fuelFree (getResponseForStruct ov fileDesc desc).
Proof.
  unfold getResponseForStruct. destruct desc as [desc|]; fuelfree.
  - unfold getResponseForStruct_header.
    destruct (annotationValues _ ApiHeader) as [|ext ?]; fuelfree.
    destruct (String.eqb ext ""); fuelfree.
  - destruct (hasProperties a0); fuelfree.
  - destruct (hasProperties a1); fuelfree.
Qed.
#[local] Hint Resolve fuelFree_getResponseForStruct : fuel.

Lemma fuelFree_locationBlock ov fileDesc key loc sr v vars :
  fuelFree (locationBlock ov fileDesc key loc sr v vars).
Proof.
  unfold locationBlock.
  destruct (annotationValues v key) as [|ext ?]; fuelfree.
  destruct (String.eqb ext ""); fuelfree.
  destruct (annotationValues v OpenapiProperty); fuelfree.
  destruct a as [fs|]; fuelfree. destruct (sor_Schema fs); fuelfree.
Qed.
#[local] Hint Resolve fuelFree_locationBlock : fuel.

Lemma fuelFree_buildOperation_field ov fileDesc params v :
  fuelFree (buildOperation_field ov fileDesc params v).
Proof.
  unfold buildOperation_field, fieldLocation. fuelfree.
  destruct (_ && _); fuelfree.
Qed.
#[local] Hint Resolve fuelFree_buildOperation_field : fuel.

Lemma fuelFree_buildRequestBody ov fileDesc methodName inputDesc :
  fuelFree (buildRequestBody ov fileDesc methodName inputDesc).
Proof.
  unfold buildRequestBody. destruct (_ && _); fuelfree.
  destruct (_ ++ _); fuelfree.
Qed.
#[local] Hint Resolve fuelFree_buildRequestBody : fuel.

Lemma fuelFree_buildOperation ov fileDesc methodName description operationID
    tagName path host inputDesc outputDesc :
  fuelFree
    (buildOperation ov fileDesc methodName description operationID tagName
       path host inputDesc outputDesc).
Proof.
  unfold buildOperation. destruct inputDesc as [i|]; fuelfree.
  destruct outputDesc; fuelfree.
Qed.
#[local] Hint Resolve fuelFree_buildOperation : fuel.

Lemma fuelFree_addOperationToDocument op path methodName :
  fuelFree (addOperationToDocument op path methodName).
Proof. intros st. discriminate. Qed.
#[local] Hint Resolve fuelFree_addOperationToDocument : fuel.

Lemma fuelFree_addPaths_verb ov fileDesc s f i o count entry :
  fuelFree (addPaths_verb ov fileDesc s f i o count entry).
Proof.
  unfold addPaths_verb. destruct (String.eqb (fst entry) ""); fuelfree.
Qed.
#[local] Hint Resolve fuelFree_addPaths_verb : fuel.

Lemma fuelFree_addPaths_function ov rt fileDesc s count f :
  fuelFree (addPaths_function ov rt fileDesc s count f).
Proof.
  unfold addPaths_function. destruct (map_to_list _); fuelfree.
Qed.
#[local] Hint Resolve fuelFree_addPaths_function : fuel.

Lemma fuelFree_addPathsToDocument ov rt fileDesc services :
  fuelFree (addPathsToDocument ov rt fileDesc services).
Proof.
  unfold addPathsToDocument. fuelfree. unfold addPaths_service. fuelfree.
  destruct (Nat.ltb 0 _); fuelfree.
Qed.

Lemma fuelFree_propertyName_option field extName option :
  fuelFree (propertyName_option field extName option).
Proof.
  unfold propertyName_option. destruct (fd_Annotations _ !! _); fuelfree.
Qed.
#[local] Hint Resolve fuelFree_propertyName_option : fuel.

Lemma fuelFree_addSchemaForStruct ov fileDesc s :
  fuelFree (addSchemaForStruct ov fileDesc s).
Proof.
  unfold addSchemaForStruct. apply fuelFree_get_bind. intros st.
  destruct (_ || _); fuelfree.
  destruct (GetStructDescriptor fileDesc (sl_Name s)); fuelfree.
  unfold addSchemas_field. fuelfree.
  destruct a; fuelfree.
Qed.
#[local] Hint Resolve fuelFree_addSchemaForStruct : fuel.

Lemma not_Ok_not_OutOfFuel {A} (r : Result A) :
  (forall a, r <> Ok a) -> r <> OutOfFuel -> r = Panic.
Proof.
  destruct r; [intros H; exfalso; exact (H a eq_refl) | auto | congruence].
Qed.

Lemma buildOperation_without_output ov fileDesc methodName description
    operationID tagName path host inputDesc st :
  buildOperation ov fileDesc methodName description operationID tagName path
    host inputDesc None st = Panic.
Proof.
  apply not_Ok_not_OutOfFuel; [|apply fuelFree_buildOperation].
  intros [[op p] st'] H. unfold buildOperation in H.
  destruct inputDesc as [i|]; [|discriminate].
  bind_inv H. bind_inv H. bind_inv H. discriminate.
Qed.

Lemma GetAnnotations_lookup input targets verb values :
  GetAnnotations input targets !! verb = Some values ->
  In verb (map snd targets).
Proof.
  unfold GetAnnotations.
  induction targets as [|[k t] targets IH]; simpl.
  - rewrite lookup_empty. discriminate.
  - destruct (find _ input) as [a|]; [|auto].
    destruct (decide (t = verb)) as [->|Hne]; [auto|].
    rewrite lookup_insert_ne by exact Hne. auto.
Qed.

Lemma GetAnnotations_nonempty input targets a :
  In a input -> In (an_Key a) (map fst targets) ->
  GetAnnotations input targets <> ∅.
Proof.
  intros Ha. unfold GetAnnotations.
  induction targets as [|[k t] targets IH]; simpl; [contradiction|].
  intros [E | Hin].
  - subst k.
    destruct (find (fun a0 => String.eqb (an_Key a0) (an_Key a)) input)
      as [a'|] eqn:F.
    + apply insert_non_empty.
    + apply (find_none _ _ F) in Ha. rewrite String.eqb_refl in Ha.
      discriminate.
  - destruct (find _ input); [apply insert_non_empty | apply IH, Hin].
Qed.

(** X15. A method that carries a verb annotation and whose return type has
    no struct descriptor in the registry (a [void] or a basic return type)
    stops the generator: the response is built from the nil descriptor. *)
Theorem addPaths_function_without_result_struct ov rt fileDesc s count f st a :
  In a (fn_Annotations f) ->
  In (an_Key a) verbKeys ->
  GetStructDescriptor fileDesc (pt_Name (fn_FunctionType f)) = None ->
  addPaths_function ov rt fileDesc s count f st = Panic.
Proof.
  intros Ha Hkey Hout. unfold addPaths_function.
  pose proof (GetAnnotations_nonempty _ HttpMethodAnnotations a Ha Hkey)
    as Hne.
  destruct (map_to_list (GetAnnotations (fn_Annotations f)
                           HttpMethodAnnotations)) as [|e es] eqn:El.
  { apply map_to_list_empty_iff in El. contradiction. }
  rewrite Hout.
  pose proof (range_perm rt (sv_Name s) (fn_Name f) (e :: es)) as Hp.
  destruct (range_order rt (sv_Name s) (fn_Name f) (e :: es))
    as [|[verb values] rest] eqn:Er.
  { apply Permutation_nil in Hp. discriminate. }
  assert (Hverb : verb <> "").
  { assert (Hin : In (verb, values) (e :: es)).
    { eapply Permutation_in; [exact Hp | left; reflexivity]. }
    rewrite <- El in Hin. apply list_elem_of_In, elem_of_map_to_list in Hin.
    apply GetAnnotations_lookup in Hin. simpl in Hin.
    intros ->. repeat (destruct Hin as [Hin | Hin]; [discriminate Hin|]).
    exact Hin. }
  simpl. apply bind_Panic. unfold addPaths_verb. simpl.
  destruct (String.eqb_spec verb ""); [contradiction|].
  unfold bind at 1. destruct (index0 values st) as [[p0 st0]| |] eqn:Ei;
    [|reflexivity | destruct values; discriminate].
  apply bind_Panic. apply buildOperation_without_output.
Qed.

Lemma addPaths_function_without_result_struct_witness :
  addPaths_function noOverrides listedOrder Hello.fileDesc
    {| sv_Name := "S"; sv_Functions := []; sv_Annotations := [];
       sv_ReservedComments := "" |} 0
    {| fn_Name := "Ping"; fn_FunctionType := basicType "void";
       fn_Arguments :=
         [ {| pf_Name := "req"; pf_Type := structType "HelloReq" |} ];
       fn_Annotations := [ {| an_Key := ApiGet; an_Values := ["/ping"] |} ];
       fn_ReservedComments := "" |} emptyState
  = Panic.
Proof.
  apply (addPaths_function_without_result_struct noOverrides listedOrder
           Hello.fileDesc _ 0 _ emptyState
           {| an_Key := ApiGet; an_Values := ["/ping"] |}).
  - left. reflexivity.
  - left. reflexivity.
  - reflexivity.
Defined.

Lemma getStructLikeByName_In ast name s :
  getStructLikeByName ast name = Some s -> In s (th_StructLikes ast).
Proof. unfold getStructLikeByName. intros H. apply (find_some _ _ H). Qed.

Lemma nestedStructLikes_In ast s s' :
  In (Some s') (nestedStructLikes ast s) -> In s' (th_StructLikes ast).
Proof.
  unfold nestedStructLikes. intros H. apply in_map_iff in H.
  destruct H as (f & E & _). eapply getStructLikeByName_In. exact E.
Qed.

(** With a rank, the walk over a list of struct-likes of the file ends when
    the fuel exceeds the successor of every rank in the list. *)
Lemma fuelFree_walk ov fileDesc ast rank :
  ranked ast rank ->
  forall fuel structs,
    0 < fuel ->
    (forall s, In (Some s) structs ->
               In s (th_StructLikes ast) /\ S (rank s) < fuel) ->
    fuelFree (addSchemasForStructsToDocument ov fileDesc ast fuel structs).
Proof.
  intros Hrank. induction fuel as [|fuel IH]; intros structs Hpos Hs; [lia|].
  induction structs as [|[s|] rest IHrest].
  - simpl. apply fuelFree_ret.
  - change (fuelFree
              (_ <- addSchemasForStructsToDocument ov fileDesc ast fuel
                      (nestedStructLikes ast s) ;;
               _ <- addSchemaForStruct ov fileDesc s ;;
               addSchemasForStructsToDocument ov fileDesc ast (S fuel) rest)).
    destruct (Hs s (or_introl eq_refl)) as [Hin Hlt].
    apply fuelFree_bind.
    + apply IH; [lia|]. intros s' Hs'. split.
      * eapply nestedStructLikes_In. exact Hs'.
      * pose proof (Hrank s s' Hin Hs'). lia.
    + intros _. apply fuelFree_bind; [apply fuelFree_addSchemaForStruct|].
      intros _. apply IHrest. intros s' Hs'. apply Hs. right. exact Hs'.
  - simpl. apply fuelFree_panic.
Qed.

Lemma respects_onlyRequired_fields ov fileDesc fields properties :
  respects onlyRequired
    (foldM (addSchemas_field ov fileDesc) fields properties).
Proof.
  apply respects_foldM; [apply _|]. intros b x.
  unfold addSchemas_field. frame. destruct a; frame.
Qed.

Lemma pending_le ast st st' :
  (forall x, In x (generatedSchemas st) -> In x (generatedSchemas st')) ->
  pending ast st' <= pending ast st.
Proof.
  intros Hsub. unfold pending.
  induction (th_StructLikes ast) as [|s l IH]; simpl; [lia|].
  destruct (Contains (generatedSchemas st) (sl_Name s)) eqn:E; simpl.
  - apply Contains_In, Hsub, Contains_In in E. rewrite E. simpl. exact IH.
  - destruct (Contains (generatedSchemas st') (sl_Name s)); simpl; lia.
Qed.

Lemma pending_emit ast st st' s :
  In s (th_StructLikes ast) ->
  Contains (generatedSchemas st) (sl_Name s) = false ->
  generatedSchemas st' = generatedSchemas st ++ [sl_Name s] ->
  pending ast st' < pending ast st.
Proof.
  intros Hin Hnew Hgen. unfold pending.
  assert (Hsub : forall x, In x (generatedSchemas st) ->
                           In x (generatedSchemas st')).
  { intros x Hx. rewrite Hgen. apply in_or_app. left. exact Hx. }
  assert (Hs : Contains (generatedSchemas st') (sl_Name s) = true).
  { apply Contains_In. rewrite Hgen. apply in_or_app. right. left.
    reflexivity. }
  induction (th_StructLikes ast) as [|s0 l IH]; simpl; [contradiction|].
  destruct Hin as [-> | Hin].
  - rewrite Hnew, Hs. simpl.
    pose proof (pending_le {| th_Services := []; th_Structs := [];
                              th_StructLikes := l |} st st' Hsub) as Hle.
    unfold pending in Hle. simpl in Hle. lia.
  - specialize (IH Hin).
    destruct (Contains (generatedSchemas st) (sl_Name s0)) eqn:E; simpl.
    + apply Contains_In, Hsub, Contains_In in E. rewrite E. simpl. exact IH.
    + destruct (Contains (generatedSchemas st') (sl_Name s0)); simpl; lia.
Qed.

#[local] Instance progresses_PreOrder ast : PreOrder (progresses ast).
Proof.
  split.
  - intros st. left. reflexivity.
  - intros x y z [-> | Hxy] [-> | Hyz]; unfold progresses; auto.
    right. lia.
Qed.

Lemma progresses_addSchemaForStruct ov fileDesc ast s :
  In s (th_StructLikes ast) ->
  respects (progresses ast) (addSchemaForStruct ov fileDesc s).
Proof.
  intros Hin st u st' H. unfold addSchemaForStruct in H.
  change (bind get ?k st) with (k st st) in H. cbv beta in H.
  destruct (Contains (requiredSchemas st) (sl_Name s)); simpl in H;
    [|ret_inv H; left; reflexivity].
  destruct (Contains (generatedSchemas st) (sl_Name s)) eqn:Hgen; simpl in H;
    [ret_inv H; left; reflexivity|].
  destruct (GetStructDescriptor fileDesc (sl_Name s)) as [desc|];
    [|discriminate].
  bind_inv H.
  apply respects_onlyRequired_fields in H0.
  unfold onlyRequired, emitted in H0. injection H0 as Hg Hd.
  unfold addSchemaToDocument in H. simpl in H.
  rewrite Hg, Hgen in H. injection H as H. subst st'.
  right. eapply pending_emit; [exact Hin | exact Hgen | reflexivity].
Qed.

(** The walk over struct-likes of the file only makes progress. *)
Lemma progresses_walk ov fileDesc ast :
  forall fuel structs,
    (forall s, In (Some s) structs -> In s (th_StructLikes ast)) ->
    respects (progresses ast)
      (addSchemasForStructsToDocument ov fileDesc ast fuel structs).
Proof.
  induction fuel as [|fuel IH]; intros structs Hs.
  - destruct structs; simpl; [apply respects_ret; apply _|].
    intros st a st' H. discriminate.
  - induction structs as [|[s|] rest IHrest].
    + simpl. apply respects_ret; apply _.
    + change (respects (progresses ast)
                (_ <- addSchemasForStructsToDocument ov fileDesc ast fuel
                        (nestedStructLikes ast s) ;;
                 _ <- addSchemaForStruct ov fileDesc s ;;
                 addSchemasForStructsToDocument ov fileDesc ast (S fuel)
                   rest)).
      apply respects_bind; [apply _ | | intros _].
      { apply IH. intros s'. apply nestedStructLikes_In. }
      apply respects_bind; [apply _ | | intros _].
      { apply progresses_addSchemaForStruct, Hs. left. reflexivity. }
      apply IHrest. intros s' Hs'. apply Hs. right. exact Hs'.
    + simpl. apply respects_panic.
Qed.

Lemma pending_dropRequired ast count st :
  pending ast (dropRequired count st) = pending ast st.
Proof. reflexivity. Qed.

Lemma pending_bound ast st : pending ast st <= length (th_StructLikes ast).
Proof. unfold pending. apply filter_length_le. Qed.

(** The draining loop ends within one pass more than there are struct-likes
    still to emit: a pass that emits nothing leaves nothing required. *)
Lemma fuelFree_drain ov fileDesc ast rank fuel :
  ranked ast rank ->
  0 < fuel ->
  (forall s, In s (th_StructLikes ast) -> S (rank s) < fuel) ->
  forall passes st,
    pending ast st < passes ->
    drainRequiredSchemas ov fileDesc ast fuel passes st <> OutOfFuel.
Proof.
  intros Hrank Hpos Hfuel.
  assert (Hall : forall s, In (Some s) (map Some (th_StructLikes ast)) ->
                           In s (th_StructLikes ast)).
  { intros s Hs. apply in_map_iff in Hs. destruct Hs as (s0 & E & Hs0).
    injection E as <-. exact Hs0. }
  induction passes as [|passes IH]; intros st Hp; [lia|].
  simpl. change (bind get ?k st) with (k st st). cbv beta.
  destruct (requiredSchemas st) as [|r rs] eqn:Hreq; [discriminate|].
  unfold bind at 1.
  destruct (addSchemasForStructsToDocument ov fileDesc ast fuel
              (map Some (th_StructLikes ast)) st) as [[u st1]| |] eqn:Hwalk;
    [|discriminate|].
  - change (drainRequiredSchemas ov fileDesc ast fuel passes
              (dropRequired (length (r :: rs)) st1) <> OutOfFuel).
    apply progresses_walk in Hwalk; [|exact Hall].
    destruct Hwalk as [-> | Hlt].
    + destruct passes; simpl;
        change (bind get ?k ?s) with (k s s); cbv beta; simpl;
        rewrite Hreq;
        change (S (length rs)) with (length (r :: rs));
        rewrite drop_all; discriminate.
    + apply IH. rewrite pending_dropRequired. lia.
  - exfalso. revert Hwalk. apply (fuelFree_walk ov fileDesc ast rank Hrank);
      [exact Hpos|].
    intros s Hs. split; [apply Hall, Hs | apply Hfuel, Hall, Hs].
Qed.

(** X16. When the struct-typed fields form no cycle (there is a rank that
    goes down along them), [BuildDocument] ends: with more fuel than the
    ranks and the number of struct-likes call for, it returns a document or
    panics, and never runs out of fuel. *)
Theorem BuildDocument_terminates ov rt fileDesc ast rank fuel :
  ranked ast rank ->
  (forall s, In s (th_StructLikes ast) -> S (rank s) < fuel) ->
  length (th_StructLikes ast) < fuel ->
  BuildDocument ov rt fileDesc ast fuel <> OutOfFuel.
Proof.
  intros Hrank Hfuel Hlen. unfold BuildDocument.
  set (st0 := {| generatedSchemas := []; requiredSchemas := [];
                 doc := _ |}).
  unfold bind.
  destruct (addPathsToDocument ov rt fileDesc (th_Services ast) st0)
    as [[u st1]| |] eqn:Hpaths; [|discriminate|].
  - destruct (drainRequiredSchemas ov fileDesc ast fuel fuel st1)
      as [[u' st2]| |] eqn:Hdrain; [discriminate | discriminate |].
    exfalso. revert Hdrain.
    apply (fuelFree_drain ov fileDesc ast rank fuel Hrank);
      [lia | exact Hfuel |].
    pose proof (pending_bound ast st1). lia.
  - exfalso. exact (fuelFree_addPathsToDocument _ _ _ _ _ Hpaths).
Qed.

Lemma BuildDocument_terminates_witness :
  BuildDocument noOverrides listedOrder Nested.fileDesc Nested.ast 5
  <> OutOfFuel.
Proof.
  apply (BuildDocument_terminates noOverrides listedOrder Nested.fileDesc
           Nested.ast Nested.rank 5).
  - intros s s' Hs Hs'. simpl in Hs.
    destruct Hs as [<- | [<- | [<- | [<- | []]]]]; simpl in Hs';
      try contradiction;
      destruct Hs' as [E | []]; injection E as <-; vm_compute; lia.
  - intros s Hs. simpl in Hs.
    destruct Hs as [<- | [<- | [<- | [<- | []]]]]; vm_compute; lia.
  - vm_compute. lia.
Defined.

(** ** Tags *)

Lemma GetAnnotations_empty input targets :
  (forall a, In a input -> ~ In (an_Key a) (map fst targets)) ->
  GetAnnotations input targets = ∅.
Proof.
  intros Hno. unfold GetAnnotations.
  induction targets as [|[k t] targets IH]; simpl; [reflexivity|].
  destruct (find (fun a => String.eqb (an_Key a) k) input) as [a|] eqn:F.
  - apply find_some in F. destruct F as [Hin Hk].
    apply String.eqb_eq in Hk. exfalso. apply (Hno a Hin). left.
    symmetry. exact Hk.
  - apply IH. intros a Hin Hk. apply (Hno a Hin). right. exact Hk.
Qed.

Lemma exposedFunction_false f :
  exposedFunction f = false ->
  GetAnnotations (fn_Annotations f) HttpMethodAnnotations = ∅.
Proof.
  intros H. apply GetAnnotations_empty. intros a Hin Hk.
  assert (E : exposedFunction f = true).
  { unfold exposedFunction. apply existsb_exists. exists a.
    split; [exact Hin | apply Contains_In, Hk]. }
  congruence.
Qed.

Lemma exposedFunction_true f :
  exposedFunction f = true ->
  GetAnnotations (fn_Annotations f) HttpMethodAnnotations <> ∅.
Proof.
  unfold exposedFunction. intros H. apply existsb_exists in H.
  destruct H as (a & Hin & Hk). apply Contains_In in Hk.
  eapply GetAnnotations_nonempty; eassumption.
Qed.

Lemma addPaths_verb_step ov fileDesc s f inputDesc outputDesc count e st n
    st' :
  fst e <> "" ->
  addPaths_verb ov fileDesc s f inputDesc outputDesc count e st
  = Ok (n, st') ->
  n = S count.
Proof.
  intros Hne H. unfold addPaths_verb in H.
  destruct (String.eqb_spec (fst e) ""); [contradiction|].
  bind_inv H. bind_inv H. bind_inv H. ret_inv H. reflexivity.
Qed.

Lemma addPaths_function_exposed ov rt fileDesc s count f st n st' :
  addPaths_function ov rt fileDesc s count f st = Ok (n, st') ->
  if exposedFunction f then count < n else n = count.
Proof.
  intros H. destruct (exposedFunction f) eqn:E.
  - pose proof (exposedFunction_true f E) as Hne.
    unfold addPaths_function in H.
    destruct (map_to_list _) as [|e es] eqn:El.
    { apply map_to_list_empty_iff in El. contradiction. }
    pose proof (range_perm rt (sv_Name s) (fn_Name f) (e :: es)) as Hp.
    destruct (range_order rt (sv_Name s) (fn_Name f) (e :: es))
      as [|[verb values] rest] eqn:Er.
    { apply Permutation_nil in Hp. discriminate. }
    simpl in H. bind_inv H.
    apply addPaths_verb_step in H0.
    + apply (foldM_count _ rest) in H; [lia|].
      intros c x st1 n0 st1'. apply addPaths_verb_count.
    + assert (Hin : In (verb, values) (e :: es)).
      { eapply Permutation_in; [exact Hp | left; reflexivity]. }
      rewrite <- El in Hin.
      apply list_elem_of_In, elem_of_map_to_list in Hin.
      apply GetAnnotations_lookup in Hin. simpl in Hin. simpl.
      intros ->. repeat (destruct Hin as [Hin | Hin]; [discriminate Hin|]).
      exact Hin.
  - unfold addPaths_function in H.
    rewrite (exposedFunction_false f E), map_to_list_empty in H.
    ret_inv H. reflexivity.
Qed.

Lemma foldM_addPaths_function_exposed ov rt fileDesc s fs :
  forall c st n st',
    foldM (addPaths_function ov rt fileDesc s) fs c st = Ok (n, st') ->
    Nat.ltb 0 n = Nat.ltb 0 c || existsb exposedFunction fs.
Proof.
  induction fs as [|f fs IH]; simpl; intros c st n st' H.
  - ret_inv H. rewrite orb_false_r. reflexivity.
  - bind_inv H. apply IH in H. rewrite H.
    apply addPaths_function_exposed in H0.
    destruct (exposedFunction f); simpl.
    + destruct (Nat.ltb_spec 0 a); [|lia].
      rewrite orb_true_r. reflexivity.
    + subst a. reflexivity.
Qed.

Lemma addPaths_service_tags ov rt fileDesc s st st' :
  addPaths_service ov rt fileDesc s st = Ok (tt, st') ->
  d_Tags (doc st')
  = d_Tags (doc st) ++ (if exposed s then [tagOf ov s] else []).
Proof.
  intros H. unfold addPaths_service in H. bind_inv H.
  pose proof (foldM_addPaths_function_exposed _ _ _ _ _ _ _ _ _ H0) as Hc.
  apply (respects_foldM keepsTags) in H0;
    [|intros; apply respects_addPaths_function].
  destruct H0 as [Ht _]. simpl in Hc. fold (exposed s) in Hc.
  rewrite Hc in H. destruct (exposed s).
  - unfold bind, get, put in H. inversion H; subst; clear H.
    simpl. rewrite Ht. reflexivity.
  - ret_inv H. rewrite Ht, app_nil_r. reflexivity.
Qed.

Lemma addPathsToDocument_tags ov rt fileDesc services :
  forall st st',
    addPathsToDocument ov rt fileDesc services st = Ok (tt, st') ->
    d_Tags (doc st')
    = d_Tags (doc st) ++ map (tagOf ov) (List.filter exposed services).
Proof.
  unfold addPathsToDocument.
  induction services as [|s services IH]; simpl; intros st st' H.
  - ret_inv H. rewrite app_nil_r. reflexivity.
  - bind_inv H. destruct a. apply addPaths_service_tags in H0.
    apply IH in H. rewrite H, H0, <- app_assoc.
    destruct (exposed s); reflexivity.
Qed.

Lemma promoteSingleTag_tags d :
  d_Tags (promoteSingleTag d) = clearSingle (d_Tags d).
Proof.
  unfold promoteSingleTag, clearSingle.
  destruct (d_Tags d) as [|t [|t' ts]] eqn:E; simpl; rewrite ?E; reflexivity.
Qed.

(** X17. Without a document override, the tags of the document are, up to
    their order, those of the services that have a method with a verb
    annotation, one for each: a service that exposes nothing gets no tag.
    When there is one tag only, it has lost its description. *)
Theorem BuildDocument_tags ov rt fileDesc ast fuel d :
  getDocumentOption ov ast = None ->
  BuildDocument ov rt fileDesc ast fuel = Ok d ->
  Permutation (d_Tags d)
    (clearSingle (map (tagOf ov) (List.filter exposed (th_Services ast)))).
Proof.
  unfold BuildDocument. intros -> H.
  destruct (bind _ _ _) as [[u st]| |] eqn:Hrun; try discriminate.
  inversion H; subst; clear H.
  bind_inv Hrun. destruct a.
  apply addPathsToDocument_tags in Hrun0. simpl in Hrun0.
  assert (Hd : respects appendsSchemas
                 (drainRequiredSchemas ov fileDesc ast fuel fuel)).
  { apply respects_drain; [apply _ | | apply appendsSchemas_dropRequired].
    intros s. apply respects_appendsSchemas_addSchemaForStruct. }
  apply Hd in Hrun. destruct Hrun as (_ & Hpt & _).
  apply (f_equal snd) in Hpt. simpl in Hpt.
  change (d_Tags (sortDocument (setServers (promoteSingleTag (doc st)))))
    with (sort_Slice (lessBy tg_Name) (d_Tags (promoteSingleTag (doc st)))).
  rewrite promoteSingleTag_tags, Hpt, Hrun0.
  apply sort_Slice_Permutation.
Qed.

Lemma BuildDocument_tags_witness :
  exists d,
    BuildDocument noOverrides listedOrder Nested.fileDesc Nested.ast 5 = Ok d
    /\ Permutation (d_Tags d) [{| tg_Name := "S"; tg_Description := "" |}].
Proof.
  eexists. split; [vm_compute; reflexivity|].
  apply (BuildDocument_tags noOverrides listedOrder Nested.fileDesc
           Nested.ast 5 _ eq_refl).
  vm_compute. reflexivity.
Defined.

(** ** The origin of component schemas *)

#[local] Instance keepsKnown_PreOrder fileDesc :
  PreOrder (keepsKnown fileDesc).
Proof.
  split.
  - intros st H. exact H.
  - intros x y z Hxy Hyz H. apply Hyz, Hxy, H.
Qed.

Lemma onlyRequired_keepsKnown fileDesc st st' :
  onlyRequired st st' -> keepsKnown fileDesc st st'.
Proof.
  unfold onlyRequired, emitted, keepsKnown. intros H. inversion H as [[Hg Hd]].
  rewrite Hd. auto.
Qed.

Lemma GetStructDescriptor_name fileDesc name desc :
  GetStructDescriptor fileDesc name = Some desc -> sd_Name desc = name.
Proof.
  unfold GetStructDescriptor. intros H. apply find_some in H.
  apply String.eqb_eq, H.
Qed.

Lemma GetStructDescriptor_known fileDesc name desc :
  GetStructDescriptor fileDesc name = Some desc ->
  exists desc', GetStructDescriptor fileDesc (sd_Name desc) = Some desc'.
Proof.
  intros H. rewrite (GetStructDescriptor_name _ _ _ H). eauto.
Qed.

Create HintDb known.

Ltac knowing :=
  repeat first
    [ solve [eauto with known]
    | apply (respects_weaken onlyRequired);
      [apply onlyRequired_keepsKnown | solve [auto with frame]]
    | apply respects_ret; apply _
    | apply respects_panic
    | apply respects_index0; apply _
    | apply respects_bind; [apply _ | | intros ?]
    | apply respects_foldM; [apply _ | intros ? ?] ].

Lemma keepsKnown_addSchemaToDocument fileDesc name s :
  (exists desc, GetStructDescriptor fileDesc name = Some desc) ->
  respects (keepsKnown fileDesc) (addSchemaToDocument (name, inlineSchema s)).
Proof.
  intros Hname st a st' H. unfold addSchemaToDocument in H.
  destruct (Contains (generatedSchemas st) _);
    inversion H; subst; clear H; intros HI; [exact HI|].
  simpl. apply Forall_app. split; [exact HI|].
  constructor; [|constructor]. split; [exact Hname | eauto].
Qed.
#[local] Hint Resolve keepsKnown_addSchemaToDocument : known.

Lemma keepsKnown_getResponseForStruct ov fileDesc outputDesc :
  (forall desc, outputDesc = Some desc ->
     exists desc', GetStructDescriptor fileDesc (sd_Name desc) = Some desc') ->
  respects (keepsKnown fileDesc) (getResponseForStruct ov fileDesc outputDesc).
Proof.
  intros Hout. unfold getResponseForStruct.
  destruct outputDesc as [desc|]; knowing.
  - unfold getResponseForStruct_header.
    destruct (annotationValues _ ApiHeader) as [|ext ?]; knowing.
    destruct (String.eqb ext ""); knowing.
  - destruct (hasProperties a0); knowing.
  - destruct (hasProperties a1); knowing.
Qed.
#[local] Hint Resolve keepsKnown_getResponseForStruct : known.

Lemma keepsKnown_buildOperation ov fileDesc methodName description
    operationID tagName path host inputDesc outputDesc :
  (forall desc, outputDesc = Some desc ->
     exists desc', GetStructDescriptor fileDesc (sd_Name desc) = Some desc') ->
  respects (keepsKnown fileDesc)
    (buildOperation ov fileDesc methodName description operationID tagName
       path host inputDesc outputDesc).
Proof.
  intros Hout. unfold buildOperation. destruct inputDesc as [i|]; knowing.
  destruct outputDesc; knowing.
Qed.
#[local] Hint Resolve keepsKnown_buildOperation : known.

Lemma keepsKnown_addOperationToDocument fileDesc op path methodName :
  respects (keepsKnown fileDesc) (addOperationToDocument op path methodName).
Proof.
  intros st a st' H. unfold addOperationToDocument in H.
  inversion H; subst; clear H. intros HI. exact HI.
Qed.
#[local] Hint Resolve keepsKnown_addOperationToDocument : known.

Lemma keepsKnown_addPaths_function ov rt fileDesc s count f :
  respects (keepsKnown fileDesc) (addPaths_function ov rt fileDesc s count f).
Proof.
  unfold addPaths_function.
  destruct (map_to_list _) as [|e es]; knowing.
  unfold addPaths_verb. destruct (String.eqb (fst _) ""); knowing.
  apply keepsKnown_buildOperation. intros desc.
  apply GetStructDescriptor_known.
Qed.
#[local] Hint Resolve keepsKnown_addPaths_function : known.

Lemma keepsKnown_addPaths_service ov rt fileDesc s :
  respects (keepsKnown fileDesc) (addPaths_service ov rt fileDesc s).
Proof.
  unfold addPaths_service. knowing.
  destruct (Nat.ltb 0 a); [|knowing].
  apply respects_modify with
    (f := fun st => withDoc st (withTags (doc st) _)).
  intros st HI. exact HI.
Qed.
#[local] Hint Resolve keepsKnown_addPaths_service : known.

Lemma keepsKnown_addSchemaForStruct ov fileDesc s :
  respects (keepsKnown fileDesc) (addSchemaForStruct ov fileDesc s).
Proof.
  unfold addSchemaForStruct. apply respects_get_bind. intros st.
  destruct (_ || _); knowing.
  destruct (GetStructDescriptor fileDesc (sl_Name s)) eqn:E; knowing.
  unfold addSchemas_field. knowing.
  destruct a; knowing.
Qed.

(** X18. Without a document override, every component schema of the
    document is written out in place (it is no reference) and bears the name
    of a struct the descriptor registry knows. *)
Theorem BuildDocument_schemas_known ov rt fileDesc ast fuel d :
  getDocumentOption ov ast = None ->
  BuildDocument ov rt fileDesc ast fuel = Ok d ->
  Forall (knownSchema fileDesc) (d_Schemas d).
Proof.
  unfold BuildDocument. intros -> H.
  destruct (bind _ _ _) as [[u st]| |] eqn:Hrun; try discriminate.
  inversion H; subst; clear H.
  assert (Hr : respects (keepsKnown fileDesc)
                 (_ <- addPathsToDocument ov rt fileDesc (th_Services ast) ;;
                  drainRequiredSchemas ov fileDesc ast fuel fuel)).
  { apply respects_bind; [apply _ | | intros _].
    - unfold addPathsToDocument. knowing.
    - apply respects_drain; [apply _ | |].
      + intros s. apply keepsKnown_addSchemaForStruct.
      + intros count st0 HI. exact HI. }
  apply Hr in Hrun. specialize (Hrun (List.Forall_nil _)).
  assert (Hs : d_Schemas (setServers (promoteSingleTag (doc st)))
               = d_Schemas (doc st)).
  { unfold setServers, promoteSingleTag. simpl.
    destruct (d_Tags (doc st)) as [|t [|t' ts]]; reflexivity. }
  change (d_Schemas (sortDocument (setServers (promoteSingleTag (doc st)))))
    with (sort_Slice (lessBy fst)
            (d_Schemas (setServers (promoteSingleTag (doc st))))).
  rewrite Hs.
  eapply Permutation_Forall; [|exact Hrun].
  symmetry. apply sort_Slice_Permutation.
Qed.

Lemma BuildDocument_schemas_known_witness :
  exists d,
    BuildDocument noOverrides listedOrder Nested.fileDesc Nested.ast 5 = Ok d
    /\ map fst (d_Schemas d) = ["Inner"; "Outer"; "Resp"]
    /\ Forall (knownSchema Nested.fileDesc) (d_Schemas d).
Proof.
  eexists. split; [vm_compute; reflexivity|].
  split; [reflexivity|].
  apply (BuildDocument_schemas_known noOverrides listedOrder Nested.fileDesc
           Nested.ast 5 _ eq_refl).
  vm_compute. reflexivity.
Defined.

(** ** Instances *)

Lemma BuildDocument_schema_names_distinct_witness :
  exists d,
    BuildDocument noOverrides listedOrder Nested.fileDesc Nested.ast 5 = Ok d
    /\ NoDup (map fst (d_Schemas d)).
Proof.
  eexists. split; [vm_compute; reflexivity|].
  apply (BuildDocument_schema_names_distinct noOverrides listedOrder
           Nested.fileDesc Nested.ast 5 _ eq_refl).
  vm_compute. reflexivity.
Defined.

Lemma setServers_single_server_witness :
  d_Servers (setServers Served.document) = [{| srv_URL := Served.url |}]
  /\ Forall (fun p => noServers (snd p)) (d_Paths (setServers Served.document)).
Proof.
  apply (setServers_single_server Served.url Served.document).
  - discriminate.
  - constructor; [|constructor].
    split; [reflexivity|]. split; [reflexivity|]. split.
    + exists Served.operation. left. reflexivity.
    + intros op [E | [E | [E | [E | [E | []]]]]]; try discriminate.
      injection E as <-. reflexivity.
Defined.

Lemma buildOperation_field_total_witness :
  exists params' st',
    buildOperation_field noOverrides Hello.fileDesc [] tokenField emptyState
    = Ok (params', st').
Proof.
  apply (buildOperation_field_total noOverrides Hello.fileDesc [] tokenField
           emptyState).
  reflexivity.
Defined.

(** ** Responses *)

Lemma addSchemaToDocument_generated name schema st st' :
  addSchemaToDocument (name, schema) st = Ok (tt, st') ->
  In name (generatedSchemas st').
Proof.
  unfold addSchemaToDocument. simpl.
  destruct (Contains (generatedSchemas st) name) eqn:E; intros H;
    inversion H; subst; clear H; simpl.
  - apply Contains_In, E.
  - apply in_or_app. right. left. reflexivity.
Qed.

Lemma addSchemaToDocument_generated_mono schema st st' x :
  addSchemaToDocument schema st = Ok (tt, st') ->
  In x (generatedSchemas st) -> In x (generatedSchemas st').
Proof.
  unfold addSchemaToDocument.
  destruct (Contains (generatedSchemas st) (fst schema)); intros H Hx;
    inversion H; subst; clear H; simpl; [exact Hx|].
  apply in_or_app. left. exact Hx.
Qed.

(** X22. A response never points at a component schema that is missing:
    when the document's component schemas and the list of emitted names
    agree before the call, every media type of the content
    [getResponseForStruct] returns refers to the schema named after the
    result struct, and the document has a component schema of that name
    afterwards. *)
Theorem getResponseForStruct_content_resolves ov fileDesc desc st code
    headers content st' :
  schemaNamesConsistent st ->
  getResponseForStruct ov fileDesc (Some desc) st
  = Ok ((code, headers, content), st') ->
  forall mediaType, In mediaType content ->
    mt_Schema (snd mediaType)
    = Some (referenceTo ("#/components/schemas/" ++ sd_Name desc)%string)
    /\ In (sd_Name desc) (map fst (d_Schemas (doc st'))).
Proof.
  intros HI H mediaType Hin.
  pose proof (respects_getResponseForStruct ov fileDesc (Some desc)
                _ _ _ H) as [_ Hcons].
  destruct (Hcons HI) as [Hnames _]. rewrite Hnames. clear Hcons Hnames HI.
  unfold getResponseForStruct in H.
  apply bind_Ok in H. destruct H as (hs & st1 & _ & H).
  apply bind_Ok in H. destruct H as (body & st2 & _ & H).
  apply bind_Ok in H. destruct H as (raw & st3 & _ & H).
  apply bind_Ok in H. destruct H as (content1 & st4 & H1 & H).
  apply bind_Ok in H. destruct H as (content2 & st5 & H2 & H).
  ret_inv H.
  assert (Hfirst : forall m, In m content1 ->
            mt_Schema (snd m)
            = Some (referenceTo
                      ("#/components/schemas/" ++ sd_Name desc)%string)
            /\ In (sd_Name desc) (generatedSchemas st4)).
  { destruct (hasProperties body).
    - apply bind_Ok in H1. destruct H1 as ([] & st1' & Hadd & H1).
      ret_inv H1. intros m [<- | []]. split; [reflexivity|].
      eapply addSchemaToDocument_generated. exact Hadd.
    - ret_inv H1. intros m []. }
  destruct (hasProperties raw).
  - apply bind_Ok in H2. destruct H2 as ([] & st2' & Hadd & H2).
    ret_inv H2. apply in_app_or in Hin. destruct Hin as [Hin | [<- | []]].
    + split; [apply (Hfirst _ Hin)|].
      eapply addSchemaToDocument_generated. exact Hadd.
    + split; [reflexivity|].
      eapply addSchemaToDocument_generated. exact Hadd.
  - ret_inv H2. apply Hfirst, Hin.
Qed.

Lemma getResponseForStruct_content_resolves_witness :
  exists code headers mediaType st',
    getResponseForStruct noOverrides Nested.fileDesc (Some Nested.Resp)
      emptyState = Ok ((code, headers, [mediaType]), st')
    /\ mt_Schema (snd mediaType)
       = Some (referenceTo "#/components/schemas/Resp")
    /\ In "Resp" (map fst (d_Schemas (doc st'))).
Proof.
  eexists _, _, _, _. split; [vm_compute; reflexivity|].
  eapply (getResponseForStruct_content_resolves noOverrides Nested.fileDesc
            Nested.Resp emptyState).
  - split; [reflexivity | constructor].
  - vm_compute. reflexivity.
  - left. reflexivity.
Defined.

(** ** References *)

Lemma schemaReferenceForMessage_requires message st ref st' :
  schemaReferenceForMessage message st = Ok (ref, st') ->
  In (sd_Name message) (requiredSchemas st')
  /\ (NoDup (requiredSchemas st) -> NoDup (requiredSchemas st')).
Proof.
  unfold schemaReferenceForMessage. intros H. inversion H; subst; clear H.
  destruct (Contains (requiredSchemas st) (sd_Name message)) eqn:E; simpl.
  - split; [apply Contains_In, E | auto].
  - split; [apply in_or_app; right; left; reflexivity|].
    intros Hnd. apply (AppendUnique_NoDup _ (sd_Name message)) in Hnd.
    unfold AppendUnique in Hnd. rewrite E in Hnd. exact Hnd.
Qed.

(** X23. A struct at the bottom of a field's type, under any nesting of
    lists and maps, is recorded as required when it resolves, so that the
    draining loop emits its schema; no name is recorded twice. *)
Theorem schemaOrReferenceForField_requires fileDesc t desc st r st' :
  td_GetStructDescriptor fileDesc (valueType t) = Some desc ->
  schemaOrReferenceForField fileDesc t st = Ok (r, st') ->
  In (sd_Name desc) (requiredSchemas st')
  /\ (NoDup (requiredSchemas st) -> NoDup (requiredSchemas st')).
Proof.
  revert r st st'. induction t as [n | n | v IH | k _ v IH];
    intros r st st' Hdesc H; simpl in Hdesc.
  - discriminate.
  - simpl in H. rewrite Hdesc in H. bind_inv H. ret_inv H.
    eapply schemaReferenceForMessage_requires. exact H0.
  - simpl in H. bind_inv H. ret_inv H. eapply IH; eassumption.
  - simpl in H. bind_inv H. ret_inv H. eapply IH; eassumption.
Qed.

Lemma schemaOrReferenceForField_requires_witness :
  exists r st',
    schemaOrReferenceForField Nested.fileDesc
      (TMap (TNamed "string") (TList (TStruct "Inner"))) emptyState
    = Ok (r, st')
    /\ In "Inner" (requiredSchemas st')
    /\ (NoDup (requiredSchemas emptyState) -> NoDup (requiredSchemas st')).
Proof.
  eexists _, _. split; [vm_compute; reflexivity|].
  eapply (schemaOrReferenceForField_requires Nested.fileDesc
            (TMap (TNamed "string") (TList (TStruct "Inner"))) Nested.Inner
            emptyState).
  - reflexivity.
  - vm_compute. reflexivity.
Defined.
